(** * Traced: vocabulary acquisition and review scheduling

    A shallow embedding of the scoring function, the Dexie-backed handlers
    (rating, trace toggling, encounter recording and deletion, noise-word
    reconciliation, page scan with promotion and auto-trace replenishment)
    and the review card selector, followed by the properties of the
    specification that were checked against them.

    Numbers.  A JavaScript [number] is modelled by [Z] where it holds
    integers (timestamps, counters, requested sizes).  Scores and
    priorities are read twice.  In the handlers they are rationals ([Q])
    with exact arithmetic: this is the reading behind the statements on
    stored rows, flags, table contents and write logs, which take the score
    as the code's own fold and do not depend on how it rounds.  The scoring
    function and the auto-mode card draw are read again over the primitive
    binary64 floats ([calculateWeightedScore64], [handleDrawCard64]), with
    every operation rounded as the code rounds it: this is the reading
    behind the statements on the value of a score and on the order of
    priorities. *)

From Stdlib Require Import ZArith QArith Qminmax Qround List String Ascii Bool.
From Stdlib Require Import Lia Lqa Sorting.Sorted Sorting.Permutation.
From Stdlib Require Import OrderedTypeEx.
From Stdlib Require Import Floats.
Import ListNotations.

Set Implicit Arguments.
Open Scope string_scope.
Open Scope Z_scope.
Open Scope Q_scope.

(* ================================================================= *)
(** ** JavaScript values and array helpers *)

(** Truthiness of an optional boolean field ([undefined] is falsy). *)
Definition truthy (b : option bool) : bool :=
  match b with Some true => true | _ => false end.

(** Truthiness of an optional number field such as [deletedAt]
    ([undefined] and [0] are falsy). *)
Definition truthyNum (n : option Z) : bool :=
  match n with Some z => negb (z =? 0)%Z | None => false end.

(** Truthiness of an optional string field ([undefined] and [''] are falsy). *)
Definition truthyStr (s : option string) : bool :=
  match s with Some s => negb (s =? "")%string | None => false end.

(** [a ?? d] *)
Definition nullish {A} (a : option A) (d : A) : A :=
  match a with Some x => x | None => d end.

Definition Qltb (a b : Q) : bool := negb (Qle_bool b a).

(** [arr.slice(0, n)]: a negative [n] counts from the end. *)
Definition slice0 {A} (n : Z) (l : list A) : list A :=
  if (n <? 0)%Z
  then firstn (Z.to_nat (Z.of_nat (List.length l) + n)) l
  else firstn (Z.to_nat n) l.

(** [Array.prototype.sort] is stable.  [after x y] says that the comparator
    puts [x] strictly after [y] ([cmp(x, y) > 0]). *)
Section StableSort.
Context {A : Type} (after : A -> A -> bool).

Fixpoint sort_insert (x : A) (l : list A) : list A :=
  match l with
  | [] => [x]
  | y :: l' => if after x y then y :: sort_insert x l' else x :: l
  end.

Definition stable_sort (l : list A) : list A :=
  fold_right sort_insert [] l.
End StableSort.

(** [arr.sort((a, b) => cmp(a, b))] *)
Definition array_sort {A} (cmp : A -> A -> Q) (l : list A) : list A :=
  stable_sort (fun x y => Qltb 0 (cmp x y)) l.

(** Code-unit order on strings: the order of IndexedDB keys and of the
    default [Array.prototype.sort]. *)
Definition str_lt (a b : string) : Prop := String.compare a b = Lt.
Definition str_ltb (a b : string) : bool :=
  match String.compare a b with Lt => true | _ => false end.

Definition sort_strings (l : list string) : list string :=
  stable_sort (fun x y => str_ltb y x) l.

(** Plain objects used as records ([Record<string, T>]): own keys only. *)
Fixpoint record_get {V} (k : string) (r : list (string * V)) : option V :=
  match r with
  | [] => None
  | (k', v) :: r' => if (k =? k')%string then Some v else record_get k r'
  end.

(* ================================================================= *)
(** ** lib/domain-utils.ts: the scoring function *)

Definition SCORING_WEIGHTS : list (string * Q) :=
  [ ("scan", 0.1); ("lookup", 1.0); ("trace", 1.0); ("manual", 2.0);
    ("import", 0.5); ("wordbank", 0.1); ("rate_known", 5.0);
    ("rate_familiar", 3.0); ("rate_unknown", 1.0) ].

(** [SCORING_WEIGHTS[source] || 0.1]: a missing key and a zero weight both
    fall back.  The sources of stored encounters are the nine keys of the
    table ([EncounterEntity.source] is a closed union); [points64] below
    covers every string, the names inherited from [Object.prototype]
    included. *)
Definition weightOf (source : string) : Q :=
  match record_get source SCORING_WEIGHTS with
  | Some w => if Qeq_bool w 0 then 0.1 else w
  | None => 0.1
  end.

(** Anything with a [source: string] field can be scored. *)
Class HasSource (E : Type) := source_of : E -> string.

(** [{ source: e.source }] *)
Record SourceOnly := { so_source : string }.
#[global] Instance SourceOnly_HasSource : HasSource SourceOnly := so_source.

Definition calculateWeightedScore {E} `{HasSource E}
    (encounters : list E) (multiplier : Q) : Q :=
  fold_left
    (fun sum e =>
       let points := weightOf (source_of e) * multiplier in
       Qmax 0 (sum + points))
    encounters 0.

(** [isTraced ? 2 : 1], the multiplier every caller passes. *)
Definition traceMultiplier (isTraced : option bool) : Q :=
  if truthy isTraced then 2 else 1.

Definition KNOWN_THRESHOLD : Q := 100.

(** [score >= KNOWN_THRESHOLD] *)
Definition reachesThreshold (score : Q) : bool := Qle_bool KNOWN_THRESHOLD score.

(* ================================================================= *)
(** ** background/storage/db.ts: entities

    Optional fields ([x?: T]) are [option]s.  [VocabEntity] keeps the field
    names of the source; the other entities carry a short prefix because
    several of them share names ([lemma], [createdAt], ...).  Fields that no
    modelled handler reads or writes ([dueAt], [lastReviewDate],
    [reviewInterval], [faviconUrl], [locator], ...) are left out. *)

Record VocabEntity := {
  vocabId : string;
  lemma : string;
  surface : string;
  language : string;
  meaning : string;
  sourceTraceId : option string;
  proficiency : Z;
  createdAt : option Z;
  updatedAt : Z;
  deletedAt : option Z;
  sourceType : option string;
  sourceWordbankId : option string;
  firstSeenAt : option Z;
  lastSeenAt : option Z;
  familiarityScore : option Q;
  nextReviewDate : option Z;
  isKnown : option bool;
  scoreLocked : option bool;
  isTraced : option bool;
  noiseManaged : option bool
}.

Record EncounterEntity := {
  enc_encounterId : string;
  enc_vocabId : string;
  enc_surface : string;
  enc_normalizedSurface : string;
  enc_pageUrl : string;
  enc_pageHost : string;
  enc_pageTitle : option string;
  enc_contextSentence : option string;
  enc_source : string;
  enc_createdAt : Z;
  enc_updatedAt : Z
}.
#[global] Instance EncounterEntity_HasSource : HasSource EncounterEntity := enc_source.

Record LemmaStatEntity := {
  ls_lemmaStatId : string;
  ls_lemma : string;
  ls_normalizedLemma : string;
  ls_language : string;
  ls_totalCount : Z;
  ls_pageCount : Z;
  ls_firstSeenAt : Z;
  ls_lastSeenAt : Z;
  ls_lastPageUrl : option string;
  ls_lastPageHost : option string;
  ls_inWordbank : bool;
  ls_sourceMask : Z;
  ls_dictRank : option Z;
  ls_promotedVocabId : option string;
  ls_promotedAt : option Z;
  ls_promotionReason : option string;
  ls_cooldownUntil : option Z;
  ls_updatedAt : Z
}.

Record TraceEntity := {
  tr_traceId : string;
  tr_sourceText : string;
  tr_pageUrl : string
}.

Record WordbankEntity := {
  wb_wordbankId : string;
  wb_code : string
}.

Record WordbankWordEntity := {
  ww_wordId : string;
  ww_wordbankId : string;
  ww_lemma : string;
  ww_surface : string;
  ww_normalized : string
}.

Record UserWordbankEntity := {
  uw_userWordbankId : string;
  uw_wordbankId : string;
  uw_enabled : bool
}.

(** The [value: unknown] of a settings row.  Arrays hold strings, which is
    what the noise lists store. *)
Inductive SettingValue :=
| SNull
| SBool (b : bool)
| SNum (n : Z)
| SStr (s : string)
| SArr (l : list string).

Record SettingsKV := {
  kv_key : string;
  kv_value : SettingValue;
  kv_updatedAt : Z
}.

Record DictEntry := {
  de_lemma : string;
  de_rank : option Z
}.

(** The object literal handed to [db.vocabulary.update(id, changes)]:
    [None] is a key the literal does not have. *)
Record VocabChanges := {
  ch_isTraced : option bool;
  ch_familiarityScore : option Q;
  ch_isKnown : option bool;
  ch_scoreLocked : option bool;
  ch_noiseManaged : option bool;
  ch_updatedAt : option Z
}.

Definition overwrite {A} (c : option A) (old : option A) : option A :=
  match c with Some x => Some x | None => old end.

Definition applyChanges (c : VocabChanges) (v : VocabEntity) : VocabEntity :=
  {| vocabId := vocabId v;
     lemma := lemma v;
     surface := surface v;
     language := language v;
     meaning := meaning v;
     sourceTraceId := sourceTraceId v;
     proficiency := proficiency v;
     createdAt := createdAt v;
     updatedAt := nullish (ch_updatedAt c) (updatedAt v);
     deletedAt := deletedAt v;
     sourceType := sourceType v;
     sourceWordbankId := sourceWordbankId v;
     firstSeenAt := firstSeenAt v;
     lastSeenAt := lastSeenAt v;
     familiarityScore := overwrite (ch_familiarityScore c) (familiarityScore v);
     nextReviewDate := nextReviewDate v;
     isKnown := overwrite (ch_isKnown c) (isKnown v);
     scoreLocked := overwrite (ch_scoreLocked c) (scoreLocked v);
     isTraced := overwrite (ch_isTraced c) (isTraced v);
     noiseManaged := overwrite (ch_noiseManaged c) (noiseManaged v) |}.

(* ================================================================= *)
(** ** Dexie tables

    A table is the list of its rows in primary-key order, which is the order
    [toArray()] and [filter(...)] walk them in. *)

Section Table.
Context {A : Type} (key : A -> string).

Definition tbl_get (k : string) (t : list A) : option A :=
  find (fun r => (key r =? k)%string) t.

Fixpoint tbl_put (r : A) (t : list A) : list A :=
  match t with
  | [] => [r]
  | r' :: t' =>
      match String.compare (key r) (key r') with
      | Eq => r :: t'
      | Lt => r :: t
      | Gt => r' :: tbl_put r t'
      end
  end.

(** [update(k, changes)] touches the row with key [k], if any. *)
Definition tbl_update (k : string) (f : A -> A) (t : list A) : list A :=
  map (fun r => if (key r =? k)%string then f r else r) t.

Definition tbl_delete (k : string) (t : list A) : list A :=
  filter (fun r => negb (key r =? k)%string) t.

(** Rows in strictly increasing key order. *)
Definition tbl_ok (t : list A) : Prop :=
  StronglySorted (fun a b => str_lt (key a) (key b)) t.
End Table.

(** [where('[lemma+language]').equals([l, lang]).first()] *)
Definition findByLemma (l lang : string) (t : list VocabEntity) : option VocabEntity :=
  find (fun v => (lemma v =? l)%string && (language v =? lang)%string) t.

(** [where('vocabId').equals(id)] on the encounters table. *)
Definition encountersOf (id : string) (t : list EncounterEntity) : list EncounterEntity :=
  filter (fun e => (enc_vocabId e =? id)%string) t.

(* ================================================================= *)
(** ** The store, the write log and the handler monad *)

Inductive TableName :=
| T_vocabulary | T_encounters | T_lemmaStats | T_settings.

Inductive WriteKind := W_add | W_put | W_update | W_delete.

Record World := {
  vocabulary : list VocabEntity;
  encounters : list EncounterEntity;
  lemmaStats : list LemmaStatEntity;
  settings : list SettingsKV;
  traces : list TraceEntity;
  wordbanks : list WordbankEntity;
  wordbankWords : list WordbankWordEntity;
  userWordbanks : list UserWordbankEntity;
  (** how many times [crypto.randomUUID()] has been called *)
  uuidCount : nat;
  (** every write issued to the database, oldest first *)
  writes : list (TableName * WriteKind * string)
}.

Definition logWrite (t : TableName) (k : WriteKind) (key : string) (w : World) : World :=
  {| vocabulary := vocabulary w; encounters := encounters w;
     lemmaStats := lemmaStats w; settings := settings w; traces := traces w;
     wordbanks := wordbanks w; wordbankWords := wordbankWords w;
     userWordbanks := userWordbanks w; uuidCount := uuidCount w;
     writes := writes w ++ [(t, k, key)] |}.

Definition with_vocabulary (f : list VocabEntity -> list VocabEntity) (w : World) : World :=
  {| vocabulary := f (vocabulary w); encounters := encounters w;
     lemmaStats := lemmaStats w; settings := settings w; traces := traces w;
     wordbanks := wordbanks w; wordbankWords := wordbankWords w;
     userWordbanks := userWordbanks w; uuidCount := uuidCount w;
     writes := writes w |}.

Definition with_encounters (f : list EncounterEntity -> list EncounterEntity) (w : World) : World :=
  {| vocabulary := vocabulary w; encounters := f (encounters w);
     lemmaStats := lemmaStats w; settings := settings w; traces := traces w;
     wordbanks := wordbanks w; wordbankWords := wordbankWords w;
     userWordbanks := userWordbanks w; uuidCount := uuidCount w;
     writes := writes w |}.

Definition with_lemmaStats (f : list LemmaStatEntity -> list LemmaStatEntity) (w : World) : World :=
  {| vocabulary := vocabulary w; encounters := encounters w;
     lemmaStats := f (lemmaStats w); settings := settings w; traces := traces w;
     wordbanks := wordbanks w; wordbankWords := wordbankWords w;
     userWordbanks := userWordbanks w; uuidCount := uuidCount w;
     writes := writes w |}.

Definition with_settings (f : list SettingsKV -> list SettingsKV) (w : World) : World :=
  {| vocabulary := vocabulary w; encounters := encounters w;
     lemmaStats := lemmaStats w; settings := f (settings w); traces := traces w;
     wordbanks := wordbanks w; wordbankWords := wordbankWords w;
     userWordbanks := userWordbanks w; uuidCount := uuidCount w;
     writes := writes w |}.

Definition bump_uuid (w : World) : World :=
  {| vocabulary := vocabulary w; encounters := encounters w;
     lemmaStats := lemmaStats w; settings := settings w; traces := traces w;
     wordbanks := wordbanks w; wordbankWords := wordbankWords w;
     userWordbanks := userWordbanks w; uuidCount := S (uuidCount w);
     writes := writes w |}.

Inductive AppError :=
| VALIDATION_ERROR (message : string)
| NOT_FOUND (message : string)
| ConstraintError      (* Dexie: [add] on a key that is taken *)
| TypeError.           (* [new URL(...)] on an invalid URL *)

Inductive Outcome (A : Type) :=
| Resolved (a : A)
| Rejected (e : AppError).
Arguments Resolved {A} a.
Arguments Rejected {A} e.

(** An async handler: it runs against the store and settles.  A rejected
    handler keeps the writes it made before it threw. *)
Definition Async (A : Type) : Type := World -> Outcome A * World.

Definition ret {A} (a : A) : Async A := fun w => (Resolved a, w).
Definition throw {A} (e : AppError) : Async A := fun w => (Rejected e, w).
Definition bind {A B} (m : Async A) (k : A -> Async B) : Async B :=
  fun w => match m w with
           | (Resolved a, w') => k a w'
           | (Rejected e, w') => (Rejected e, w')
           end.
Definition reads {A} (f : World -> A) : Async A := fun w => (Resolved (f w), w).
Definition modify (f : World -> World) : Async unit := fun w => (Resolved tt, f w).

Declare Scope async_scope.
Delimit Scope async_scope with async.
Notation "x <- m ;; k" := (bind m (fun x => k))
  (at level 61, m at next level, right associativity) : async_scope.
Notation "m ;;; k" := (bind m (fun _ => k))
  (at level 61, right associativity) : async_scope.
Open Scope async_scope.

(** [for (const x of xs) await body(x)] *)
Fixpoint forEach {A} (xs : list A) (body : A -> Async unit) : Async unit :=
  match xs with
  | [] => ret tt
  | x :: xs' => body x ;;; forEach xs' body
  end.

(** Writes, each of them logged. *)
Definition vocab_update (id : string) (c : VocabChanges) : Async unit :=
  modify (fun w => logWrite T_vocabulary W_update id
                     (with_vocabulary (tbl_update vocabId id (applyChanges c)) w)).

Definition vocab_put (v : VocabEntity) : Async unit :=
  modify (fun w => logWrite T_vocabulary W_put (vocabId v)
                     (with_vocabulary (tbl_put vocabId v) w)).

Definition vocab_add (v : VocabEntity) : Async unit :=
  fun w => match tbl_get vocabId (vocabId v) (vocabulary w) with
           | Some _ => (Rejected ConstraintError, w)
           | None => (Resolved tt,
                      logWrite T_vocabulary W_add (vocabId v)
                        (with_vocabulary (tbl_put vocabId v) w))
           end.

Definition vocab_delete (id : string) : Async unit :=
  modify (fun w => logWrite T_vocabulary W_delete id
                     (with_vocabulary (tbl_delete vocabId id) w)).

Definition enc_add (e : EncounterEntity) : Async unit :=
  fun w => match tbl_get enc_encounterId (enc_encounterId e) (encounters w) with
           | Some _ => (Rejected ConstraintError, w)
           | None => (Resolved tt,
                      logWrite T_encounters W_add (enc_encounterId e)
                        (with_encounters (tbl_put enc_encounterId e) w))
           end.

Definition touchEncounter (now : Z) (e : EncounterEntity) : EncounterEntity :=
  {| enc_encounterId := enc_encounterId e; enc_vocabId := enc_vocabId e;
     enc_surface := enc_surface e; enc_normalizedSurface := enc_normalizedSurface e;
     enc_pageUrl := enc_pageUrl e; enc_pageHost := enc_pageHost e;
     enc_pageTitle := enc_pageTitle e; enc_contextSentence := enc_contextSentence e;
     enc_source := enc_source e; enc_createdAt := enc_createdAt e;
     enc_updatedAt := now |}.

Definition enc_update (id : string) (f : EncounterEntity -> EncounterEntity) : Async unit :=
  modify (fun w => logWrite T_encounters W_update id
                     (with_encounters (tbl_update enc_encounterId id f) w)).

Definition enc_delete (id : string) : Async unit :=
  modify (fun w => logWrite T_encounters W_delete id
                     (with_encounters (tbl_delete enc_encounterId id) w)).

Definition settings_put (kv : SettingsKV) : Async unit :=
  modify (fun w => logWrite T_settings W_put (kv_key kv)
                     (with_settings (tbl_put kv_key kv) w)).

(** [(await db.settings.get(k))?.value] *)
Definition settingValue (k : string) (w : World) : option SettingValue :=
  option_map kv_value (tbl_get kv_key k (settings w)).

(* ================================================================= *)
(** ** The host: JavaScript built-ins and external collaborators

    String functions that depend on Unicode tables, the URL parser, the
    random sources, [Math.pow], [JSON.stringify] and the loaded dictionary
    file are supplied by the host.  Every property below holds for any
    host. *)

Class Host := {
  toLowerCase : string -> string;
  trim : string -> string;
  (** [s.replace(/^[^\p{L}\p{N}]+|[^\p{L}\p{N}]+$/gu, '')] *)
  stripEdges : string -> string;
  (** [text.toLowerCase().split(/[\s,.;:!?()...]+/).map(trim).filter(Boolean)] *)
  tokenize : string -> list string;
  (** [new URL(u).host], [None] when the constructor throws *)
  urlHost : string -> option string;
  (** [new URL(u).hostname] *)
  urlHostname : string -> option string;
  (** the n-th value returned by [crypto.randomUUID()] *)
  randomUUID : nat -> string;
  (** the n-th value returned by [Math.random()] *)
  mathRandom : nat -> Q;
  (** [Math.pow] *)
  pow : Q -> Q -> Q;
  (** [JSON.stringify({ sourceWordbankId, add, remove })] *)
  stringifyNoiseConfig : string -> list string -> list string -> string;
  (** [Number(s)] on a string, [None] for [NaN] *)
  parseNumber : string -> option Z;
  (** [String(n)] on a number *)
  numberToString : Z -> string;
  (** the parsed dictionary file, keyed by lemma *)
  dictionary : string -> option DictEntry
}.

Section Engine.
Context {H : Host}.

Definition normalizeLemma (input : string) : string :=
  stripEdges (trim (toLowerCase input)).

(** [crypto.randomUUID()] *)
Definition freshUUID : Async string :=
  fun w => (Resolved (randomUUID (uuidCount w)), bump_uuid w).


(* ================================================================= *)
(** ** background/router/handlers/vocab.ts *)

Definition orStr (a : option string) (b : string) : string :=
  if truthyStr a then nullish a b else b.

Record UpsertVocabPayload := {
  up_vocabId : option string;
  up_lemma : string;
  up_surface : option string;
  up_language : option string;
  up_meaning : option string;
  up_proficiency : option Z;
  up_sourceTraceId : option string
}.

Definition handleUpsertVocab (now : Z) (data : UpsertVocabPayload) : Async VocabEntity :=
  if (trim (up_lemma data) =? "")%string
  then throw (VALIDATION_ERROR "lemma is required")
  else
    let lemma' := normalizeLemma (up_lemma data) in
    let language' := orStr (up_language data) "en" in
    byId <- reads (fun w =>
              if truthyStr (up_vocabId data)
              then tbl_get vocabId (nullish (up_vocabId data) "") (vocabulary w)
              else None) ;;
    match byId with
    | Some existing =>
        (* { ...existing, ...data, lemma, updatedAt: now } *)
        let updated :=
          {| vocabId := vocabId existing;
             lemma := lemma';
             surface := nullish (up_surface data) (surface existing);
             language := nullish (up_language data) (language existing);
             meaning := nullish (up_meaning data) (meaning existing);
             sourceTraceId := overwrite (up_sourceTraceId data) (sourceTraceId existing);
             proficiency := nullish (up_proficiency data) (proficiency existing);
             createdAt := createdAt existing;
             updatedAt := now;
             deletedAt := deletedAt existing;
             sourceType := sourceType existing;
             sourceWordbankId := sourceWordbankId existing;
             firstSeenAt := firstSeenAt existing;
             lastSeenAt := lastSeenAt existing;
             familiarityScore := familiarityScore existing;
             nextReviewDate := nextReviewDate existing;
             isKnown := isKnown existing;
             scoreLocked := scoreLocked existing;
             isTraced := isTraced existing;
             noiseManaged := noiseManaged existing |} in
        vocab_put updated ;;; ret updated
    | None =>
        found <- reads (fun w => findByLemma lemma' language' (vocabulary w)) ;;
        match found with
        | Some found =>
            let updated :=
              {| vocabId := vocabId found;
                 lemma := lemma found;
                 surface := orStr (up_surface data) (surface found);
                 language := language found;
                 meaning := nullish (up_meaning data) (meaning found);
                 sourceTraceId := sourceTraceId found;
                 proficiency := nullish (up_proficiency data) (proficiency found);
                 createdAt := createdAt found;
                 updatedAt := now;
                 deletedAt := deletedAt found;
                 sourceType := sourceType found;
                 sourceWordbankId := sourceWordbankId found;
                 firstSeenAt := firstSeenAt found;
                 lastSeenAt := lastSeenAt found;
                 familiarityScore := familiarityScore found;
                 nextReviewDate := nextReviewDate found;
                 isKnown := isKnown found;
                 scoreLocked := scoreLocked found;
                 isTraced := isTraced found;
                 noiseManaged := noiseManaged found |} in
            vocab_put updated ;;; ret updated
        | None =>
            id <- freshUUID ;;
            let vocab :=
              {| vocabId := id;
                 lemma := lemma';
                 surface := orStr (up_surface data) (up_lemma data);
                 language := language';
                 meaning := orStr (up_meaning data) "";
                 sourceTraceId := up_sourceTraceId data;
                 proficiency := nullish (up_proficiency data) 0%Z;
                 createdAt := Some now;
                 updatedAt := now;
                 deletedAt := None;
                 sourceType := None;
                 sourceWordbankId := None;
                 firstSeenAt := None;
                 lastSeenAt := None;
                 familiarityScore := None;
                 nextReviewDate := None;
                 isKnown := None;
                 scoreLocked := None;
                 isTraced := None;
                 noiseManaged := None |} in
            vocab_add vocab ;;; ret vocab
        end
    end.

Definition cleanupOrphanedVocab (id : string) : Async bool :=
  remainingCount <- reads (fun w => List.length (encountersOf id (encounters w))) ;;
  if Nat.eqb remainingCount 0
  then vocab_delete id ;;; ret true
  else ret false.

Definition recalcVocabScore (now : Z) (id : string) : Async unit :=
  vocab <- reads (fun w => tbl_get vocabId id (vocabulary w)) ;;
  match vocab with
  | None => ret tt
  | Some vocab =>
      if truthyNum (deletedAt vocab) || truthy (scoreLocked vocab)
      then ret tt
      else
        allEnc <- reads (fun w => encountersOf id (encounters w)) ;;
        let score := calculateWeightedScore allEnc (traceMultiplier (isTraced vocab)) in
        vocab_update id
          {| ch_isTraced := None;
             ch_familiarityScore := Some score;
             ch_isKnown := Some (reachesThreshold score);
             ch_scoreLocked := None;
             ch_noiseManaged := None;
             ch_updatedAt := Some now |}
  end.

(** [{ source: e.source }] for every encounter of one entry. *)
Definition sourcesOf (id : string) (w : World) : list SourceOnly :=
  map (fun e => {| so_source := enc_source e |}) (encountersOf id (encounters w)).

(** Count of active traced words (not yet mastered). *)
Definition getActiveTraceCount (w : World) : nat :=
  let traced :=
    filter (fun v => match isTraced v with Some true => true | _ => false end
                     && negb (truthy (isKnown v)))
           (vocabulary w) in
  List.length
    (filter (fun v =>
               let score := calculateWeightedScore (sourcesOf (vocabId v) w) 2 in
               Qltb score KNOWN_THRESHOLD)
            traced).

Definition resetNoiseWordFields (now : Z) (id : string) : Async unit :=
  vocab_update id
    {| ch_isTraced := None;
       ch_familiarityScore := Some 0;
       ch_isKnown := Some false;
       ch_scoreLocked := Some false;
       ch_noiseManaged := Some false;
       ch_updatedAt := Some now |}.

Record RateWordPayload := {
  rw_vocabId : option string;
  rw_rating : string
}.

Record RateWordResult := {
  rr_vocabId : string;
  rr_newScore : Q;
  rr_isKnown : bool
}.

Definition handleRateWord (now : Z) (payload : RateWordPayload) : Async RateWordResult :=
  if negb (truthyStr (rw_vocabId payload))
  then throw (VALIDATION_ERROR "vocabId is required")
  else
    let id := nullish (rw_vocabId payload) "" in
    vocab <- reads (fun w => tbl_get vocabId id (vocabulary w)) ;;
    match vocab with
    | None => throw (NOT_FOUND "vocabulary not found")
    | Some vocab =>
        if truthy (scoreLocked vocab)
        then throw (VALIDATION_ERROR "cannot rate a score-locked word")
        else
          let source := "rate_" ++ rw_rating payload in
          eid <- freshUUID ;;
          enc_add
            {| enc_encounterId := eid;
               enc_vocabId := id;
               enc_surface := surface vocab;
               enc_normalizedSurface := lemma vocab;
               enc_pageUrl := "";
               enc_pageHost := "";
               enc_pageTitle := None;
               enc_contextSentence := None;
               enc_source := source;
               enc_createdAt := now;
               enc_updatedAt := now |} ;;;
          allEncounters <- reads (fun w => encountersOf id (encounters w)) ;;
          let newScore := calculateWeightedScore allEncounters (traceMultiplier (isTraced vocab)) in
          let known := reachesThreshold newScore in
          vocab_update id
            {| ch_isTraced := None;
               ch_familiarityScore := Some newScore;
               ch_isKnown := Some known;
               ch_scoreLocked := None;
               ch_noiseManaged := None;
               ch_updatedAt := Some now |} ;;;
          ret {| rr_vocabId := id; rr_newScore := newScore; rr_isKnown := known |}
    end.

Definition handleUnlockNoiseWord (now : Z) (id : option string) : Async string :=
  if negb (truthyStr id)
  then throw (VALIDATION_ERROR "vocabId is required")
  else
    let id := nullish id "" in
    vocab <- reads (fun w => tbl_get vocabId id (vocabulary w)) ;;
    match vocab with
    | None => throw (NOT_FOUND "vocabulary not found")
    | Some vocab =>
        if negb (truthy (scoreLocked vocab))
        then throw (VALIDATION_ERROR "word is not locked")
        else resetNoiseWordFields now id ;;; ret id
    end.

Record ToggleTraceWordPayload := {
  tt_vocabId : option string;
  tt_traced : bool
}.

Record ToggleTraceWordResult := {
  tr_vocabId : string;
  tr_isTraced : bool;
  tr_activeTraceCount : nat
}.

Definition handleToggleTraceWord (now : Z) (payload : ToggleTraceWordPayload)
  : Async ToggleTraceWordResult :=
  if negb (truthyStr (tt_vocabId payload))
  then throw (VALIDATION_ERROR "vocabId is required")
  else
    let id := nullish (tt_vocabId payload) "" in
    let traced := tt_traced payload in
    vocab <- reads (fun w => tbl_get vocabId id (vocabulary w)) ;;
    match vocab with
    | None => throw (NOT_FOUND "vocabulary not found")
    | Some vocab =>
        (* vocab.isTraced === traced *)
        if match isTraced vocab with Some b => Bool.eqb b traced | None => false end
        then
          n <- reads getActiveTraceCount ;;
          ret {| tr_vocabId := id; tr_isTraced := traced; tr_activeTraceCount := n |}
        else
          allEncounters <- reads (fun w => encountersOf id (encounters w)) ;;
          let newMultiplier := if traced then 2 else 1 in
          let newScore := calculateWeightedScore allEncounters newMultiplier in
          let known := reachesThreshold newScore in
          vocab_update id
            {| ch_isTraced := Some traced;
               ch_familiarityScore := Some newScore;
               ch_isKnown := Some known;
               ch_scoreLocked := None;
               ch_noiseManaged := None;
               ch_updatedAt := Some now |} ;;;
          n <- reads getActiveTraceCount ;;
          ret {| tr_vocabId := id; tr_isTraced := traced; tr_activeTraceCount := n |}
    end.

(* ================================================================= *)
(** ** background/router/handlers/encounters.ts *)

Record RecordEncounterPayload := {
  re_vocabId : option string;
  re_word : option string;
  re_language : option string;
  re_pageUrl : string;
  re_pageTitle : option string;
  re_contextSentence : option string;
  re_source : option string
}.

Definition DAY_MS : Z := 24 * 60 * 60 * 1000.

Definition optStrEqb (a : option string) (b : string) : bool :=
  match a with Some a => (a =? b)%string | None => false end.

(** The [if (!vocabId) { ... } else { ... }] block of [handleRecordEncounter]:
    the entry the encounter belongs to and the surface to store. *)
Definition resolveEncounterVocab (now : Z) (data : RecordEncounterPayload)
  : Async (string * string) :=
  let surface0 := orStr (re_word data) "" in
  if negb (truthyStr (re_vocabId data))
  then
    match re_word data with
    | None => throw (VALIDATION_ERROR "word or vocabId is required")
    | Some word =>
        if (trim word =? "")%string
        then throw (VALIDATION_ERROR "word or vocabId is required")
        else
          vocab <- handleUpsertVocab now
                     {| up_vocabId := None;
                        up_lemma := normalizeLemma word;
                        up_surface := Some word;
                        up_language := Some (orStr (re_language data) "en");
                        up_meaning := None;
                        up_proficiency := None;
                        up_sourceTraceId := None |} ;;
          ret (vocabId vocab, surface vocab)
    end
  else
    let id := nullish (re_vocabId data) "" in
    vocab <- reads (fun w => tbl_get vocabId id (vocabulary w)) ;;
    match vocab with
    | None => throw (NOT_FOUND "vocabulary not found")
    | Some vocab =>
        if truthyNum (deletedAt vocab)
        then throw (NOT_FOUND "vocabulary not found")
        else
          ret (id,
               if negb (surface0 =? "")%string then surface0
               else if negb (surface vocab =? "")%string then surface vocab
               else lemma vocab)
    end.

(** The 24-hour dedup query for scan/lookup/wordbank sources. *)
Definition recentEncounter (now : Z) (data : RecordEncounterPayload) (id : string)
    (w : World) : option EncounterEntity :=
  if optStrEqb (re_source data) "scan"
     || optStrEqb (re_source data) "lookup"
     || optStrEqb (re_source data) "wordbank"
  then
    let dayAgo := (now - DAY_MS)%Z in
    find (fun e => (enc_pageUrl e =? re_pageUrl data)%string
                   && optStrEqb (re_source data) (enc_source e)
                   && (dayAgo <? enc_createdAt e)%Z)
         (encountersOf id (encounters w))
  else None.

Definition lookupCountOf (id : string) (w : World) : nat :=
  List.length
    (filter (fun e => (enc_source e =? "lookup")%string)
            (encountersOf id (encounters w))).

(** Auto-unlock noise word after 2 lookup encounters. *)
Definition autoUnlockAfterLookup (now : Z) (id : string) (encounter : EncounterEntity)
  : Async unit :=
  if (enc_source encounter =? "lookup")%string
  then
    vocab <- reads (fun w => tbl_get vocabId id (vocabulary w)) ;;
    match vocab with
    | Some vocab =>
        if truthy (scoreLocked vocab)
        then
          lookupCount <- reads (lookupCountOf id) ;;
          if (2 <=? lookupCount)%nat
          then resetNoiseWordFields now id
          else ret tt
        else ret tt
    | None => ret tt
    end
  else ret tt.

Definition handleRecordEncounter (now : Z) (data : RecordEncounterPayload)
  : Async EncounterEntity :=
  if (trim (re_pageUrl data) =? "")%string
  then throw (VALIDATION_ERROR "pageUrl is required")
  else
    idAndSurface <- resolveEncounterVocab now data ;;
    let id := fst idAndSurface in
    let surface' := snd idAndSurface in
    match urlHost (re_pageUrl data) with
    | None => throw (VALIDATION_ERROR "invalid pageUrl")
    | Some pageHost =>
        recent <- reads (recentEncounter now data id) ;;
        match recent with
        | Some recent =>
            enc_update (enc_encounterId recent) (touchEncounter now) ;;;
            ret recent
        | None =>
            eid <- freshUUID ;;
            let encounter :=
              {| enc_encounterId := eid;
                 enc_vocabId := id;
                 enc_surface := surface';
                 enc_normalizedSurface := normalizeLemma surface';
                 enc_pageUrl := re_pageUrl data;
                 enc_pageHost := pageHost;
                 enc_pageTitle := re_pageTitle data;
                 enc_contextSentence := re_contextSentence data;
                 enc_source := orStr (re_source data) "scan";
                 enc_createdAt := now;
                 enc_updatedAt := now |} in
            enc_add encounter ;;;
            recalcVocabScore now id ;;;
            autoUnlockAfterLookup now id encounter ;;;
            ret encounter
        end
    end.

Record DeleteEncounterResult := {
  de_success : bool;
  de_vocabDeleted : option bool
}.

Definition handleDeleteEncounter (now : Z) (encounterId : option string)
  : Async DeleteEncounterResult :=
  if negb (truthyStr encounterId)
  then throw (VALIDATION_ERROR "encounterId is required")
  else
    let eid := nullish encounterId "" in
    encounter <- reads (fun w => tbl_get enc_encounterId eid (encounters w)) ;;
    match encounter with
    | None => ret {| de_success := true; de_vocabDeleted := None |}
    | Some encounter =>
        enc_delete eid ;;;
        vocabDeleted <- cleanupOrphanedVocab (enc_vocabId encounter) ;;
        (if negb vocabDeleted
         then
           (if (enc_source encounter =? "trace")%string
            then
              let lemma' :=
                normalizeLemma
                  (if negb (enc_normalizedSurface encounter =? "")%string
                   then enc_normalizedSurface encounter
                   else enc_surface encounter) in
              remainingTrace <- reads (fun w =>
                find (fun t => (normalizeLemma (tr_sourceText t) =? lemma')%string)
                     (traces w)) ;;
              match remainingTrace with
              | None =>
                  vocab_update (enc_vocabId encounter)
                    {| ch_isTraced := Some false;
                       ch_familiarityScore := None;
                       ch_isKnown := None;
                       ch_scoreLocked := None;
                       ch_noiseManaged := None;
                       ch_updatedAt := Some now |}
              | Some _ => ret tt
              end
            else ret tt) ;;;
           recalcVocabScore now (enc_vocabId encounter)
         else ret tt) ;;;
        ret {| de_success := true; de_vocabDeleted := Some vocabDeleted |}
    end.


(* ----------------------------------------------------------------- *)
(** *** Card drawing with SRS priority (vocab.ts, continued) *)

Record DrawCardPayload := {
  dc_count : option Z;
  dc_mode : option string;
  dc_excludeIds : option (list string);
  dc_seed : option Z
}.

(** [{ vocab, score, priority }] *)
Record Scored := {
  sc_vocab : VocabEntity;
  sc_score : Q;
  sc_priority : Q
}.

Record Card := {
  card_vocabId : string;
  card_lemma : string;
  card_surface : string;
  card_meaning : string;
  card_weightedScore : Q;
  card_isTraced : bool;
  card_priority : Q;
  card_contextSentence : option string;
  card_pageTitle : option string
}.

(** [scoreMap.get(v.vocabId)]: the score recomputed from the encounters of
    the entry (the Map groups the encounters by [vocabId]). *)
Definition realtimeScore (w : World) (v : VocabEntity) : Q :=
  calculateWeightedScore (sourcesOf (vocabId v) w) (traceMultiplier (isTraced v)).

Definition drawCandidates (w : World) : list VocabEntity :=
  filter (fun v => negb (truthyNum (deletedAt v))
                   && negb (truthy (scoreLocked v))
                   && negb (truthy (isKnown v)))
         (vocabulary w).

Definition drawEligible (w : World) (excludeIds : list string) : list VocabEntity :=
  filter (fun v => negb (existsb (String.eqb (vocabId v)) excludeIds)
                   && Qltb (realtimeScore w v) KNOWN_THRESHOLD)
         (drawCandidates w).

Definition srsDueOf (now : Z) (v : VocabEntity) : Q :=
  let nextReview := nullish (nextReviewDate v) 0%Z in
  if (0 <? nextReview)%Z && (nextReview <? now)%Z
  then Qmin 1 (inject_Z (now - nextReview) / inject_Z (7 * DAY_MS))
  else if (nextReview =? 0)%Z then 0.5 else 0.

Definition difficultyOf (score : Q) : Q := 1 - score / KNOWN_THRESHOLD.

Definition urgencyOf (v : VocabEntity) : Q :=
  if truthy (isTraced v) then 1 else 0.3.

Definition recencyOf (now : Z) (v : VocabEntity) : Q :=
  let lastSeen := nullish (lastSeenAt v) (nullish (createdAt v) now) in
  let daysSinceLastSeen := inject_Z (now - lastSeen) / inject_Z DAY_MS in
  Qmin 1 (daysSinceLastSeen / 14).

Definition priorityOf (now : Z) (score : Q) (v : VocabEntity) : Q :=
  srsDueOf now v * 0.45 + difficultyOf score * 0.25
  + urgencyOf v * 0.20 + recencyOf now v * 0.10.

Definition scoreEligible (now : Z) (w : World) (v : VocabEntity) : Scored :=
  let score := realtimeScore w v in
  {| sc_vocab := v; sc_score := score; sc_priority := priorityOf now score v |}.

Definition pickTopN (items : list Scored) (n : Z) : list Scored :=
  slice0 n (array_sort (fun a b => sc_priority b - sc_priority a) items).

(** Seeded generator (simple LCG): one call per item, in order. *)
Fixpoint lcgKeys (state : Z) (items : list Scored) : list (Scored * Q) :=
  match items with
  | [] => []
  | item :: rest =>
      let state' := Z.rem (state * 1664525 + 1013904223) 4294967296 in
      let u := inject_Z state' / inject_Z 4294967296 in
      (item, pow u (1 / Qmax 0.001 (sc_priority item))) :: lcgKeys state' rest
  end.

(** Unseeded: [Math.random], starting at its call number [i]. *)
Fixpoint randomKeys (i : nat) (items : list Scored) : list (Scored * Q) :=
  match items with
  | [] => []
  | item :: rest =>
      (item, pow (mathRandom i) (1 / Qmax 0.001 (sc_priority item)))
        :: randomKeys (S i) rest
  end.

(** Efraimidis-Spirakis: sort by key descending, take top n. *)
Definition weightedSampleWithoutReplacement
    (items : list Scored) (n : Z) (seed : option Z) (calls : nat) : list Scored :=
  let keyed := match seed with
               | Some s => lcgKeys s items
               | None => randomKeys calls items
               end in
  map fst (slice0 n (array_sort (fun a b => snd b - snd a) keyed)).

(** Latest [contextSentence]/[pageTitle] of an entry, with its timestamp. *)
Definition contextOf (id : string) (w : World) : option (option string * option string * Z) :=
  fold_left
    (fun existing e =>
       let newer := match existing with
                    | None => true
                    | Some (_, _, ts) => (ts <? enc_createdAt e)%Z
                    end in
       if newer && (truthyStr (enc_contextSentence e) || truthyStr (enc_pageTitle e))
       then Some (enc_contextSentence e, enc_pageTitle e, enc_createdAt e)
       else existing)
    (encountersOf id (encounters w)) None.

(** [Math.round(x * 100) / 100] *)
Definition round2 (x : Q) : Q := inject_Z (Qfloor (x * 100 + (1 # 2))) / 100.

Definition toCard (w : World) (s : Scored) : Card :=
  let ctx := contextOf (vocabId (sc_vocab s)) w in
  {| card_vocabId := vocabId (sc_vocab s);
     card_lemma := lemma (sc_vocab s);
     card_surface := surface (sc_vocab s);
     card_meaning := meaning (sc_vocab s);
     card_weightedScore := sc_score s;
     card_isTraced := nullish (isTraced (sc_vocab s)) false;
     card_priority := round2 (sc_priority s);
     card_contextSentence :=
       match ctx with Some (cs, _, _) => cs | None => None end;
     card_pageTitle :=
       match ctx with Some (_, pt, _) => pt | None => None end |}.

(** The handler only reads the store.  [calls] is the number of
    [Math.random()] calls made before it runs. *)
Definition handleDrawCard (now : Z) (calls : nat) (payload : DrawCardPayload)
    (w : World) : list Card :=
  let count := nullish (dc_count payload) 10%Z in
  let mode := nullish (dc_mode payload) "shuffle" in
  let excludeIds := nullish (dc_excludeIds payload) [] in
  let candidates := drawCandidates w in
  if Nat.eqb (List.length candidates) 0 then []
  else
    let eligible := drawEligible w excludeIds in
    if Nat.eqb (List.length eligible) 0 then []
    else
      let scored := map (scoreEligible now w) eligible in
      let selected :=
        if (mode =? "auto")%string
        then pickTopN scored count
        else weightedSampleWithoutReplacement scored count (dc_seed payload) calls in
      map (toCard w) selected.

(* ================================================================= *)
(** ** background/storage/wordbank-loader.ts: noise-word reconciliation *)

(** A [Set<string>] in insertion order. *)
Definition set_has (x : string) (s : list string) : bool :=
  existsb (String.eqb x) s.
Definition set_add (x : string) (s : list string) : list string :=
  if set_has x s then s else s ++ [x].
Definition set_delete (x : string) (s : list string) : list string :=
  filter (fun y => negb (y =? x)%string) s.
Definition set_of_list (l : list string) : list string :=
  fold_left (fun s x => set_add x s) l [].

Definition toLemmaSet (value : option SettingValue) : list string :=
  match value with
  | Some (SArr l) =>
      set_of_list (filter (fun s => negb (s =? "")%string) (map normalizeLemma l))
  | _ => []
  end.

Definition lockChanges (now : Z) : VocabChanges :=
  {| ch_isTraced := None;
     ch_familiarityScore := Some 100;
     ch_isKnown := Some true;
     ch_scoreLocked := Some true;
     ch_noiseManaged := Some true;
     ch_updatedAt := Some now |}.

Definition noiseSourceOf (w : World) : string :=
  match settingValue "noiseWordbankId" w with
  | Some (SStr s) => s
  | _ => ""
  end.

Definition noiseConfigKey (w : World) : string :=
  stringifyNoiseConfig (noiseSourceOf w)
    (sort_strings (toLemmaSet (settingValue "noiseManualAdd" w)))
    (sort_strings (toLemmaSet (settingValue "noiseManualRemove" w))).

Definition noiseTarget (w : World) : list string :=
  let sourceWordbankId := noiseSourceOf w in
  let fromBank :=
    if (sourceWordbankId =? "")%string then []
    else
      fold_left (fun t wd => set_add (normalizeLemma (ww_lemma wd)) t)
        (filter (fun wd => (ww_wordbankId wd =? sourceWordbankId)%string)
                (wordbankWords w))
        [] in
  let added :=
    fold_left (fun t l => set_add l t)
      (toLemmaSet (settingValue "noiseManualAdd" w)) fromBank in
  fold_left (fun t l => set_delete l t)
    (toLemmaSet (settingValue "noiseManualRemove" w)) added.

Definition syncNoiseWordsFromSettings (now : Z) (force : bool) : Async unit :=
  cfgKey <- reads noiseConfigKey ;;
  prevCfg <- reads (settingValue "noiseConfigHash") ;;
  if negb force && match prevCfg with
                   | Some (SStr prev) => (prev =? cfgKey)%string
                   | _ => false
                   end
  then ret tt
  else
    target <- reads noiseTarget ;;
    managedLocked <- reads (fun w =>
      filter (fun v => match scoreLocked v, noiseManaged v with
                       | Some true, Some true => true
                       | _, _ => false
                       end)
             (vocabulary w)) ;;
    forEach managedLocked (fun v =>
      if negb (set_has (lemma v) target) || truthy (isTraced v)
      then
        vocab_update (vocabId v)
          {| ch_isTraced := None;
             ch_familiarityScore :=
               Some (if truthy (isTraced v) then nullish (familiarityScore v) 0 else 0);
             ch_isKnown := Some false;
             ch_scoreLocked := Some false;
             ch_noiseManaged := Some false;
             ch_updatedAt := Some now |}
      else ret tt) ;;;
    forEach target (fun lemma' =>
      existing <- reads (fun w => findByLemma lemma' "en" (vocabulary w)) ;;
      match existing with
      | Some existing =>
          if truthy (isTraced existing) then ret tt
          else vocab_update (vocabId existing) (lockChanges now)
      | None =>
          id <- freshUUID ;;
          vocab_add
            {| vocabId := id;
               lemma := lemma';
               surface := lemma';
               language := "en";
               meaning := "";
               sourceTraceId := None;
               proficiency := 0%Z;
               createdAt := Some now;
               updatedAt := now;
               deletedAt := None;
               sourceType := None;
               sourceWordbankId := None;
               firstSeenAt := None;
               lastSeenAt := None;
               familiarityScore := Some 100;
               nextReviewDate := None;
               isKnown := Some true;
               scoreLocked := Some true;
               isTraced := None;
               noiseManaged := Some true |}
      end) ;;;
    settings_put {| kv_key := "noiseConfigHash"; kv_value := SStr cfgKey; kv_updatedAt := now |}.


(* ================================================================= *)
(** ** background/router/handlers/wordbanks.ts: enabled wordbank words *)

(** A [Map<string, V>] in insertion order. *)
Definition map_has {V} (k : string) (m : list (string * V)) : bool :=
  match record_get k m with Some _ => true | None => false end.

Fixpoint map_set {V} (k : string) (v : V) (m : list (string * V)) : list (string * V) :=
  match m with
  | [] => [(k, v)]
  | (k', v') :: m' =>
      if (k =? k')%string then (k, v) :: m' else (k', v') :: map_set k v m'
  end.

Definition map_of_list {V} (l : list (string * V)) : list (string * V) :=
  fold_left (fun m kv => map_set (fst kv) (snd kv) m) l [].

Definition WORDBANK_SELECTION_PRIORITY : list (string * Z) :=
  [ ("daily", 10); ("programming", 20); ("cet4", 30); ("cet6", 40);
    ("gaokao", 50); ("postgrad", 60); ("primary", 70); ("top10k", 80);
    ("custom", 90); ("noise", 100) ]%Z.

Definition shouldPreferWordbank (candidateId currentId : string)
    (codeById : list (string * string)) : bool :=
  let candidateCode := orStr (record_get candidateId codeById) "custom" in
  let currentCode := orStr (record_get currentId codeById) "custom" in
  let candidatePriority := nullish (record_get candidateCode WORDBANK_SELECTION_PRIORITY) 999%Z in
  let currentPriority := nullish (record_get currentCode WORDBANK_SELECTION_PRIORITY) 999%Z in
  if negb (candidatePriority =? currentPriority)%Z
  then (candidatePriority <? currentPriority)%Z
  else str_ltb candidateId currentId.

Record WbWord := {
  wbw_wordbankId : string;
  wbw_lemma : string;
  wbw_surface : string;
  wbw_sourceWordbankIds : list string
}.

Definition getEnabledWordbankWords (w : World) : list (string * WbWord) :=
  let enabledIds := map uw_wordbankId (filter uw_enabled (userWordbanks w)) in
  if Nat.eqb (List.length enabledIds) 0 then []
  else
    let enabledWordbanks :=
      filter (fun wb => set_has (wb_wordbankId wb) enabledIds) (wordbanks w) in
    let codeById := map_of_list (map (fun wb => (wb_wordbankId wb, wb_code wb)) enabledWordbanks) in
    (* the [wordbankId] index yields the rows by wordbank, then by key *)
    let words :=
      stable_sort (fun x y => str_ltb (ww_wordbankId y) (ww_wordbankId x))
        (filter (fun wd => set_has (ww_wordbankId wd) enabledIds) (wordbankWords w)) in
    fold_left
      (fun m wd =>
         match record_get (ww_normalized wd) m with
         | None =>
             map_set (ww_normalized wd)
               {| wbw_wordbankId := ww_wordbankId wd;
                  wbw_lemma := ww_lemma wd;
                  wbw_surface := ww_surface wd;
                  wbw_sourceWordbankIds := [ww_wordbankId wd] |} m
         | Some existing =>
             let ids :=
               if set_has (ww_wordbankId wd) (wbw_sourceWordbankIds existing)
               then wbw_sourceWordbankIds existing
               else (wbw_sourceWordbankIds existing ++ [ww_wordbankId wd])%list in
             map_set (ww_normalized wd)
               (if shouldPreferWordbank (ww_wordbankId wd) (wbw_wordbankId existing) codeById
                then {| wbw_wordbankId := ww_wordbankId wd;
                        wbw_lemma := ww_lemma wd;
                        wbw_surface := ww_surface wd;
                        wbw_sourceWordbankIds := ids |}
                else {| wbw_wordbankId := wbw_wordbankId existing;
                        wbw_lemma := wbw_lemma existing;
                        wbw_surface := wbw_surface existing;
                        wbw_sourceWordbankIds := ids |}) m
         end)
      words [].


(* ================================================================= *)
(** ** The page scan handler ([handleScanPageWords])

    The handler's effect on the store is modelled in full; the [matches]
    and [stats] it returns are display data and are not.  The
    [handleRecordEncounter] calls that the source starts together and awaits
    with [Promise.all] work on distinct entries and are run one after the
    other. *)

Definition isLowerAZ (c : ascii) : bool :=
  (97 <=? nat_of_ascii c)%nat && (nat_of_ascii c <=? 122)%nat.

Fixpoint allLowerAZ (s : string) : bool :=
  match s with
  | EmptyString => true
  | String c s' => isLowerAZ c && allLowerAZ s'
  end.

(** [/^[a-z]{2,}$/] *)
Definition VALID_WORD_RE (s : string) : bool :=
  (2 <=? String.length s)%nat && allLowerAZ s.

(** [dictionaryService.lookup] *)
Definition dictLookup (lemma' : string) : option DictEntry :=
  dictionary (normalizeLemma lemma').

(** [Number(prefs.get(k) ?? d)], [None] for [NaN]. *)
Definition numberSetting (k : string) (d : Z) (w : World) : option Z :=
  match settingValue k w with
  | None | Some SNull => Some d
  | Some (SNum n) => Some n
  | Some (SBool b) => Some (if b then 1 else 0)%Z
  | Some (SStr s) => parseNumber s
  | Some (SArr l) => parseNumber (String.concat "," l)
  end.

(** [String(prefs.get(k) ?? d)] *)
Definition stringSetting (k : string) (d : string) (w : World) : string :=
  match settingValue k w with
  | None | Some SNull => d
  | Some (SStr s) => s
  | Some (SNum n) => numberToString n
  | Some (SBool b) => if b then "true" else "false"
  | Some (SArr l) => String.concat "," l
  end.

(** [x >= t] where [t] may be [NaN] *)
Definition geNum (x : Z) (t : option Z) : bool :=
  match t with Some t => (t <=? x)%Z | None => false end.

Record ScanPageWordsPayload := {
  sp_pageUrl : string;
  sp_pageTitle : option string;
  sp_language : option string;
  sp_tokens : option (list string);
  sp_textContent : option string;
  sp_sentences : option (list string);
  sp_record : option bool
}.

Definition scanTokens (data : ScanPageWordsPayload) : list string :=
  match sp_sentences data with
  | Some (s :: ss) => flat_map tokenize (s :: ss)
  | _ =>
      match sp_tokens data with
      | Some (t :: ts) => t :: ts
      | _ => if truthyStr (sp_textContent data)
             then tokenize (nullish (sp_textContent data) "")
             else []
      end
  end.

(** Normalized token frequency map. *)
Definition buildTokenMap (tokens : list string) : list (string * Z) :=
  fold_left
    (fun m t =>
       let n := normalizeLemma t in
       if (n =? "")%string then m
       else map_set n (nullish (record_get n m) 0 + 1)%Z m)
    tokens [].

(** Layer 0, the dictionary gate: wordbank words always pass, other valid
    words need a dictionary entry at or above the rank threshold. *)
Definition qualifyTokens (wordbankSet : list string) (environmentRankThreshold : option Z)
    (tokenMap : list (string * Z)) : list (string * Z) :=
  fold_left
    (fun q nc =>
       let normalized := fst nc in
       if negb (VALID_WORD_RE normalized) then q
       else if set_has normalized wordbankSet then map_set normalized (snd nc) q
       else
         match dictLookup normalized with
         | Some entry =>
             if match de_rank entry with
                | None => true
                | Some r => geNum r environmentRankThreshold
                end
             then map_set normalized (snd nc) q
             else q
         | None => q
         end)
    tokenMap [].

Fixpoint foldM {A S} (xs : list A) (s : S) (body : S -> A -> Async S) : Async S :=
  match xs with
  | [] => ret s
  | x :: xs' => s' <- body s x ;; foldM xs' s' body
  end.

Definition ls_add (st : LemmaStatEntity) : Async unit :=
  fun w =>
    if existsb (fun r => (ls_lemmaStatId r =? ls_lemmaStatId st)%string
                         || (ls_normalizedLemma r =? ls_normalizedLemma st)%string)
               (lemmaStats w)
    then (Rejected ConstraintError, w)
    else (Resolved tt,
          logWrite T_lemmaStats W_add (ls_lemmaStatId st)
            (with_lemmaStats (tbl_put ls_lemmaStatId st) w)).

Definition ls_put (st : LemmaStatEntity) : Async unit :=
  modify (fun w => logWrite T_lemmaStats W_put (ls_lemmaStatId st)
                     (with_lemmaStats (tbl_put ls_lemmaStatId st) w)).

(** [{ promotedVocabId, promotedAt, promotionReason }] written onto a stat. *)
Definition markPromoted (vid : string) (now : Z) (reason : string)
    (st : LemmaStatEntity) : LemmaStatEntity :=
  {| ls_lemmaStatId := ls_lemmaStatId st;
     ls_lemma := ls_lemma st;
     ls_normalizedLemma := ls_normalizedLemma st;
     ls_language := ls_language st;
     ls_totalCount := ls_totalCount st;
     ls_pageCount := ls_pageCount st;
     ls_firstSeenAt := ls_firstSeenAt st;
     ls_lastSeenAt := ls_lastSeenAt st;
     ls_lastPageUrl := ls_lastPageUrl st;
     ls_lastPageHost := ls_lastPageHost st;
     ls_inWordbank := ls_inWordbank st;
     ls_sourceMask := ls_sourceMask st;
     ls_dictRank := ls_dictRank st;
     ls_promotedVocabId := Some vid;
     ls_promotedAt := Some now;
     ls_promotionReason := Some reason;
     ls_cooldownUntil := ls_cooldownUntil st;
     ls_updatedAt := ls_updatedAt st |}.

Definition ls_markPromoted (id vid : string) (now : Z) (reason : string) : Async unit :=
  modify (fun w => logWrite T_lemmaStats W_update id
                     (with_lemmaStats
                        (tbl_update ls_lemmaStatId id (markPromoted vid now reason)) w)).

(** One page sighting added to an existing stat. *)
Definition bumpStat (now : Z) (data : ScanPageWordsPayload) (pageHost : string)
    (wordbankSet : list string) (normalized : string) (count : Z)
    (existing : LemmaStatEntity) : LemmaStatEntity :=
  let isNewPage := negb (optStrEqb (ls_lastPageUrl existing) (sp_pageUrl data)) in
  {| ls_lemmaStatId := ls_lemmaStatId existing;
     ls_lemma := ls_lemma existing;
     ls_normalizedLemma := ls_normalizedLemma existing;
     ls_language := ls_language existing;
     ls_totalCount := (ls_totalCount existing + count)%Z;
     ls_pageCount := if isNewPage then (ls_pageCount existing + 1)%Z
                     else ls_pageCount existing;
     ls_firstSeenAt := ls_firstSeenAt existing;
     ls_lastSeenAt := now;
     ls_lastPageUrl := Some (sp_pageUrl data);
     ls_lastPageHost := Some pageHost;
     ls_inWordbank := set_has normalized wordbankSet;
     ls_sourceMask := ls_sourceMask existing;
     ls_dictRank := match dictLookup normalized with
                    | Some d => de_rank d
                    | None => None
                    end;
     ls_promotedVocabId := ls_promotedVocabId existing;
     ls_promotedAt := ls_promotedAt existing;
     ls_promotionReason := ls_promotionReason existing;
     ls_cooldownUntil := ls_cooldownUntil existing;
     ls_updatedAt := now |}.

Definition newStat (now : Z) (data : ScanPageWordsPayload) (pageHost : string)
    (wordbankSet : list string) (normalized : string) (count : Z)
    (id : string) : LemmaStatEntity :=
  let dictEntry := dictLookup normalized in
  {| ls_lemmaStatId := id;
     ls_lemma := match dictEntry with Some d => de_lemma d | None => normalized end;
     ls_normalizedLemma := normalized;
     ls_language := nullish (sp_language data) "en";
     ls_totalCount := count;
     ls_pageCount := 1;
     ls_firstSeenAt := now;
     ls_lastSeenAt := now;
     ls_lastPageUrl := Some (sp_pageUrl data);
     ls_lastPageHost := Some pageHost;
     ls_inWordbank := set_has normalized wordbankSet;
     ls_sourceMask := 0;
     ls_dictRank := match dictEntry with Some d => de_rank d | None => None end;
     ls_promotedVocabId := None;
     ls_promotedAt := None;
     ls_promotionReason := None;
     ls_cooldownUntil := None;
     ls_updatedAt := now |}.

(** One turn of the upsert loop: the accumulator is
    [(statsByLemma, statsToAdd, statsToUpdate)]. *)
Definition aggregateStep (now : Z) (data : ScanPageWordsPayload) (pageHost : string)
    (wordbankSet : list string)
    (acc : list (string * LemmaStatEntity) * list LemmaStatEntity * list LemmaStatEntity)
    (nc : string * Z)
  : Async (list (string * LemmaStatEntity) * list LemmaStatEntity * list LemmaStatEntity) :=
  let '(byLemma, toAdd, toUpdate) := acc in
  let normalized := fst nc in
  match record_get normalized byLemma with
  | Some existing =>
      let st := bumpStat now data pageHost wordbankSet normalized (snd nc) existing in
      ret (map_set normalized st byLemma, toAdd, (toUpdate ++ [st])%list)
  | None =>
      id <- freshUUID ;;
      let st := newStat now data pageHost wordbankSet normalized (snd nc) id in
      ret (map_set normalized st byLemma, (toAdd ++ [st])%list, toUpdate)
  end.

(** Batch upsert of the lemmaStats of all qualified words.  The result is
    [statsByLemma]: the stats of this page, existing ones first. *)
Definition aggregateStats (now : Z) (data : ScanPageWordsPayload) (pageHost : string)
    (wordbankSet : list string) (qualifiedTokens : list (string * Z))
  : Async (list (string * LemmaStatEntity)) :=
  existingStats <- reads (fun w =>
    stable_sort (fun x y => str_ltb (ls_normalizedLemma y) (ls_normalizedLemma x))
      (filter (fun st => map_has (ls_normalizedLemma st) qualifiedTokens)
              (lemmaStats w))) ;;
  let statsByLemma0 :=
    map_of_list (map (fun st => (ls_normalizedLemma st, st)) existingStats) in
  acc <- foldM qualifiedTokens (statsByLemma0, [], [])
           (aggregateStep now data pageHost wordbankSet) ;;
  let '(byLemma, toAdd, toUpdate) := acc in
  forEach toAdd ls_add ;;;
  forEach toUpdate ls_put ;;;
  ret byLemma.


Definition isPromotionCandidate (now : Z) (promotionMinCount promotionMinPages : option Z)
    (st : LemmaStatEntity) : bool :=
  negb (truthyStr (ls_promotedVocabId st))
  && geNum (ls_totalCount st) promotionMinCount
  && geNum (ls_pageCount st) promotionMinPages
  && (negb (truthyNum (ls_cooldownUntil st))
      || (nullish (ls_cooldownUntil st) 0 <? now)%Z).

(** The noise settings as the scan reads them. *)
Record NoiseConfig := {
  nc_noiseWordbankId : string;
  nc_noiseManualAdd : list string;
  nc_noiseManualRemove : list string
}.

Definition scanNoiseConfig (w : World) : NoiseConfig :=
  {| nc_noiseWordbankId := stringSetting "noiseWordbankId" "wb_primary" w;
     nc_noiseManualAdd := toLemmaSet (settingValue "noiseManualAdd" w);
     nc_noiseManualRemove := toLemmaSet (settingValue "noiseManualRemove" w) |}.

(** [shouldLockAsNoise] of a promoted stat. *)
Definition shouldLockStat (cfg : NoiseConfig) (wordbankWords' : list (string * WbWord))
    (st : LemmaStatEntity) : bool :=
  let fromBank :=
    negb (nc_noiseWordbankId cfg =? "")%string && ls_inWordbank st
    && match record_get (ls_normalizedLemma st) wordbankWords' with
       | Some wbWord => set_has (nc_noiseWordbankId cfg) (wbw_sourceWordbankIds wbWord)
       | None => false
       end in
  let afterAdd :=
    if set_has (ls_normalizedLemma st) (nc_noiseManualAdd cfg) then true else fromBank in
  if set_has (ls_normalizedLemma st) (nc_noiseManualRemove cfg) then false else afterAdd.

(** [shouldLockAsNoise] of a wordbank word on the page. *)
Definition shouldLockWord (cfg : NoiseConfig) (normalized : string) (wbWord : WbWord) : bool :=
  let fromBank :=
    negb (nc_noiseWordbankId cfg =? "")%string
    && set_has (nc_noiseWordbankId cfg) (wbw_sourceWordbankIds wbWord) in
  let afterAdd :=
    if set_has normalized (nc_noiseManualAdd cfg) then true else fromBank in
  if set_has normalized (nc_noiseManualRemove cfg) then false else afterAdd.

Definition promotedVocab (now : Z) (cfg : NoiseConfig)
    (wordbankWords' : list (string * WbWord)) (st : LemmaStatEntity) (id : string)
  : VocabEntity :=
  let shouldLockAsNoise := shouldLockStat cfg wordbankWords' st in
  let wbWord := record_get (ls_normalizedLemma st) wordbankWords' in
  {| vocabId := id;
     lemma := ls_lemma st;
     surface := match wbWord with Some wb => wbw_surface wb | None => ls_lemma st end;
     language := ls_language st;
     meaning := "";
     sourceTraceId := None;
     proficiency := 0%Z;
     createdAt := Some now;
     updatedAt := now;
     deletedAt := None;
     sourceType := Some (if ls_inWordbank st then "wordbank" else "ai");
     sourceWordbankId := option_map wbw_wordbankId wbWord;
     firstSeenAt := Some (ls_firstSeenAt st);
     lastSeenAt := Some now;
     familiarityScore := Some (if shouldLockAsNoise then 100 else 0);
     nextReviewDate := None;
     isKnown := Some shouldLockAsNoise;
     scoreLocked := Some shouldLockAsNoise;
     isTraced := None;
     noiseManaged := Some shouldLockAsNoise |}.

(** One turn of the promotion loop: the accumulator is
    [(statsByLemma, pendingNewVocab)]. *)
Definition promoteStep (now : Z) (cfg : NoiseConfig)
    (wordbankWords' : list (string * WbWord))
    (acc : list (string * LemmaStatEntity) * list (string * VocabEntity))
    (st : LemmaStatEntity)
  : Async (list (string * LemmaStatEntity) * list (string * VocabEntity)) :=
  let '(byLemma, pendingNewVocab) := acc in
  existingVocab <- reads (fun w =>
    findByLemma (ls_lemma st) (ls_language st) (vocabulary w)) ;;
  match existingVocab with
  | Some existingVocab =>
      ls_markPromoted (ls_lemmaStatId st) (vocabId existingVocab) now "threshold" ;;;
      ret (map_set (ls_normalizedLemma st)
             (markPromoted (vocabId existingVocab) now "threshold" st) byLemma,
           pendingNewVocab)
  | None =>
      id <- freshUUID ;;
      let newVocab := promotedVocab now cfg wordbankWords' st id in
      ls_markPromoted (ls_lemmaStatId st) id now "threshold" ;;;
      ret (map_set (ls_normalizedLemma st)
             (markPromoted id now "threshold" st) byLemma,
           map_set id newVocab pendingNewVocab)
  end.

(** Promotion: eligible lemmaStats become vocabulary.  Returns
    [statsByLemma] with the promoted stats marked. *)
Definition promoteStats (now : Z) (promotionMinCount promotionMinPages : option Z)
    (cfg : NoiseConfig) (wordbankWords' : list (string * WbWord))
    (statsByLemma : list (string * LemmaStatEntity))
  : Async (list (string * LemmaStatEntity)) :=
  let promotionCandidates :=
    filter (isPromotionCandidate now promotionMinCount promotionMinPages)
           (map snd statsByLemma) in
  acc <- foldM promotionCandidates (statsByLemma, [])
           (promoteStep now cfg wordbankWords') ;;
  let '(byLemma, pendingNewVocab) := acc in
  (* Persist promoted vocab *)
  forEach (map snd pendingNewVocab) vocab_add ;;;
  ret byLemma.

Definition wordbankVocab (now : Z) (cfg : NoiseConfig) (normalized : string)
    (wbWord : WbWord) (id : string) : VocabEntity :=
  let shouldLockAsNoise := shouldLockWord cfg normalized wbWord in
  {| vocabId := id;
     lemma := wbw_lemma wbWord;
     surface := wbw_surface wbWord;
     language := "en";
     meaning := "";
     sourceTraceId := None;
     proficiency := 0%Z;
     createdAt := Some now;
     updatedAt := now;
     deletedAt := None;
     sourceType := Some "wordbank";
     sourceWordbankId := Some (wbw_wordbankId wbWord);
     firstSeenAt := Some now;
     lastSeenAt := Some now;
     familiarityScore := Some (if shouldLockAsNoise then 100 else 0);
     nextReviewDate := None;
     isKnown := Some shouldLockAsNoise;
     scoreLocked := Some shouldLockAsNoise;
     isTraced := None;
     noiseManaged := Some shouldLockAsNoise |}.

(** One turn of the wordbank loop: the accumulator is
    [(vocabByLemma, wordbankPending)]. *)
Definition wordbankStep (now : Z) (cfg : NoiseConfig)
    (qualifiedTokens : list (string * Z))
    (statsByLemma : list (string * LemmaStatEntity))
    (acc : list (string * VocabEntity) * list (string * VocabEntity))
    (nw : string * WbWord)
  : Async (list (string * VocabEntity) * list (string * VocabEntity)) :=
  let '(vocabByLemma, wordbankPending) := acc in
  let normalized := fst nw in
  let wbWord := snd nw in
  if map_has normalized qualifiedTokens && negb (map_has normalized vocabByLemma)
  then
    id <- freshUUID ;;
    let newVocab := wordbankVocab now cfg normalized wbWord id in
    (* Mark lemmaStats as wordbank-promoted *)
    (match record_get normalized statsByLemma with
     | Some st =>
         if negb (truthyStr (ls_promotedVocabId st))
         then ls_markPromoted (ls_lemmaStatId st) id now "wordbank"
         else ret tt
     | None => ret tt
     end) ;;;
    ret (map_set normalized newVocab vocabByLemma,
         map_set id newVocab wordbankPending)
  else ret acc.

(** Layer 1: wordbank words on the page that have no vocabulary entry yet
    get a pending one, and their stat is marked wordbank-promoted.  Returns
    [(vocabByLemma, wordbankPending)]. *)
Definition wordbankLayer (now : Z) (data : ScanPageWordsPayload) (cfg : NoiseConfig)
    (wordbankWords' : list (string * WbWord)) (qualifiedTokens : list (string * Z))
    (statsByLemma : list (string * LemmaStatEntity))
  : Async (list (string * VocabEntity) * list (string * VocabEntity)) :=
  allVocab <- reads (fun w =>
    filter (fun v => negb (truthyNum (deletedAt v))
                     && (negb (truthyStr (sp_language data))
                         || optStrEqb (sp_language data) (language v)))
           (vocabulary w)) ;;
  let vocabByLemma0 := map_of_list (map (fun v => (normalizeLemma (lemma v), v)) allVocab) in
  foldM wordbankWords' (vocabByLemma0, [])
    (wordbankStep now cfg qualifiedTokens statsByLemma).

(** Entries with [isTraced], not known, not deleted. *)
Definition isActiveTraced (v : VocabEntity) : bool :=
  match isTraced v with Some true => true | _ => false end
  && negb (truthy (isKnown v))
  && negb (truthyNum (deletedAt v)).

Definition activeTracedCount (w : World) : nat :=
  List.length (filter isActiveTraced (vocabulary w)).

Definition isAutoTraceCandidate (v : VocabEntity) : bool :=
  negb (truthy (isTraced v)) && negb (truthy (isKnown v))
  && negb (truthy (scoreLocked v)) && negb (truthyNum (deletedAt v))
  && VALID_WORD_RE (lemma v).

(** [{ count, lastSeen }] of the encounters of one entry. *)
Definition candStat (id : string) (w : World) : Z * Z :=
  fold_left
    (fun s e => ((fst s + 1)%Z,
                 if (snd s <? enc_createdAt e)%Z then enc_createdAt e else snd s))
    (encountersOf id (encounters w)) (0%Z, 0%Z).

Definition autoTraceScore (now : Z) (w : World) (v : VocabEntity) : Q :=
  let s := candStat (vocabId v) w in
  let recencyDays := inject_Z (now - snd s) / inject_Z DAY_MS in
  let recencyFactor := Qmax 0.1 (1 - recencyDays / 30) in
  inject_Z (fst s) * recencyFactor.

(** The candidates that replenishment selects, best first. *)
Definition autoTraceSelection (now : Z) (wordbankSet : list string) (slots : Z)
    (autoTraceMinEncounters : option Z) (w : World) : list (VocabEntity * Q) :=
  let candidates := filter isAutoTraceCandidate (vocabulary w) in
  let kept :=
    filter (fun v =>
              let s := candStat (vocabId v) w in
              if (fst s =? 0)%Z
                 || match autoTraceMinEncounters with
                    | Some m => (fst s <? m)%Z
                    | None => false
                    end
              then false
              else if set_has (lemma v) wordbankSet then true
              else match dictLookup (lemma v) with Some _ => true | None => false end)
           candidates in
  slice0 slots
    (array_sort (fun a b => snd b - snd a)
       (map (fun v => (v, autoTraceScore now w v)) kept)).

(** Auto-trace pool: replenish traced words. *)
Definition autoTraceReplenish (now : Z) (wordbankSet : list string) : Async unit :=
  autoTraceEnabled <- reads (fun w =>
    match settingValue "autoTraceEnabled" w with
    | Some (SBool false) => false
    | _ => true
    end) ;;
  autoTracePoolSize <- reads (numberSetting "autoTracePoolSize" 30) ;;
  autoTraceMinEncounters <- reads (numberSetting "autoTraceMinEncounters" 3) ;;
  if autoTraceEnabled
  then
    currentTraced <- reads activeTracedCount ;;
    match autoTracePoolSize with
    | None => ret tt            (* NaN > 0 is false *)
    | Some poolSize =>
        let slots := (poolSize - Z.of_nat currentTraced)%Z in
        if (0 <? slots)%Z
        then
          scored <- reads (autoTraceSelection now wordbankSet slots autoTraceMinEncounters) ;;
          forEach scored (fun sv =>
            vocab_update (vocabId (fst sv))
              {| ch_isTraced := Some true;
                 ch_familiarityScore := None;
                 ch_isKnown := None;
                 ch_scoreLocked := None;
                 ch_noiseManaged := None;
                 ch_updatedAt := Some now |})
        else ret tt
    end
  else ret tt.

(** [p.catch(console.error)] *)
Definition catchLog {A} (m : Async A) : Async unit :=
  fun w => (Resolved tt, snd (m w)).

(** First sentence with a token that maps to the entry [id]. *)
Definition sentenceFor (data : ScanPageWordsPayload)
    (vocabByLemma : list (string * VocabEntity)) (id : string) : option string :=
  find (fun sentence =>
          existsb (fun t =>
                     match record_get (normalizeLemma t) vocabByLemma with
                     | Some v => (vocabId v =? id)%string
                     | None => false
                     end)
                  (tokenize sentence))
       (nullish (sp_sentences data) []).

(** Record one scan encounter per matched entry, then replenish. *)
Definition recordMatches (now : Z) (data : ScanPageWordsPayload)
    (wordbankSet : list string) (vocabByLemma wordbankPending : list (string * VocabEntity))
    (recordableMatches : list VocabEntity) : Async unit :=
  (* Persist pending wordbank vocab *)
  forEach
    (flat_map (fun m => match record_get (vocabId m) wordbankPending with
                        | Some v => [v]
                        | None => []
                        end)
              recordableMatches)
    vocab_add ;;;
  foldM recordableMatches []
    (fun recordedVocabIds m =>
       if set_has (vocabId m) recordedVocabIds then ret recordedVocabIds
       else
         catchLog
           (handleRecordEncounter now
              {| re_vocabId := Some (vocabId m);
                 re_word := Some (surface m);
                 re_language := None;
                 re_pageUrl := sp_pageUrl data;
                 re_pageTitle := sp_pageTitle data;
                 re_contextSentence := sentenceFor data vocabByLemma (vocabId m);
                 re_source := Some "scan" |}) ;;;
         ret (set_add (vocabId m) recordedVocabIds)) ;;;
  autoTraceReplenish now wordbankSet.

(** The qualified tokens of a page, as the scan computes them. *)
Definition scanQualified (data : ScanPageWordsPayload) (w : World) : list (string * Z) :=
  qualifyTokens (map fst (getEnabledWordbankWords w))
    (numberSetting "environmentRankThreshold" 2000 w)
    (buildTokenMap (scanTokens data)).

Definition handleScanPageWords (now : Z) (data : ScanPageWordsPayload) : Async unit :=
  if (sp_pageUrl data =? "")%string
  then throw (VALIDATION_ERROR "pageUrl is required")
  else
    let tokens := scanTokens data in
    if Nat.eqb (List.length tokens) 0 then ret tt
    else
      match urlHostname (sp_pageUrl data) with
      | None => throw TypeError
      | Some pageHost =>
          promotionMinCount <- reads (numberSetting "promotionMinCount" 6) ;;
          promotionMinPages <- reads (numberSetting "promotionMinPages" 3) ;;
          cfg <- reads scanNoiseConfig ;;
          wordbankWords' <- reads getEnabledWordbankWords ;;
          let wordbankSet := map fst wordbankWords' in
          qualifiedTokens <- reads (scanQualified data) ;;
          statsByLemma <- aggregateStats now data pageHost wordbankSet qualifiedTokens ;;
          statsByLemma <- promoteStats now promotionMinCount promotionMinPages cfg
                            wordbankWords' statsByLemma ;;
          layer <- wordbankLayer now data cfg wordbankWords' qualifiedTokens statsByLemma ;;
          let '(vocabByLemma, wordbankPending) := layer in
          (* Match vocab against page tokens *)
          let matched :=
            filter (fun v => map_has (normalizeLemma (lemma v)) qualifiedTokens)
                   (map snd vocabByLemma) in
          if Nat.eqb (List.length matched) 0 then ret tt
          else
            let recordableMatches :=
              filter (fun m => map_has (normalizeLemma (lemma m)) vocabByLemma) matched in
            if truthy (sp_record data) && negb (Nat.eqb (List.length recordableMatches) 0)
            then recordMatches now data wordbankSet vocabByLemma wordbankPending recordableMatches
            else ret tt
      end.

End Engine.

(* ================================================================= *)
(** * Specification vocabulary *)

(** The stat of a normalized lemma, through the unique [normalizedLemma]
    index. *)
Definition statOf (n : string) (t : list LemmaStatEntity) : option LemmaStatEntity :=
  find (fun s => (ls_normalizedLemma s =? n)%string) t.



(** A small host on which the model runs on concrete stores: text
    functions are the identity, UUIDs are numbered. *)
Definition exampleHost : Host :=
  {| toLowerCase := fun s => s;
     trim := fun s => s;
     stripEdges := fun s => s;
     tokenize := fun s => [s];
     urlHost := fun u => Some u;
     urlHostname := fun u => Some u;
     randomUUID := fun n => "uuid-" ++ string_of_list_ascii (repeat "x"%char n);
     mathRandom := fun n => 1 # 2;
     pow := fun u e => u * e;
     stringifyNoiseConfig :=
       fun src add remove =>
         src ++ "|" ++ String.concat "," add ++ "|" ++ String.concat "," remove;
     parseNumber := fun _ => None;
     numberToString := fun _ => "0";
     dictionary := fun l => Some {| de_lemma := l; de_rank := None |} |}.

Definition emptyWorld : World :=
  {| vocabulary := []; encounters := []; lemmaStats := []; settings := [];
     traces := []; wordbanks := []; wordbankWords := []; userWordbanks := [];
     uuidCount := 0; writes := [] |}.

(** An entry with the given id, lemma, score and flags
    ([isKnown], [scoreLocked], [isTraced], [noiseManaged]). *)
Definition entry (id lemma' : string) (score : Q) (known locked traced managed : bool)
  : VocabEntity :=
  {| vocabId := id; lemma := lemma'; surface := lemma'; language := "en";
     meaning := ""; sourceTraceId := None; proficiency := 0%Z;
     createdAt := Some 0%Z; updatedAt := 0%Z; deletedAt := None;
     sourceType := None; sourceWordbankId := None;
     firstSeenAt := None; lastSeenAt := None;
     familiarityScore := Some score; nextReviewDate := None;
     isKnown := Some known; scoreLocked := Some locked;
     isTraced := Some traced; noiseManaged := Some managed |}.

(** An encounter row of entry [vid] with the given source. *)
Definition sighting (eid vid source : string) (at_ : Z) : EncounterEntity :=
  {| enc_encounterId := eid; enc_vocabId := vid; enc_surface := "";
     enc_normalizedSurface := ""; enc_pageUrl := "https://a.example/";
     enc_pageHost := "a.example"; enc_pageTitle := None;
     enc_contextSentence := None; enc_source := source;
     enc_createdAt := at_; enc_updatedAt := at_ |}.

Definition worldOf (vs : list VocabEntity) (es : list EncounterEntity) : World :=
  {| vocabulary := vs; encounters := es; lemmaStats := []; settings := [];
     traces := []; wordbanks := []; wordbankWords := []; userWordbanks := [];
     uuidCount := 0; writes := [] |}.




(** A locked noise word that is looked up a second time. *)
Definition lookupWorld : World :=
  worldOf [entry "v1" "the" 100 true true false true]
          [sighting "e1" "v1" "lookup" 0].

Definition lookupPayload : RecordEncounterPayload :=
  {| re_vocabId := Some "v1"; re_word := None; re_language := None;
     re_pageUrl := "https://b.example/"; re_pageTitle := None;
     re_contextSentence := None; re_source := Some "lookup" |}.

Definition lookupRun : Outcome EncounterEntity * World :=
  handleRecordEncounter (H := exampleHost) 1000000000 lookupPayload lookupWorld.

Definition lookupEncounter : EncounterEntity :=
  {| enc_encounterId := "uuid-"; enc_vocabId := "v1"; enc_surface := "the";
     enc_normalizedSurface := "the"; enc_pageUrl := "https://b.example/";
     enc_pageHost := "https://b.example/"; enc_pageTitle := None;
     enc_contextSentence := None; enc_source := "lookup";
     enc_createdAt := 1000000000; enc_updatedAt := 1000000000 |}.

(** [m] leaves the component [proj] of the store as it was. *)
Definition frames {X A} (proj : World -> X) (m : Async A) : Prop :=
  forall w, proj (snd (m w)) = proj w.

(** The two entry invariants of the data model. *)
Definition knownConsistent (v : VocabEntity) : bool :=
  Bool.eqb (truthy (isKnown v)) (reachesThreshold (nullish (familiarityScore v) 0)).

Definition lockedAndTraced (v : VocabEntity) : bool :=
  truthy (scoreLocked v) && truthy (isTraced v).

(** A store whose noise configuration is the manual add-list ["the"]. *)
Definition noiseWorld : World :=
  {| vocabulary := [entry "v1" "cat" 0 false false false false];
     encounters := []; lemmaStats := [];
     settings :=
       [ {| kv_key := "noiseManualAdd"; kv_value := SArr ["the"]; kv_updatedAt := 0 |};
         {| kv_key := "noiseWordbankId"; kv_value := SStr ""; kv_updatedAt := 0 |} ];
     traces := []; wordbanks := []; wordbankWords := []; userWordbanks := [];
     uuidCount := 0; writes := [] |}.

Definition noiseSynced : World :=
  snd (syncNoiseWordsFromSettings (H := exampleHost) 5 true noiseWorld).

(** Run a handler for its effect on the store. *)
Definition exec {A} (m : Async A) (w : World) : World := snd (m w).

Definition ratePayload (id : string) : RateWordPayload :=
  {| rw_vocabId := Some id; rw_rating := "known" |}.

(** A user session on an empty store: the word "the" is looked up on a
    page, rated known ten times, becomes a noise word through the manual
    add-list, and is then traced by the user. *)
Definition sessionStart : World :=
  {| vocabulary := []; encounters := []; lemmaStats := [];
     settings :=
       [ {| kv_key := "noiseManualAdd"; kv_value := SArr ["the"]; kv_updatedAt := 0 |};
         {| kv_key := "noiseWordbankId"; kv_value := SStr ""; kv_updatedAt := 0 |} ];
     traces := []; wordbanks := []; wordbankWords := []; userWordbanks := [];
     uuidCount := 0; writes := [] |}.

Definition sessionRated : World :=
  let w0 :=
    exec (handleRecordEncounter (H := exampleHost) 1
            {| re_vocabId := None; re_word := Some "the"; re_language := None;
               re_pageUrl := "https://a.example/"; re_pageTitle := None;
               re_contextSentence := None; re_source := Some "scan" |})
         sessionStart in
  fold_left
    (fun w n => exec (handleRateWord (H := exampleHost) n (ratePayload "uuid-")) w)
    [2; 3; 4; 5; 6; 7; 8; 9; 10; 11]%Z w0.

Definition sessionLocked : World :=
  exec (syncNoiseWordsFromSettings (H := exampleHost) 12 true) sessionRated.

Definition sessionTraced : World :=
  exec (handleToggleTraceWord 13 {| tt_vocabId := Some "uuid-"; tt_traced := true |})
       sessionLocked.

Definition sessionResynced : World :=
  exec (syncNoiseWordsFromSettings (H := exampleHost) 14 true) sessionTraced.

(** [{ isTraced: true, updatedAt: now }] *)
Definition traceOn (now : Z) : VocabChanges :=
  {| ch_isTraced := Some true;
     ch_familiarityScore := None;
     ch_isKnown := None;
     ch_scoreLocked := None;
     ch_noiseManaged := None;
     ch_updatedAt := Some now |}.

(** The vocabulary table after [update(id, changes)] for each id in turn. *)
Definition updatedEach (c : VocabChanges) (ids : list string)
    (t : list VocabEntity) : list VocabEntity :=
  fold_left (fun t id => tbl_update vocabId id (applyChanges c) t) ids t.

(** A store with a pool of two, one active traced word and three
    candidates with enough encounters. *)
Definition poolWorld : World :=
  {| vocabulary :=
       [ entry "v1" "alpha" 0 false false true false;
         entry "v2" "beta" 0 false false false false;
         entry "v3" "gamma" 0 false false false false;
         entry "v4" "delta" 0 false false false false ];
     encounters :=
       [ sighting "e1" "v2" "scan" 10; sighting "e2" "v2" "scan" 20;
         sighting "e3" "v2" "scan" 30; sighting "e4" "v3" "scan" 10;
         sighting "e5" "v3" "scan" 20; sighting "e6" "v3" "scan" 30;
         sighting "e7" "v4" "scan" 10; sighting "e8" "v4" "scan" 20;
         sighting "e9" "v4" "scan" 40 ];
     lemmaStats := [];
     settings :=
       [ {| kv_key := "autoTracePoolSize"; kv_value := SNum 2; kv_updatedAt := 0 |} ];
     traces := []; wordbanks := []; wordbankWords := []; userWordbanks := [];
     uuidCount := 0; writes := [] |}.

(** The eligible set as the specification words it: stored flags only. *)
Definition flagEligible (w : World) (excludeIds : list string) : list VocabEntity :=
  filter (fun v => negb (truthyNum (deletedAt v))
                   && negb (truthy (scoreLocked v))
                   && negb (truthy (isKnown v))
                   && negb (existsb (String.eqb (vocabId v)) excludeIds))
         (vocabulary w).

Definition autoPayload (n : Z) : DrawCardPayload :=
  {| dc_count := Some n; dc_mode := Some "auto";
     dc_excludeIds := None; dc_seed := None |}.

(** A consistent store: one word with ten known-ratings, score 50. *)
Definition ratedWorld : World :=
  {| vocabulary := [entry "v1" "alpha" 50 false false false false];
     encounters :=
       [ sighting "e0" "v1" "rate_known" 10; sighting "e1" "v1" "rate_known" 11;
         sighting "e2" "v1" "rate_known" 12; sighting "e3" "v1" "rate_known" 13;
         sighting "e4" "v1" "rate_known" 14; sighting "e5" "v1" "rate_known" 15;
         sighting "e6" "v1" "rate_known" 16; sighting "e7" "v1" "rate_known" 17;
         sighting "e8" "v1" "rate_known" 18; sighting "e9" "v1" "rate_known" 19 ];
     lemmaStats := []; settings := [];
     traces := []; wordbanks := []; wordbankWords := []; userWordbanks := [];
     uuidCount := 0; writes := [] |}.

(** The same store after a page scan has auto-traced the word. *)
Definition autoTracedWorld : World :=
  exec (autoTraceReplenish (H := exampleHost) 20 []) ratedWorld.

(** The items [handleDrawCard] selects, before they are turned into cards. *)
Definition drawSelected {H : Host} (now : Z) (calls : nat) (payload : DrawCardPayload)
    (w : World) : list Scored :=
  let count := nullish (dc_count payload) 10%Z in
  let scored :=
    map (scoreEligible now w) (drawEligible w (nullish (dc_excludeIds payload) [])) in
  if (nullish (dc_mode payload) "shuffle" =? "auto")%string
  then pickTopN scored count
  else weightedSampleWithoutReplacement scored count (dc_seed payload) calls.


(* ----------------------------------------------------------------- *)
(** ** Vocabulary of the page scan *)



(** [(lemmaStatId, vocabId, reason)] of one [lemmaStats.update] that marks a
    stat as promoted. *)
Definition Mark : Type := (string * string * string)%type.

(** The table after the [lemmaStats.update] calls of a list of marks. *)
Definition markRows (now : Z) (ms : list Mark) (t : list LemmaStatEntity)
  : list LemmaStatEntity :=
  fold_left
    (fun t m =>
       tbl_update ls_lemmaStatId (fst (fst m))
         (markPromoted (snd (fst m)) now (snd m)) t)
    ms t.

(** The same calls, seen from one row. *)
Definition rowAfter (now : Z) (ms : list Mark) (r : LemmaStatEntity) : LemmaStatEntity :=
  fold_left
    (fun r m =>
       if (ls_lemmaStatId r =? fst (fst m))%string
       then markPromoted (snd (fst m)) now (snd m) r
       else r)
    ms r.



(** A store with one enabled wordbank holding "cat", and a stat of "dog"
    seen five times on two pages. *)
Definition pageWorld : World :=
  {| vocabulary := []; encounters := [];
     lemmaStats :=
       [ {| ls_lemmaStatId := "s1"; ls_lemma := "dog"; ls_normalizedLemma := "dog";
            ls_language := "en"; ls_totalCount := 5; ls_pageCount := 2;
            ls_firstSeenAt := 1; ls_lastSeenAt := 2;
            ls_lastPageUrl := Some "https://b.example/";
            ls_lastPageHost := Some "b.example";
            ls_inWordbank := false; ls_sourceMask := 0; ls_dictRank := None;
            ls_promotedVocabId := None; ls_promotedAt := None;
            ls_promotionReason := None; ls_cooldownUntil := None;
            ls_updatedAt := 2 |} ];
     settings := []; traces := [];
     wordbanks := [ {| wb_wordbankId := "wb1"; wb_code := "cet4" |} ];
     wordbankWords :=
       [ {| ww_wordId := "ww1"; ww_wordbankId := "wb1"; ww_lemma := "cat";
            ww_surface := "cat"; ww_normalized := "cat" |} ];
     userWordbanks :=
       [ {| uw_userWordbankId := "uw1"; uw_wordbankId := "wb1"; uw_enabled := true |} ];
     uuidCount := 0; writes := [] |}.

(** A page on which "cat" and "dog" occur once each. *)
Definition pagePayload : ScanPageWordsPayload :=
  {| sp_pageUrl := "https://a.example/"; sp_pageTitle := None; sp_language := None;
     sp_tokens := Some ["cat"; "dog"]; sp_textContent := None; sp_sentences := None;
     sp_record := Some true |}.

Definition pageScanned : Outcome unit * World :=
  handleScanPageWords (H := exampleHost) 100 pagePayload pageWorld.

(* ================================================================= *)
(** * Further handlers *)

Section MoreHandlers.
Context {H : Host}.

(* ----------------------------------------------------------------- *)
(** ** vocab.ts: deleting and marking entries *)

(** [db.vocabulary.update(id, changes)] for a literal given as the function
    it applies to the row. *)
Definition vocab_modify (id : string) (f : VocabEntity -> VocabEntity) : Async unit :=
  modify (fun w => logWrite T_vocabulary W_update id
                     (with_vocabulary (tbl_update vocabId id f) w)).

(** [{ deletedAt: Date.now(), updatedAt: Date.now() }] *)
Definition markDeleted (now : Z) (v : VocabEntity) : VocabEntity :=
  {| vocabId := vocabId v; lemma := lemma v; surface := surface v;
     language := language v; meaning := meaning v;
     sourceTraceId := sourceTraceId v; proficiency := proficiency v;
     createdAt := createdAt v; updatedAt := now; deletedAt := Some now;
     sourceType := sourceType v; sourceWordbankId := sourceWordbankId v;
     firstSeenAt := firstSeenAt v; lastSeenAt := lastSeenAt v;
     familiarityScore := familiarityScore v; nextReviewDate := nextReviewDate v;
     isKnown := isKnown v; scoreLocked := scoreLocked v;
     isTraced := isTraced v; noiseManaged := noiseManaged v |}.

(** [{ proficiency: 5, updatedAt: Date.now() }] *)
Definition markMastered (now : Z) (v : VocabEntity) : VocabEntity :=
  {| vocabId := vocabId v; lemma := lemma v; surface := surface v;
     language := language v; meaning := meaning v;
     sourceTraceId := sourceTraceId v; proficiency := 5%Z;
     createdAt := createdAt v; updatedAt := now; deletedAt := deletedAt v;
     sourceType := sourceType v; sourceWordbankId := sourceWordbankId v;
     firstSeenAt := firstSeenAt v; lastSeenAt := lastSeenAt v;
     familiarityScore := familiarityScore v; nextReviewDate := nextReviewDate v;
     isKnown := isKnown v; scoreLocked := scoreLocked v;
     isTraced := isTraced v; noiseManaged := noiseManaged v |}.

Record DeleteVocabPayload := {
  dv_vocabId : option string;
  dv_hardDelete : option bool
}.

(** Resolves with [deletedVocabId]. *)
Definition handleDeleteVocab (now : Z) (payload : DeleteVocabPayload) : Async string :=
  if negb (truthyStr (dv_vocabId payload))
  then throw (VALIDATION_ERROR "vocabId is required")
  else
    let id := nullish (dv_vocabId payload) "" in
    existing <- reads (fun w => tbl_get vocabId id (vocabulary w)) ;;
    match existing with
    | None => throw (NOT_FOUND "vocabulary not found")
    | Some _ =>
        (if truthy (dv_hardDelete payload)
         then
           vocab_delete id ;;;
           mine <- reads (fun w => encountersOf id (encounters w)) ;;
           forEach mine (fun e => enc_delete (enc_encounterId e))
         else vocab_modify id (markDeleted now)) ;;;
        ret id
    end.

(** Resolves with [vocabId]. *)
Definition handleMarkMastered (now : Z) (vocabId' : option string) : Async string :=
  if negb (truthyStr vocabId')
  then throw (VALIDATION_ERROR "vocabId is required")
  else
    let id := nullish vocabId' "" in
    existing <- reads (fun w => tbl_get vocabId id (vocabulary w)) ;;
    match existing with
    | None => throw (NOT_FOUND "vocabulary not found")
    | Some _ => vocab_modify id (markMastered now) ;;; ret id
    end.

End MoreHandlers.

(* ================================================================= *)
(** * Vocabulary of the further properties *)


(** [v.scoreLocked === true && v.noiseManaged === true] *)
Definition isManagedLocked (v : VocabEntity) : bool :=
  match scoreLocked v, noiseManaged v with
  | Some true, Some true => true
  | _, _ => false
  end.

(** The literal the unlock loop of the reconciliation writes onto [v]. *)
Definition noiseUnlockChanges (now : Z) (v : VocabEntity) : VocabChanges :=
  {| ch_isTraced := None;
     ch_familiarityScore :=
       Some (if truthy (isTraced v) then nullish (familiarityScore v) 0 else 0);
     ch_isKnown := Some false;
     ch_scoreLocked := Some false;
     ch_noiseManaged := Some false;
     ch_updatedAt := Some now |}.

(** One turn of the unlock loop of [syncNoiseWordsFromSettings]. *)
Definition noiseUnlockStep (now : Z) (target : list string) (v : VocabEntity)
  : Async unit :=
  if negb (set_has (lemma v) target) || truthy (isTraced v)
  then vocab_update (vocabId v) (noiseUnlockChanges now v)
  else ret tt.

(** The entry the lock loop adds for a target lemma that has none. *)
Definition noiseEntry (now : Z) (lemma' id : string) : VocabEntity :=
  {| vocabId := id; lemma := lemma'; surface := lemma'; language := "en";
     meaning := ""; sourceTraceId := None; proficiency := 0%Z;
     createdAt := Some now; updatedAt := now; deletedAt := None;
     sourceType := None; sourceWordbankId := None;
     firstSeenAt := None; lastSeenAt := None;
     familiarityScore := Some 100; nextReviewDate := None;
     isKnown := Some true; scoreLocked := Some true;
     isTraced := None; noiseManaged := Some true |}.

(** One turn of the lock loop of [syncNoiseWordsFromSettings]. *)
Definition noiseLockStep {H : Host} (now : Z) (lemma' : string) : Async unit :=
  existing <- reads (fun w => findByLemma lemma' "en" (vocabulary w)) ;;
  match existing with
  | Some existing =>
      if truthy (isTraced existing) then ret tt
      else vocab_update (vocabId existing) (lockChanges now)
  | None =>
      id <- freshUUID ;;
      vocab_add (noiseEntry now lemma' id)
  end.

(** The reconciliation does not return early. *)
Definition syncRuns {H : Host} (force : bool) (w : World) : Prop :=
  force = true \/ settingValue "noiseConfigHash" w <> Some (SStr (noiseConfigKey w)).

(** Locked by the reconciler although traced. *)
Definition lockedThoughTraced (v : VocabEntity) : bool :=
  truthy (isTraced v) && isManagedLocked v.

(** Locked as a noise word: score at the ceiling, known, reconciler-owned. *)
Definition noiseLocked (v : VocabEntity) : Prop :=
  scoreLocked v = Some true /\ familiarityScore v = Some 100
  /\ isKnown v = Some true /\ noiseManaged v = Some true.

(** The vocabulary respects its primary key and holds no entry that is
    locked by the reconciler although traced. *)
Definition noneLockedTraced (w : World) : Prop :=
  tbl_ok vocabId (vocabulary w)
  /\ forall r, In r (vocabulary w) -> lockedThoughTraced r = false.

(** The ids of the wordbanks the user has enabled, the wordbank-word rows
    of those wordbanks, and the codes of the enabled wordbanks, as
    [getEnabledWordbankWords] reads them. *)
Definition enabledWordbankIds (w : World) : list string :=
  map uw_wordbankId (filter uw_enabled (userWordbanks w)).

Definition enabledWordbankRows (w : World) : list WordbankWordEntity :=
  filter (fun wd => set_has (ww_wordbankId wd) (enabledWordbankIds w)) (wordbankWords w).

Definition enabledCodeById {H : Host} (w : World) : list (string * string) :=
  map_of_list
    (map (fun wb => (wb_wordbankId wb, wb_code wb))
         (filter (fun wb => set_has (wb_wordbankId wb) (enabledWordbankIds w))
                 (wordbanks w))).

(** The selection priority of a wordbank id under a code map. *)
Definition wordbankPriority {H : Host} (codeById : list (string * string)) (id : string)
  : Z :=
  nullish (record_get (orStr (record_get id codeById) "custom")
             WORDBANK_SELECTION_PRIORITY) 999%Z.

(** One turn of the loop of [getEnabledWordbankWords]. *)
Definition wordbankWordStep {H : Host} (codeById : list (string * string))
    (m : list (string * WbWord)) (wd : WordbankWordEntity) : list (string * WbWord) :=
  match record_get (ww_normalized wd) m with
  | None =>
      map_set (ww_normalized wd)
        {| wbw_wordbankId := ww_wordbankId wd;
           wbw_lemma := ww_lemma wd;
           wbw_surface := ww_surface wd;
           wbw_sourceWordbankIds := [ww_wordbankId wd] |} m
  | Some existing =>
      let ids :=
        if set_has (ww_wordbankId wd) (wbw_sourceWordbankIds existing)
        then wbw_sourceWordbankIds existing
        else (wbw_sourceWordbankIds existing ++ [ww_wordbankId wd])%list in
      map_set (ww_normalized wd)
        (if shouldPreferWordbank (ww_wordbankId wd) (wbw_wordbankId existing) codeById
         then {| wbw_wordbankId := ww_wordbankId wd;
                 wbw_lemma := ww_lemma wd;
                 wbw_surface := ww_surface wd;
                 wbw_sourceWordbankIds := ids |}
         else {| wbw_wordbankId := wbw_wordbankId existing;
                 wbw_lemma := wbw_lemma existing;
                 wbw_surface := wbw_surface existing;
                 wbw_sourceWordbankIds := ids |}) m
  end.

(** What an entry of the word map says about the rows [seen] so far: its
    source ids are the wordbanks of the rows of the word, without repeats;
    its wordbank, lemma and surface are those of one of these rows; and no
    source wordbank is preferred to its wordbank. *)
Definition wordEntryOk {H : Host} (codeById : list (string * string))
    (seen : list WordbankWordEntity) (n : string) (e : WbWord) : Prop :=
  (forall id, In id (wbw_sourceWordbankIds e)
              <-> exists wd, In wd seen /\ ww_normalized wd = n /\ ww_wordbankId wd = id)
  /\ NoDup (wbw_sourceWordbankIds e)
  /\ (exists wd, In wd seen /\ ww_normalized wd = n
                 /\ ww_wordbankId wd = wbw_wordbankId e
                 /\ ww_lemma wd = wbw_lemma e /\ ww_surface wd = wbw_surface e)
  /\ (forall id, In id (wbw_sourceWordbankIds e) ->
                 shouldPreferWordbank id (wbw_wordbankId e) codeById = false).

Definition wordMapOk {H : Host} (codeById : list (string * string))
    (seen : list WordbankWordEntity) (m : list (string * WbWord)) : Prop :=
  forall n,
    match record_get n m with
    | Some e => wordEntryOk codeById seen n e
    | None => forall wd, In wd seen -> ww_normalized wd <> n
    end.

(** * Example inputs of the further properties *)

(** A second lookup of the word of [lookupWorld] on the page of its first
    encounter. *)
Definition repeatPayload : RecordEncounterPayload :=
  {| re_vocabId := Some "v1"; re_word := None; re_language := None;
     re_pageUrl := "https://a.example/"; re_pageTitle := None;
     re_contextSentence := None; re_source := Some "lookup" |}.

(** A host whose URL parser refuses what does not start with [http]. *)
Definition strictHost : Host :=
  {| toLowerCase := fun s => s;
     trim := fun s => s;
     stripEdges := fun s => s;
     tokenize := fun s => [s];
     urlHost := fun u => if String.prefix "http" u then Some u else None;
     urlHostname := fun u => if String.prefix "http" u then Some u else None;
     randomUUID := fun n => "uuid-" ++ string_of_list_ascii (repeat "x"%char n);
     mathRandom := fun n => 1 # 2;
     pow := fun u e => u * e;
     stringifyNoiseConfig :=
       fun src add remove =>
         src ++ "|" ++ String.concat "," add ++ "|" ++ String.concat "," remove;
     parseNumber := fun _ => None;
     numberToString := fun _ => "0";
     dictionary := fun l => Some {| de_lemma := l; de_rank := None |} |}.

(** A word recorded from a page whose URL does not parse. *)
Definition badUrlPayload : RecordEncounterPayload :=
  {| re_vocabId := None; re_word := Some "cat"; re_language := None;
     re_pageUrl := "nowhere"; re_pageTitle := None;
     re_contextSentence := None; re_source := Some "lookup" |}.

(** A word that the store of [noiseWorld] does not hold. *)
Definition dogPayload : UpsertVocabPayload :=
  {| up_vocabId := None; up_lemma := "dog"; up_surface := None;
     up_language := None; up_meaning := None; up_proficiency := None;
     up_sourceTraceId := None |}.

(* ================================================================= *)
(** * The scoring function and the review ranking in binary64

    A JavaScript [number] is an IEEE 754 binary64 value.  The definitions
    above compute scores and priorities in exact arithmetic, which is all
    that the statements about stored rows, flags and table contents need.
    Where a statement depends on the value a computation has in the code
    (what a score adds up to, which of two priorities is the larger one),
    the functions are read here over the primitive binary64 floats, with the
    operations and their rounding as the code has them. *)

Set Warnings "-inexact-float".

(** [Math.max(0, x)] *)
Definition mathMax0 (x : float) : float :=
  if PrimFloat.is_nan x then PrimFloat.nan
  else if (0 <? x)%float then x else 0%float.

(** [Math.min(1, x)] *)
Definition mathMin1 (x : float) : float :=
  if PrimFloat.is_nan x then PrimFloat.nan
  else if (x <? 1)%float then x else 1%float.

(** A number is falsy when it is [0], [-0] or [NaN]. *)
Definition falsyNumber (x : float) : bool :=
  PrimFloat.is_zero x || PrimFloat.is_nan x.

(** The integer [z] as a number: exact up to [2^53], rounded to the nearest
    binary64 value beyond. *)
Definition numberOfZ (z : Z) : float :=
  SF2Prim (binary_normalize prec emax z 0 false).

(** The properties that every plain object inherits from
    [Object.prototype]: reading one of these names from an object literal
    that does not define it gives a function (or, for [__proto__], the
    prototype object), not [undefined]. *)
Definition OBJECT_PROTOTYPE_NAMES : list string :=
  [ "constructor"; "hasOwnProperty"; "isPrototypeOf"; "propertyIsEnumerable";
    "toLocaleString"; "toString"; "valueOf"; "__proto__";
    "__defineGetter__"; "__defineSetter__"; "__lookupGetter__";
    "__lookupSetter__" ].

(** What [obj[name]] is for a [Record<string, number>] literal. *)
Inductive JsLookup :=
| JsNumber (x : float)
| JsInherited (name : string)
| JsUndefined.

Definition recordLookup (name : string) (r : list (string * float)) : JsLookup :=
  match record_get name r with
  | Some x => JsNumber x
  | None => if set_has name OBJECT_PROTOTYPE_NAMES then JsInherited name else JsUndefined
  end.

(* ----------------------------------------------------------------- *)
(** ** lib/domain-utils.ts *)

Definition SCORING_WEIGHTS64 : list (string * float) :=
  [ ("scan", 0.1); ("lookup", 1.0); ("trace", 1.0); ("manual", 2.0);
    ("import", 0.5); ("wordbank", 0.1); ("rate_known", 5.0);
    ("rate_familiar", 3.0); ("rate_unknown", 1.0) ]%float.

(** [(SCORING_WEIGHTS[source] || 0.1) * multiplier]: an inherited property
    is truthy, and a function times a number is [NaN]. *)
Definition points64 (source : string) (multiplier : float) : float :=
  match recordLookup source SCORING_WEIGHTS64 with
  | JsNumber x => ((if falsyNumber x then 0.1 else x) * multiplier)%float
  | JsInherited _ => PrimFloat.nan
  | JsUndefined => (0.1 * multiplier)%float
  end.

Definition calculateWeightedScore64 {E} `{HasSource E}
    (encounters : list E) (multiplier : float) : float :=
  fold_left
    (fun sum e =>
       let points := points64 (source_of e) multiplier in
       mathMax0 (sum + points)%float)
    encounters 0%float.

(** [isTraced ? 2 : 1] *)
Definition traceMultiplier64 (isTraced : option bool) : float :=
  if truthy isTraced then 2%float else 1%float.

(* ----------------------------------------------------------------- *)
(** ** background/router/handlers/vocab.ts: card drawing

    Timestamps are integers of milliseconds; they are converted to numbers
    where the code does arithmetic on them. *)

(** [{ vocab, score, priority }] *)
Record Scored64 := {
  sc_vocab64 : VocabEntity;
  sc_score64 : float;
  sc_priority64 : float
}.

Record Card64 := {
  card64_vocabId : string;
  card64_lemma : string;
  card64_surface : string;
  card64_meaning : string;
  card64_weightedScore : float;
  card64_isTraced : bool;
  card64_priority : float;
  card64_contextSentence : option string;
  card64_pageTitle : option string
}.

(** [scoreMap.get(v.vocabId)]: [calculateWeightedScore(encs, v.isTraced ? 2 : 1)]
    over the encounters of the entry, in the order the index returns them. *)
Definition realtimeScore64 (w : World) (v : VocabEntity) : float :=
  calculateWeightedScore64 (sourcesOf (vocabId v) w) (traceMultiplier64 (isTraced v)).

(** [!excludeSet.has(v.vocabId) && scoreMap.get(v.vocabId) < KNOWN_THRESHOLD] *)
Definition drawEligible64 (w : World) (excludeIds : list string) : list VocabEntity :=
  filter (fun v => negb (existsb (String.eqb (vocabId v)) excludeIds)
                   && (realtimeScore64 w v <? 100)%float)
         (drawCandidates w).

Definition srsDueOf64 (now : Z) (v : VocabEntity) : float :=
  let nextReview := nullish (nextReviewDate v) 0%Z in
  if (0 <? nextReview)%Z && (nextReview <? now)%Z
  then mathMin1 ((numberOfZ now - numberOfZ nextReview) / (7 * 24 * 60 * 60 * 1000))%float
  else if (nextReview =? 0)%Z then 0.5%float else 0%float.

Definition difficultyOf64 (score : float) : float := (1 - score / 100)%float.

Definition urgencyOf64 (v : VocabEntity) : float :=
  if truthy (isTraced v) then 1%float else 0.3%float.

Definition recencyOf64 (now : Z) (v : VocabEntity) : float :=
  let lastSeen := nullish (lastSeenAt v) (nullish (createdAt v) now) in
  let daysSinceLastSeen :=
    ((numberOfZ now - numberOfZ lastSeen) / (24 * 60 * 60 * 1000))%float in
  mathMin1 (daysSinceLastSeen / 14)%float.

Definition priorityOf64 (now : Z) (score : float) (v : VocabEntity) : float :=
  (srsDueOf64 now v * 0.45 + difficultyOf64 score * 0.25
   + urgencyOf64 v * 0.20 + recencyOf64 now v * 0.10)%float.

Definition scoreEligible64 (now : Z) (w : World) (v : VocabEntity) : Scored64 :=
  let score := realtimeScore64 w v in
  {| sc_vocab64 := v; sc_score64 := score; sc_priority64 := priorityOf64 now score v |}.

(** [arr.sort((a, b) => cmp(a, b))] with a comparator that returns a
    number: [x] goes after [y] when [cmp(x, y) > 0]; a [NaN] counts as 0. *)
Definition array_sort64 {A} (cmp : A -> A -> float) (l : list A) : list A :=
  stable_sort (fun x y => (0 <? cmp x y)%float) l.

Definition pickTopN64 (items : list Scored64) (n : Z) : list Scored64 :=
  slice0 n (array_sort64 (fun a b => (sc_priority64 b - sc_priority64 a)%float) items).

(** [Math.round(x)]: the integer nearest to [x], halves towards [+Infinity]. *)
Definition mathRound (x : float) : float :=
  match Prim2SF x with
  | S754_finite s m e =>
      let n := if (0 <=? e)%Z
               then (cond_Zopp s (Zpos m) * 2 ^ e)%Z
               else ((2 * cond_Zopp s (Zpos m) + 2 ^ (- e)) / 2 ^ (1 - e))%Z in
      if (n =? 0)%Z then (if s then neg_zero else 0%float) else numberOfZ n
  | _ => x
  end.

Definition toCard64 (w : World) (s : Scored64) : Card64 :=
  let ctx := contextOf (vocabId (sc_vocab64 s)) w in
  {| card64_vocabId := vocabId (sc_vocab64 s);
     card64_lemma := lemma (sc_vocab64 s);
     card64_surface := surface (sc_vocab64 s);
     card64_meaning := meaning (sc_vocab64 s);
     card64_weightedScore := sc_score64 s;
     card64_isTraced := nullish (isTraced (sc_vocab64 s)) false;
     card64_priority := (mathRound (sc_priority64 s * 100) / 100)%float;
     card64_contextSentence :=
       match ctx with Some (cs, _, _) => cs | None => None end;
     card64_pageTitle :=
       match ctx with Some (_, pt, _) => pt | None => None end |}.

(** [handleDrawCard] at the clock value [now].  The weighted sampler of the
    other modes, whose keys come from [Math.pow] and the random source, is
    the parameter [sample]. *)
Definition handleDrawCard64
    (sample : list Scored64 -> Z -> option Z -> list Scored64)
    (now : Z) (payload : DrawCardPayload) (w : World) : list Card64 :=
  let count := nullish (dc_count payload) 10%Z in
  let mode := nullish (dc_mode payload) "shuffle" in
  let excludeIds := nullish (dc_excludeIds payload) [] in
  let candidates := drawCandidates w in
  if Nat.eqb (List.length candidates) 0 then []
  else
    let eligible := drawEligible64 w excludeIds in
    if Nat.eqb (List.length eligible) 0 then []
    else
      let scored := map (scoreEligible64 now w) eligible in
      let selected :=
        if (mode =? "auto")%string
        then pickTopN64 scored count
        else sample scored count (dc_seed payload) in
      map (toCard64 w) selected.

(** A non-NaN number as a triple that the lexicographic order on integers
    compares the way [SFcompare] does. *)
Definition sfKey (x : spec_float) : Z * Z * Z :=
  match x with
  | S754_zero _ => (0, 0, 0)%Z
  | S754_infinity s => (if s then (-2)%Z else 2%Z, 0%Z, 0%Z)
  | S754_nan => (0, 0, 0)%Z
  | S754_finite s m e =>
      if s then ((-1)%Z, (- e)%Z, Z.neg m) else (1%Z, e, Z.pos m)
  end.

Definition lt3 (a b : Z * Z * Z) : Prop :=
  (fst (fst a) < fst (fst b)
   \/ (fst (fst a) = fst (fst b)
       /\ (snd (fst a) < snd (fst b)
           \/ (snd (fst a) = snd (fst b) /\ snd a < snd b))))%Z.

(** The comparator of [pickTopN] puts [a] after [b]. *)
Definition putAfter64 (a b : Scored64) : bool :=
  (0 <? sc_priority64 b - sc_priority64 a)%float.

(** No priority of the items is [NaN]. *)
Definition prioritiesAreNumbers (items : list Scored64) : Prop :=
  forall s, In s items -> PrimFloat.is_nan (sc_priority64 s) = false.

Definition prioritiesAreNumbersb (items : list Scored64) : bool :=
  forallb (fun s => negb (PrimFloat.is_nan (sc_priority64 s))) items.

(** A number is positive: [0 < x]. *)
Definition sfPositive (x : spec_float) : bool := SFltb (S754_zero false) x.

(** [a] is ranked before [b]: its priority is not the smaller one, and the
    smaller id goes first when neither priority is. *)
Definition rankedBefore64 (a b : Scored64) : Prop :=
  (sc_priority64 a <? sc_priority64 b)%float = false
  /\ ((sc_priority64 b <? sc_priority64 a)%float = false ->
      str_lt (vocabId (sc_vocab64 a)) (vocabId (sc_vocab64 b))).

(** Three words seen at different times: "v2" was seen last, "v1" and "v3"
    long ago, and "v3" is traced and has encounters. *)
Definition seenWorld : World :=
  worldOf
    [ entry "v1" "alpha" 0 false false false false;
      {| vocabId := "v2"; lemma := "beta"; surface := "beta"; language := "en";
         meaning := ""; sourceTraceId := None; proficiency := 0%Z;
         createdAt := Some 0%Z; updatedAt := 0%Z; deletedAt := None;
         sourceType := None; sourceWordbankId := None;
         firstSeenAt := None; lastSeenAt := Some 86400000%Z;
         familiarityScore := Some 0; nextReviewDate := Some 172800000%Z;
         isKnown := Some false; scoreLocked := Some false;
         isTraced := Some false; noiseManaged := Some false |};
      entry "v3" "gamma" 0 false false true false;
      entry "v4" "delta" 0 false false false false ]
    [ sighting "e1" "v3" "scan" 10; sighting "e2" "v3" "lookup" 11;
      sighting "e3" "v3" "scan" 12 ].

(** Two words whose priorities are both 107/200 in exact arithmetic: "v1"
    has no review date, is not traced and was seen just now; "v2" has a
    review date ahead, is traced and was seen 11.9 days ago. *)
Definition tieWorld : World :=
  worldOf
    [ {| vocabId := "v1"; lemma := "alpha"; surface := "alpha"; language := "en";
         meaning := ""; sourceTraceId := None; proficiency := 0%Z;
         createdAt := Some 0%Z; updatedAt := 0%Z; deletedAt := None;
         sourceType := None; sourceWordbankId := None;
         firstSeenAt := None; lastSeenAt := Some 2000000000%Z;
         familiarityScore := Some 0; nextReviewDate := None;
         isKnown := Some false; scoreLocked := Some false;
         isTraced := Some false; noiseManaged := Some false |};
      {| vocabId := "v2"; lemma := "beta"; surface := "beta"; language := "en";
         meaning := ""; sourceTraceId := None; proficiency := 0%Z;
         createdAt := Some 0%Z; updatedAt := 0%Z; deletedAt := None;
         sourceType := None; sourceWordbankId := None;
         firstSeenAt := None; lastSeenAt := Some 971840000%Z;
         familiarityScore := Some 0; nextReviewDate := Some 2000000001%Z;
         isKnown := Some false; scoreLocked := Some false;
         isTraced := Some true; noiseManaged := Some false |} ]
    [].

Definition noSample : list Scored64 -> Z -> option Z -> list Scored64 :=
  fun _ _ _ => [].

(* ================================================================= *)
(** * Promotion: the entry behind a promoted stat *)







(* ================================================================= *)
(** * Properties *)

Unset Implicit Arguments.

(** ** Scoring *)






Section ScoreFold.
Context {E : Type} `{HasSource E}.
Variable multiplier : Q.
Hypothesis multiplier_pos : 0 < multiplier.





End ScoreFold.




(** *** Facts of binary64 arithmetic *)

(* ---- the sign of a binary64 difference ---- *)

Section DifferenceSign.
Local Open Scope Z_scope.

Lemma digits2_pos_bounds : forall p,
  2 ^ (Zpos (digits2_pos p) - 1) <= Zpos p < 2 ^ Zpos (digits2_pos p).
Proof.
  induction p as [p IH|p IH|]; simpl digits2_pos.
  - rewrite Pos2Z.inj_succ.
    replace (Z.succ (Zpos (digits2_pos p)) - 1) with (Z.succ (Zpos (digits2_pos p) - 1)) by lia.
    rewrite !Z.pow_succ_r by lia. lia.
  - rewrite Pos2Z.inj_succ.
    replace (Z.succ (Zpos (digits2_pos p)) - 1) with (Z.succ (Zpos (digits2_pos p) - 1)) by lia.
    rewrite !Z.pow_succ_r by lia. lia.
  - simpl. lia.
Qed.

Lemma shr_1_m : forall r, 0 <= shr_m r -> shr_m (shr_1 r) = shr_m r / 2.
Proof.
  intros [m r s] Hm. simpl in *.
  destruct m as [|[p|p|]|p]; cbn [shr_m].
  - reflexivity.
  - apply Z.div_unique with (r := 1); lia.
  - apply Z.div_unique with (r := 0); lia.
  - reflexivity.
  - lia.
Qed.

Lemma pow2_xO : forall n, 2 ^ Zpos n~0 = 2 ^ Zpos n * 2 ^ Zpos n.
Proof.
  intro n. rewrite <- Z.pow_add_r by lia. f_equal. lia.
Qed.

Lemma pow2_xI : forall n, 2 ^ Zpos n~1 = 2 * (2 ^ Zpos n * 2 ^ Zpos n).
Proof.
  intro n. rewrite <- Z.pow_add_r by lia.
  rewrite <- (Z.pow_succ_r 2) by lia. f_equal. lia.
Qed.

Lemma iter_shr_1_m : forall n r,
  0 <= shr_m r -> shr_m (iter_pos shr_1 n r) = shr_m r / 2 ^ Zpos n.
Proof.
  induction n as [n IH|n IH|]; intros r Hr; simpl iter_pos.
  - assert (Hp : 0 < 2 ^ Zpos n) by (apply Z.pow_pos_nonneg; lia).
    assert (H1 : 0 <= shr_m (shr_1 r)).
    { rewrite shr_1_m by exact Hr. apply Z.div_pos; lia. }
    assert (H2 : 0 <= shr_m (iter_pos shr_1 n (shr_1 r))).
    { rewrite IH by exact H1. apply Z.div_pos; [exact H1 | exact Hp]. }
    rewrite IH by exact H2. rewrite IH by exact H1. rewrite shr_1_m by exact Hr.
    rewrite pow2_xI.
    rewrite !Z.div_div by lia. reflexivity.
  - assert (Hp : 0 < 2 ^ Zpos n) by (apply Z.pow_pos_nonneg; lia).
    assert (H2 : 0 <= shr_m (iter_pos shr_1 n r)).
    { rewrite IH by exact Hr. apply Z.div_pos; [exact Hr | exact Hp]. }
    rewrite IH by exact H2. rewrite IH by exact Hr.
    rewrite pow2_xO.
    rewrite !Z.div_div by lia. reflexivity.
  - rewrite shr_1_m by exact Hr. reflexivity.
Qed.

Lemma shr_record_of_loc_m : forall m l, shr_m (shr_record_of_loc m l) = m.
Proof. intros m [|[| |]]; reflexivity. Qed.

(** Shifting to the format's exponent never shifts a mantissa out. *)
Lemma shr_fexp_pos : forall m e l,
  1 <= m -> emin <= e ->
  1 <= shr_m (fst (shr_fexp prec emax m e l))
  /\ emin <= snd (shr_fexp prec emax m e l).
Proof.
  intros m e l Hm He. unfold shr_fexp, shr.
  destruct m as [|p|p]; try lia. simpl Zdigits2.
  pose proof (digits2_pos_bounds p) as [Hlo _].
  set (d := Zpos (digits2_pos p)) in *.
  destruct (fexp prec emax (d + e) - e) as [|n|n] eqn:Hn; simpl fst; simpl snd.
  - rewrite shr_record_of_loc_m. split; lia.
  - assert (Hnd : Zpos n <= d - 1).
    { unfold fexp in Hn. unfold prec in *. lia. }
    rewrite iter_shr_1_m by (rewrite shr_record_of_loc_m; lia).
    rewrite shr_record_of_loc_m. split; [|lia].
    apply Z.div_le_lower_bound; [apply Z.pow_pos_nonneg; lia|].
    rewrite Z.mul_1_r.
    apply Z.le_trans with (2 ^ (d - 1)); [|exact Hlo].
    apply Z.pow_le_mono_r; lia.
  - rewrite shr_record_of_loc_m. split; lia.
Qed.

Lemma round_nearest_even_ge : forall m l, 1 <= m -> 1 <= round_nearest_even m l.
Proof.
  intros m l Hm. unfold round_nearest_even.
  destruct l as [|[| |]]; try lia. destruct (Z.even m); lia.
Qed.

Lemma binary_round_aux_sign : forall s m e l,
  1 <= m -> emin <= e ->
  sfPositive (binary_round_aux prec emax s m e l) = negb s
  /\ binary_round_aux prec emax s m e l <> S754_nan.
Proof.
  intros s m e l Hm He. unfold binary_round_aux.
  destruct (shr_fexp_pos m e l Hm He) as [H1 H1e].
  destruct (shr_fexp prec emax m e l) as [r1 e1]. simpl in H1, H1e.
  pose proof (round_nearest_even_ge (shr_m r1) (loc_of_shr_record r1) H1) as H2.
  destruct (shr_fexp_pos _ e1 loc_Exact H2 H1e) as [H3 _].
  destruct (shr_fexp prec emax _ e1 loc_Exact) as [r2 e2]. simpl in H3.
  destruct (shr_m r2) as [|q|q]; try lia.
  destruct (e2 <=? emax - prec); destruct s; split; try reflexivity; discriminate.
Qed.

Lemma shl_align_exp : forall m e t,
  emin <= e -> emin <= t ->
  emin <= snd (shl_align m e t).
Proof.
  intros m e t He Ht. unfold shl_align. destruct (t - e) eqn:Hd; simpl; lia.
Qed.

Lemma binary_round_sign : forall s m e,
  emin <= e ->
  sfPositive (binary_round prec emax s m e) = negb s
  /\ binary_round prec emax s m e <> S754_nan.
Proof.
  intros s m e He. unfold binary_round.
  pose proof (shl_align_exp m e (fexp prec emax (Zpos (digits2_pos m) + e)) He) as Hs.
  destruct (shl_align m e (fexp prec emax (Zpos (digits2_pos m) + e))) as [mz ez].
  simpl in Hs. apply binary_round_aux_sign; [lia|]. apply Hs. unfold fexp. lia.
Qed.

Lemma binary_normalize_sign : forall d e,
  emin <= e ->
  sfPositive (binary_normalize prec emax d e false) = (0 <? d)
  /\ binary_normalize prec emax d e false <> S754_nan.
Proof.
  intros d e He. unfold binary_normalize.
  destruct d as [|p|p].
  - split; [reflexivity | discriminate].
  - apply (binary_round_sign false p e He).
  - apply (binary_round_sign true p e He).
Qed.

Lemma shl_align_value : forall m e t,
  t <= e -> Zpos (fst (shl_align m e t)) = Zpos m * 2 ^ (e - t).
Proof.
  intros m e t Hle. unfold shl_align.
  destruct (t - e) as [|d|d] eqn:Hd; simpl fst.
  - replace (e - t) with 0 by lia. simpl. lia.
  - lia.
  - replace (e - t) with (Zpos d) by lia.
    change (Pos.iter xO m d) with (shift_pos d m).
    rewrite shift_pos_correct.
    change (Zpower_pos 2 d) with (2 ^ Zpos d). ring.
Qed.

Lemma bounded_facts : forall m e,
  bounded prec emax m e = true ->
  emin <= e
  /\ Zpos (digits2_pos m) <= prec
  /\ (emin < e -> Zpos (digits2_pos m) = prec).
Proof.
  intros m e Hb. unfold bounded, canonical_mantissa in Hb.
  apply andb_true_iff in Hb. destruct Hb as [Hc _].
  apply Z.eqb_eq in Hc. unfold fexp in Hc. unfold SpecFloat.emin, prec, emax in *. lia.
Qed.

(** Two finite numbers of the format, as integers at their common exponent:
    the integer of a smaller exponent is the smaller one. *)
Lemma aligned_lt : forall mx ex my ey,
  bounded prec emax mx ex = true ->
  bounded prec emax my ey = true ->
  ex < ey ->
  Zpos mx < Zpos my * 2 ^ (ey - ex).
Proof.
  intros mx ex my ey Hx Hy Hlt.
  destruct (bounded_facts mx ex Hx) as (Hex & Hdx & _).
  destruct (bounded_facts my ey Hy) as (_ & _ & Hdy).
  specialize (Hdy ltac:(lia)).
  pose proof (digits2_pos_bounds mx) as [_ Hux].
  pose proof (digits2_pos_bounds my) as [Hly _].
  rewrite Hdy in Hly.
  assert (H1 : Zpos mx < 2 ^ prec).
  { eapply Z.lt_le_trans; [exact Hux|]. apply Z.pow_le_mono_r; lia. }
  assert (H2 : 2 <= 2 ^ (ey - ex)).
  { change 2 with (2 ^ 1) at 1. apply Z.pow_le_mono_r; lia. }
  assert (H3 : 2 ^ prec = 2 * 2 ^ (prec - 1)).
  { rewrite <- Z.pow_succ_r by (unfold prec; lia). f_equal. }
  nia.
Qed.

Lemma SFsub_sign : forall x y,
  valid_binary x = true -> valid_binary y = true ->
  x <> S754_nan -> y <> S754_nan ->
  sfPositive (SFsub prec emax y x) = SFltb x y.
Proof.
  intros x y Vx Vy Nx Ny. unfold sfPositive.
  destruct x as [sx|sx| |sx mx ex]; try congruence;
    destruct y as [sy|sy| |sy my ey]; try congruence;
    try (destruct sx; destruct sy; reflexivity);
    try (destruct sx; reflexivity);
    try (destruct sy; reflexivity).
  simpl in Vx, Vy. unfold SFsub.
  destruct (bounded_facts mx ex Vx) as (Hex & _).
  destruct (bounded_facts my ey Vy) as (Hey & _).
  destruct (binary_normalize_sign
              (cond_Zopp sy (Zpos (fst (shl_align my ey (Z.min ey ex))))
               - cond_Zopp sx (Zpos (fst (shl_align mx ex (Z.min ey ex)))))
              (Z.min ey ex) ltac:(lia)) as [Hs _].
  unfold sfPositive in Hs. cbv zeta. rewrite Hs. clear Hs.
  rewrite !shl_align_value by lia.
  unfold SFltb, SFcompare.
  change (Pos.compare_cont Eq mx my) with (Pos.compare mx my).
  assert (Hpx : 0 < 2 ^ (ex - Z.min ey ex)) by (apply Z.pow_pos_nonneg; lia).
  assert (Hpy : 0 < 2 ^ (ey - Z.min ey ex)) by (apply Z.pow_pos_nonneg; lia).
  destruct (Z.compare_spec ex ey) as [He|He|He].
  - subst ey. rewrite Z.min_id, Z.sub_diag in *. simpl (2 ^ 0).
    destruct (Pos.compare_spec mx my) as [Hm|Hm|Hm];
      destruct sx, sy; cbv beta iota delta [CompOpp cond_Zopp];
      try (apply Z.ltb_lt; lia); try (apply Z.ltb_ge; lia).
  - pose proof (aligned_lt mx ex my ey Vx Vy He) as Hal.
    rewrite Z.min_r in * by lia. rewrite Z.sub_diag in *. simpl (2 ^ 0) in *.
    destruct sx, sy; cbv beta iota delta [CompOpp cond_Zopp];
      try (apply Z.ltb_lt; lia); try (apply Z.ltb_ge; lia).
  - pose proof (aligned_lt my ey mx ex Vy Vx He) as Hal.
    rewrite Z.min_l in * by lia. rewrite Z.sub_diag in *. simpl (2 ^ 0) in *.
    destruct sx, sy; cbv beta iota delta [CompOpp cond_Zopp];
      try (apply Z.ltb_lt; lia); try (apply Z.ltb_ge; lia).
Qed.

(** The sign of a difference of two numbers is their order. *)
Lemma sub_positive_iff_lt : forall x y : float,
  PrimFloat.is_nan x = false -> PrimFloat.is_nan y = false ->
  (0 <? y - x)%float = (x <? y)%float.
Proof.
  intros x y Hx Hy.
  assert (Nx : Prim2SF x <> S754_nan).
  { intro Hn. unfold PrimFloat.is_nan in Hx. rewrite FloatAxioms.eqb_spec, Hn in Hx. discriminate. }
  assert (Ny : Prim2SF y <> S754_nan).
  { intro Hn. unfold PrimFloat.is_nan in Hy. rewrite FloatAxioms.eqb_spec, Hn in Hy. discriminate. }
  rewrite !ltb_spec, sub_spec.
  change (Prim2SF 0) with (S754_zero false).
  apply (SFsub_sign _ _ (Prim2SF_valid x) (Prim2SF_valid y) Nx Ny).
Qed.

End DifferenceSign.

(* ---- the order of binary64 numbers ---- *)

Lemma SFltb_lt3 : forall x y,
  x <> S754_nan -> y <> S754_nan ->
  (SFltb x y = true <-> lt3 (sfKey x) (sfKey y)).
Proof.
  intros x y Hx Hy. unfold SFltb, lt3.
  destruct x as [sx|sx| |sx mx ex]; try congruence;
    destruct y as [sy|sy| |sy my ey]; try congruence;
    try destruct sx; try destruct sy; simpl;
    try (split; [discriminate | lia]);
    try (split; [intros _; lia | reflexivity]).
  - change (Pos.compare_cont Eq mx my) with (Pos.compare mx my).
    destruct (Z.compare_spec ex ey) as [He|He|He];
      destruct (Pos.compare_spec mx my) as [Hm|Hm|Hm]; simpl;
      split; intro Hlt; try discriminate; try reflexivity; try lia.
  - change (Pos.compare_cont Eq mx my) with (Pos.compare mx my).
    destruct (Z.compare_spec ex ey) as [He|He|He];
      destruct (Pos.compare_spec mx my) as [Hm|Hm|Hm]; simpl;
      split; intro Hlt; try discriminate; try reflexivity; try lia.
Qed.

Lemma is_nan_Prim2SF : forall x,
  PrimFloat.is_nan x = false -> Prim2SF x <> S754_nan.
Proof.
  intros x Hx Hnan. unfold PrimFloat.is_nan in Hx.
  rewrite FloatAxioms.eqb_spec, Hnan in Hx. discriminate.
Qed.

Lemma ltb_true_not_nan : forall x y,
  (x <? y)%float = true -> Prim2SF x <> S754_nan /\ Prim2SF y <> S754_nan.
Proof.
  intros x y Hlt. rewrite ltb_spec in Hlt. unfold SFltb in Hlt.
  split; intro Hnan; rewrite Hnan in Hlt.
  - discriminate.
  - destruct (Prim2SF x); discriminate.
Qed.

(** [<] on numbers is asymmetric. *)
Lemma ltb_asym : forall x y, (x <? y)%float = true -> (y <? x)%float = false.
Proof.
  intros x y Hlt. destruct (ltb_true_not_nan x y Hlt) as [Hx Hy].
  destruct (y <? x)%float eqn:Hyx; [|reflexivity].
  rewrite ltb_spec in Hlt, Hyx.
  apply (SFltb_lt3 _ _ Hx Hy) in Hlt. apply (SFltb_lt3 _ _ Hy Hx) in Hyx.
  unfold lt3 in *. lia.
Qed.

(** A number that is not [NaN] lies above the smaller or below the larger
    of two numbers in order. *)
Lemma ltb_negtrans : forall x y z,
  PrimFloat.is_nan y = false ->
  (x <? z)%float = true -> (x <? y)%float = true \/ (y <? z)%float = true.
Proof.
  intros x y z Hy Hlt. apply is_nan_Prim2SF in Hy.
  destruct (ltb_true_not_nan x z Hlt) as [Hx Hz].
  rewrite !ltb_spec. rewrite ltb_spec in Hlt.
  apply (SFltb_lt3 _ _ Hx Hz) in Hlt.
  assert (Hcases : lt3 (sfKey (Prim2SF x)) (sfKey (Prim2SF y))
                   \/ lt3 (sfKey (Prim2SF y)) (sfKey (Prim2SF z))).
  { unfold lt3 in *. lia. }
  destruct Hcases as [Hc|Hc]; [left | right]; apply SFltb_lt3; assumption.
Qed.

(* ---- sums of numbers that are not negative ---- *)

Section SumSign.
Local Open Scope Z_scope.

End SumSign.




(** *** The score in binary64 *)








(* ================================================================= *)
(** ** Tables *)

Section TableFacts.
Context {A : Type} (key : A -> string).

Lemma tbl_get_key : forall k t r, tbl_get key k t = Some r -> key r = k.
Proof.
  intros k t r Hg. unfold tbl_get in Hg.
  apply find_some in Hg. destruct Hg as [_ Hk].
  apply String.eqb_eq in Hk. exact Hk.
Qed.

Lemma tbl_get_In : forall k t r, tbl_get key k t = Some r -> In r t.
Proof.
  intros k t r Hg. unfold tbl_get in Hg. apply find_some in Hg. tauto.
Qed.

Lemma In_tbl_get : forall t r, In r t -> tbl_get key (key r) t <> None.
Proof.
  intros t r Hin Hnone. unfold tbl_get in Hnone.
  eapply find_none in Hnone; [|exact Hin].
  rewrite String.eqb_refl in Hnone. discriminate.
Qed.

Lemma tbl_get_update_same : forall k f t,
  (forall r, key (f r) = key r) ->
  tbl_get key k (tbl_update key k f t) = option_map f (tbl_get key k t).
Proof.
  intros k f t Hf. unfold tbl_get, tbl_update.
  induction t as [|r t IH]; simpl; [reflexivity|].
  destruct (key r =? k)%string eqn:Hk.
  - rewrite Hf, Hk. reflexivity.
  - rewrite Hk. exact IH.
Qed.

Lemma tbl_get_update_other : forall k k' f t,
  (forall r, key (f r) = key r) -> k' <> k ->
  tbl_get key k' (tbl_update key k f t) = tbl_get key k' t.
Proof.
  intros k k' f t Hf Hne. unfold tbl_get, tbl_update.
  induction t as [|r t IH]; simpl; [reflexivity|].
  destruct (key r =? k)%string eqn:Hk.
  - rewrite Hf. apply String.eqb_eq in Hk.
    assert (Hk' : (key r =? k')%string = false).
    { apply String.eqb_neq. congruence. }
    rewrite Hk'. exact IH.
  - destruct (key r =? k')%string; [reflexivity | exact IH].
Qed.

Lemma compare_refl : forall s, String.compare s s = Eq.
Proof. intro s. apply (proj2 (String_as_OT.cmp_eq s s)). reflexivity. Qed.

Lemma tbl_get_put_same : forall r t, tbl_get key (key r) (tbl_put key r t) = Some r.
Proof.
  intros r t. unfold tbl_get.
  induction t as [|r' t IH]; simpl.
  - rewrite String.eqb_refl. reflexivity.
  - destruct (String.compare (key r) (key r')) eqn:Hc; simpl.
    + rewrite String.eqb_refl. reflexivity.
    + rewrite String.eqb_refl. reflexivity.
    + assert (Hne : (key r' =? key r)%string = false).
      { apply String.eqb_neq. intro Heq. rewrite Heq, compare_refl in Hc.
        discriminate. }
      rewrite Hne. exact IH.
Qed.

Lemma tbl_get_put_other : forall k r t,
  k <> key r -> tbl_get key k (tbl_put key r t) = tbl_get key k t.
Proof.
  intros k r t Hne. unfold tbl_get.
  assert (Hr : (key r =? k)%string = false) by (apply String.eqb_neq; congruence).
  induction t as [|r' t IH]; simpl.
  - rewrite Hr. reflexivity.
  - destruct (String.compare (key r) (key r')) eqn:Hc; simpl.
    + apply String.compare_eq_iff in Hc. rewrite Hr, <- Hc, Hr. reflexivity.
    + rewrite Hr. reflexivity.
    + destruct (key r' =? k)%string; [reflexivity | exact IH].
Qed.

Lemma str_lt_irrefl : forall s, ~ str_lt s s.
Proof. intros s Hs. unfold str_lt in Hs. rewrite compare_refl in Hs. discriminate. Qed.

Lemma tbl_ok_NoDup : forall t, tbl_ok key t -> NoDup (map key t).
Proof.
  intros t Hok. induction Hok as [|r t Hok IH Hall]; simpl; constructor.
  - intro Hin. apply in_map_iff in Hin. destruct Hin as [r' [Hk Hin']].
    rewrite Forall_forall in Hall. specialize (Hall r' Hin').
    rewrite Hk in Hall. exact (str_lt_irrefl _ Hall).
  - exact IH.
Qed.

(** In a well-formed table a row is found under its own key. *)
Lemma tbl_ok_get_In : forall t r, tbl_ok key t -> In r t -> tbl_get key (key r) t = Some r.
Proof.
  intros t r Hok. unfold tbl_get.
  induction Hok as [|r' t Hok IH Hall]; intro Hin; simpl; [contradiction|].
  destruct Hin as [-> | Hin].
  - rewrite String.eqb_refl. reflexivity.
  - rewrite Forall_forall in Hall. specialize (Hall r Hin).
    assert (Hne : (key r' =? key r)%string = false).
    { apply String.eqb_neq. intro Heq. rewrite Heq in Hall.
      exact (str_lt_irrefl _ Hall). }
    rewrite Hne. apply IH. exact Hin.
Qed.

Lemma tbl_ok_filter : forall f t, tbl_ok key t -> tbl_ok key (filter f t).
Proof.
  intros f t Hok. induction Hok as [|r t Hok IH Hall]; simpl; [constructor|].
  destruct (f r); [|exact IH].
  constructor; [exact IH|].
  rewrite Forall_forall in *. intros x Hx. apply filter_In in Hx. apply Hall. tauto.
Qed.
End TableFacts.

Lemma applyChanges_vocabId : forall c v, vocabId (applyChanges c v) = vocabId v.
Proof. reflexivity. Qed.

(* ================================================================= *)
(** ** Rating *)

(** C9.  Rating an existing score-locked entry is rejected with a
    validation error before anything is written: the store, the write log
    and the UUID counter included, is unchanged. *)
Theorem C9_rate_locked_rejected :
  forall (H : Host) (now : Z) (payload : RateWordPayload) (w : World)
         (id : string) (v : VocabEntity),
    rw_vocabId payload = Some id ->
    tbl_get vocabId id (vocabulary w) = Some v ->
    scoreLocked v = Some true ->
    exists message,
      handleRateWord now payload w = (Rejected (VALIDATION_ERROR message), w).
Proof.
  intros H now payload w id v Hid Hget Hlock.
  unfold handleRateWord. rewrite Hid.
  destruct (truthyStr (Some id)) eqn:Ht; simpl.
  - unfold bind, reads. rewrite Hget. rewrite Hlock. simpl.
    eexists. reflexivity.
  - eexists. reflexivity.
Qed.

Lemma C9_rate_locked_rejected_witness :
  exists message,
    handleRateWord (H := exampleHost) 1000
      {| rw_vocabId := Some "v1"; rw_rating := "known" |}
      (worldOf [entry "v1" "the" 100 true true false true] [])
    = (Rejected (VALIDATION_ERROR message),
       worldOf [entry "v1" "the" 100 true true false true] []).
Proof.
  apply (@C9_rate_locked_rejected exampleHost 1000
           {| rw_vocabId := Some "v1"; rw_rating := "known" |}
           (worldOf [entry "v1" "the" 100 true true false true] [])
           "v1" (entry "v1" "the" 100 true true false true));
    reflexivity.
Defined.

(* ================================================================= *)
(** ** Running handlers *)

Lemma bind_Resolved_inv : forall {A B} (m : Async A) (k : A -> Async B) w b w',
  bind m k w = (Resolved b, w') ->
  exists a w1, m w = (Resolved a, w1) /\ k a w1 = (Resolved b, w').
Proof.
  intros A B m k w b w' Hb. unfold bind in Hb.
  destruct (m w) as [[a|e] w1]; [|discriminate].
  exists a, w1. split; [reflexivity | exact Hb].
Qed.

Ltac inv_bind H :=
  let a := fresh "a" in
  let w1 := fresh "w" in
  let H1 := fresh "Hrun" in
  apply bind_Resolved_inv in H; destruct H as [a [w1 [H1 H]]].

Ltac inv_ret H := unfold ret in H; inversion H; subst; clear H.

Section HandlerFacts.
Context {H : Host}.

Lemma recalc_locked_noop : forall now id w v,
  tbl_get vocabId id (vocabulary w) = Some v ->
  scoreLocked v = Some true ->
  recalcVocabScore now id w = (Resolved tt, w).
Proof.
  intros now id w v Hget Hlock. unfold recalcVocabScore, bind, reads.
  rewrite Hget, Hlock. simpl. rewrite orb_true_r. reflexivity.
Qed.

Lemma resolveEncounterVocab_spec : forall now data w id surf w1 v,
  tbl_ok vocabId (vocabulary w) ->
  resolveEncounterVocab now data w = (Resolved (id, surf), w1) ->
  tbl_get vocabId id (vocabulary w) = Some v ->
  encounters w1 = encounters w
  /\ exists v1, tbl_get vocabId id (vocabulary w1) = Some v1
                /\ scoreLocked v1 = scoreLocked v.
Proof.
  intros now data w id surf w1 v Hok Hrun Hget.
  unfold resolveEncounterVocab in Hrun.
  destruct (negb (truthyStr (re_vocabId data))).
  - destruct (re_word data) as [word|]; [|discriminate].
    destruct (trim word =? "")%string; [discriminate|].
    inv_bind Hrun. inv_ret Hrun.
    unfold handleUpsertVocab in Hrun0. simpl in Hrun0.
    destruct (trim (normalizeLemma word) =? "")%string; [discriminate|].
    unfold bind at 1, reads at 1 in Hrun0. simpl in Hrun0.
    unfold bind at 1, reads at 1 in Hrun0.
    destruct (findByLemma _ _ (vocabulary w)) as [found|] eqn:Hfound.
    + unfold bind, vocab_put, modify, ret in Hrun0. simpl in Hrun0.
      inversion Hrun0; subst; clear Hrun0. simpl in *.
      unfold findByLemma in Hfound. apply find_some in Hfound.
      destruct Hfound as [Hin _].
      rewrite (@tbl_ok_get_In _ vocabId _ _ Hok Hin) in Hget. inversion Hget; subst.
      split; [reflexivity|].
      eexists. split.
      * match goal with |- tbl_get _ _ (tbl_put _ ?u _) = _ =>
          exact (@tbl_get_put_same _ vocabId u (vocabulary w)) end.
      * reflexivity.
    + unfold bind at 1, freshUUID in Hrun0.
      unfold bind, vocab_add in Hrun0. simpl in Hrun0.
      destruct (tbl_get vocabId (randomUUID (uuidCount w)) (vocabulary w)) eqn:Hfresh;
        [discriminate|].
      unfold ret in Hrun0. inversion Hrun0; subst; clear Hrun0. simpl in *.
      congruence.
  - unfold bind, reads in Hrun.
    destruct (tbl_get vocabId (nullish (re_vocabId data) "") (vocabulary w)) as [vocab|];
      [|discriminate].
    destruct (truthyNum (deletedAt vocab)); [discriminate|].
    inv_ret Hrun. split; [reflexivity|].
    exists v. split; [exact Hget | reflexivity].
Qed.

End HandlerFacts.

(* ================================================================= *)
(** ** Recording encounters *)

(** C10.  When [handleRecordEncounter] inserts a new encounter with source
    [lookup] for an entry that was score-locked, and the entry then has at
    least two lookup encounters, the entry leaves the call unlocked with
    score 0, not known and no longer noise-managed. *)
Theorem C10_lookup_auto_unlock :
  forall (H : Host) (now : Z) (data : RecordEncounterPayload) (w w' : World)
         (enc : EncounterEntity) (v : VocabEntity),
    tbl_ok vocabId (vocabulary w) ->
    handleRecordEncounter now data w = (Resolved enc, w') ->
    tbl_get enc_encounterId (enc_encounterId enc) (encounters w) = None ->
    enc_source enc = "lookup" ->
    tbl_get vocabId (enc_vocabId enc) (vocabulary w) = Some v ->
    scoreLocked v = Some true ->
    (2 <= lookupCountOf (enc_vocabId enc) w')%nat ->
    exists v',
      tbl_get vocabId (enc_vocabId enc) (vocabulary w') = Some v'
      /\ scoreLocked v' = Some false
      /\ familiarityScore v' = Some 0
      /\ isKnown v' = Some false
      /\ noiseManaged v' = Some false.
Proof.
  intros H now data w w' enc v Hok Hrun Hnew Hsrc Hget Hlock Hcount.
  unfold handleRecordEncounter in Hrun.
  destruct (trim (re_pageUrl data) =? "")%string; [discriminate|].
  inv_bind Hrun. destruct a as [id surf]. simpl in Hrun.
  destruct (urlHost (re_pageUrl data)) as [pageHost|]; [|discriminate].
  unfold bind at 1, reads at 1 in Hrun.
  destruct (recentEncounter now data id w0) as [recent|] eqn:Hrecent.
  - (* dedup hit: the returned row was already stored *)
    exfalso.
    unfold bind, enc_update, modify, ret in Hrun. inversion Hrun; subst; clear Hrun.
    assert (Henc : encounters w0 = encounters w).
    { destruct (tbl_get vocabId id (vocabulary w)) as [v0|] eqn:Hv0.
      - exact (proj1 (resolveEncounterVocab_spec _ _ _ _ _ _ _ Hok Hrun0 Hv0)).
      - unfold recentEncounter in Hrecent.
        destruct (_ || _); [|discriminate].
        apply find_some in Hrecent. destruct Hrecent as [Hin _].
        unfold encountersOf in Hin. apply filter_In in Hin.
        destruct Hin as [_ Hid]. apply String.eqb_eq in Hid.
        rewrite Hid in Hget. congruence. }
    unfold recentEncounter in Hrecent.
    destruct (_ || _); [|discriminate].
    apply find_some in Hrecent. destruct Hrecent as [Hin _].
    unfold encountersOf in Hin. apply filter_In in Hin. destruct Hin as [Hin _].
    rewrite Henc in Hin.
    exact (In_tbl_get enc_encounterId _ _ Hin Hnew).
  - unfold bind at 1, freshUUID at 1 in Hrun.
    inv_bind Hrun. inv_bind Hrun. inv_bind Hrun. inv_ret Hrun.
    simpl in Hsrc, Hget, Hcount |- *.
    destruct (resolveEncounterVocab_spec _ _ _ _ _ _ _ Hok Hrun0 Hget) as [Henc [v1 [Hv1 Hl1]]].
    (* the insert *)
    unfold enc_add in Hrun1. simpl in Hrun1.
    destruct (tbl_get enc_encounterId _ (encounters w0)); [discriminate|].
    inversion Hrun1; subst; clear Hrun1.
    (* the recompute skips a locked entry *)
    erewrite (recalc_locked_noop now id _ v1) in Hrun2;
      [| simpl; exact Hv1 | congruence].
    inversion Hrun2; subst; clear Hrun2.
    (* the auto-unlock *)
    unfold autoUnlockAfterLookup in Hrun3. simpl in Hrun3.
    rewrite Hsrc in Hrun3. simpl in Hrun3.
    unfold bind at 1, reads at 1 in Hrun3. simpl in Hrun3.
    rewrite Hv1 in Hrun3.
    replace (truthy (scoreLocked v1)) with true in Hrun3
      by (rewrite Hl1, Hlock; reflexivity).
    unfold bind at 1, reads at 1 in Hrun3.
    match type of Hrun3 with
    | context [lookupCountOf id ?x] =>
        remember (lookupCountOf id x) as n eqn:Hn
    end.
    destruct n as [|[|n]].
    + exfalso. unfold ret in Hrun3. inversion Hrun3; subst; clear Hrun3.
      rewrite <- Hn in Hcount. lia.
    + exfalso. unfold ret in Hrun3. inversion Hrun3; subst; clear Hrun3.
      rewrite <- Hn in Hcount. lia.
    + unfold resetNoiseWordFields, vocab_update, modify in Hrun3.
      inversion Hrun3; subst; clear Hrun3. simpl.
      rewrite tbl_get_update_same by apply applyChanges_vocabId.
      rewrite Hv1. simpl. eexists. split; [reflexivity|].
      repeat split; reflexivity.
Qed.

Lemma C10_lookup_auto_unlock_witness :
  exists v',
    tbl_get vocabId "v1" (vocabulary (snd lookupRun)) = Some v'
    /\ scoreLocked v' = Some false
    /\ familiarityScore v' = Some 0
    /\ isKnown v' = Some false
    /\ noiseManaged v' = Some false.
Proof.
  apply (C10_lookup_auto_unlock exampleHost 1000000000 lookupPayload
           lookupWorld (snd lookupRun) lookupEncounter
           (entry "v1" "the" 100 true true false true)).
  - repeat constructor.
  - vm_compute. reflexivity.
  - reflexivity.
  - reflexivity.
  - reflexivity.
  - reflexivity.
  - vm_compute. lia.
Defined.

(* ================================================================= *)
(** ** Frames: what a handler leaves alone *)

Section Frames.
Context {X : Type} (proj : World -> X).

Lemma frames_ret : forall A (a : A), frames proj (ret a).
Proof. intros A a w. reflexivity. Qed.


Lemma frames_reads : forall A (f : World -> A), frames proj (reads f).
Proof. intros A f w. reflexivity. Qed.

Lemma frames_bind : forall A B (m : Async A) (k : A -> Async B),
  frames proj m -> (forall a, frames proj (k a)) -> frames proj (bind m k).
Proof.
  intros A B m k Hm Hk w. unfold bind.
  specialize (Hm w). destruct (m w) as [[a|e] w1]; simpl in *.
  - rewrite Hk. exact Hm.
  - exact Hm.
Qed.

Lemma frames_forEach : forall A (xs : list A) (body : A -> Async unit),
  (forall x, frames proj (body x)) -> frames proj (forEach xs body).
Proof.
  intros A xs body Hb. induction xs as [|x xs IH]; simpl.
  - apply frames_ret.
  - apply frames_bind; [apply Hb | intros _; exact IH].
Qed.


Lemma frames_if : forall A (b : bool) (m1 m2 : Async A),
  frames proj m1 -> frames proj m2 -> frames proj (if b then m1 else m2).
Proof. intros A b m1 m2 H1 H2. destruct b; assumption. Qed.


Lemma frames_run : forall A (m : Async A) w r w',
  frames proj m -> m w = (r, w') -> proj w' = proj w.
Proof. intros A m w r w' Hm Hrun. specialize (Hm w). rewrite Hrun in Hm. exact Hm. Qed.
End Frames.

Lemma frames_vocab_update_settings : forall id c, frames settings (vocab_update id c).
Proof. intros id c w. reflexivity. Qed.

Lemma frames_vocab_add_settings : forall v, frames settings (vocab_add v).
Proof.
  intros v w. unfold vocab_add.
  destruct (tbl_get vocabId (vocabId v) (vocabulary w)); reflexivity.
Qed.

Lemma frames_freshUUID_settings : forall (H : Host), frames settings freshUUID.
Proof. intros H w. reflexivity. Qed.

(* ================================================================= *)
(** ** Noise-word reconciliation *)

Lemma noiseConfigKey_ext : forall (H : Host) wa wb,
  settingValue "noiseWordbankId" wa = settingValue "noiseWordbankId" wb ->
  settingValue "noiseManualAdd" wa = settingValue "noiseManualAdd" wb ->
  settingValue "noiseManualRemove" wa = settingValue "noiseManualRemove" wb ->
  noiseConfigKey wa = noiseConfigKey wb.
Proof.
  intros H wa wb H1 H2 H3. unfold noiseConfigKey, noiseSourceOf.
  rewrite H1, H2, H3. reflexivity.
Qed.

Lemma settingValue_settings : forall k wa wb,
  settings wa = settings wb -> settingValue k wa = settingValue k wb.
Proof. intros k wa wb Hs. unfold settingValue. rewrite Hs. reflexivity. Qed.

(** A completed reconciliation leaves the hash of the configuration it ran
    on in the settings, and no other setting changes. *)
Lemma sync_records_hash : forall (H : Host) now force w w1,
  syncNoiseWordsFromSettings now force w = (Resolved tt, w1) ->
  settingValue "noiseConfigHash" w1 = Some (SStr (noiseConfigKey w1)).
Proof.
  intros H now force w w1 Hrun.
  unfold syncNoiseWordsFromSettings in Hrun.
  unfold bind at 1, reads at 1 in Hrun.
  unfold bind at 1, reads at 1 in Hrun.
  destruct (negb force && _) eqn:Hskip.
  - inv_ret Hrun. apply andb_true_iff in Hskip. destruct Hskip as [_ Hprev].
    destruct (settingValue "noiseConfigHash" w1) as [[| | |prev|]|]; try discriminate.
    apply String.eqb_eq in Hprev. rewrite Hprev. reflexivity.
  - unfold bind at 1, reads at 1 in Hrun.
    unfold bind at 1, reads at 1 in Hrun.
    inv_bind Hrun. inv_bind Hrun.
    assert (Hs0 : settings w0 = settings w).
    { eapply (frames_run settings); [|exact Hrun0].
      apply frames_forEach. intro v.
      apply frames_if; [apply frames_vocab_update_settings | apply frames_ret]. }
    assert (Hs2 : settings w2 = settings w0).
    { eapply (frames_run settings); [|exact Hrun1].
      apply frames_forEach. intro l.
      apply frames_bind; [apply frames_reads|]. intros [existing|].
      - apply frames_if; [apply frames_ret | apply frames_vocab_update_settings].
      - apply frames_bind; [apply frames_freshUUID_settings|].
        intro id. apply frames_vocab_add_settings. }
    unfold settings_put, modify in Hrun. inversion Hrun; subst; clear Hrun.
    assert (Hother : forall k, k <> "noiseConfigHash" ->
      forall wx, settings wx = tbl_put kv_key
                   {| kv_key := "noiseConfigHash";
                      kv_value := SStr (noiseConfigKey w);
                      kv_updatedAt := now |} (settings w2) ->
      settingValue k wx = settingValue k w).
    { intros k Hk wx Hwx. unfold settingValue. rewrite Hwx.
      rewrite tbl_get_put_other by exact Hk. rewrite Hs2, Hs0. reflexivity. }
    match goal with |- settingValue _ ?wf = _ => set (wfinal := wf) end.
    assert (Hkey : noiseConfigKey wfinal = noiseConfigKey w).
    { apply noiseConfigKey_ext; apply Hother; try discriminate; reflexivity. }
    rewrite Hkey. unfold settingValue, wfinal. simpl.
    match goal with
    | |- context [tbl_put kv_key ?r ?t] =>
        pose proof (tbl_get_put_same kv_key r t) as Hp
    end.
    cbn [kv_key] in Hp. rewrite Hp. reflexivity.
Qed.

(** C7.  After a reconciliation has completed, a further non-forced call
    on a store with the same settings returns at once: the store and the
    write log are exactly what they were. *)
Theorem C7_sync_twice_no_writes :
  forall (H : Host) (now1 now2 : Z) (force : bool) (w w1 w2 : World),
    syncNoiseWordsFromSettings now1 force w = (Resolved tt, w1) ->
    settings w2 = settings w1 ->
    syncNoiseWordsFromSettings now2 false w2 = (Resolved tt, w2)
    /\ writes (snd (syncNoiseWordsFromSettings now2 false w2)) = writes w2.
Proof.
  intros H now1 now2 force w w1 w2 Hrun Hsame.
  assert (Hgoal : syncNoiseWordsFromSettings now2 false w2 = (Resolved tt, w2)).
  { pose proof (sync_records_hash H now1 force w w1 Hrun) as Hhash.
    unfold syncNoiseWordsFromSettings.
    unfold bind at 1, reads at 1. unfold bind at 1, reads at 1.
    rewrite (settingValue_settings "noiseConfigHash" w2 w1 Hsame), Hhash.
    rewrite (noiseConfigKey_ext H w2 w1)
      by (apply settingValue_settings; exact Hsame).
    rewrite String.eqb_refl. reflexivity. }
  split; [exact Hgoal | rewrite Hgoal; reflexivity].
Qed.

Lemma C7_sync_twice_no_writes_witness :
  syncNoiseWordsFromSettings (H := exampleHost) 6 false noiseSynced
    = (Resolved tt, noiseSynced)
  /\ writes (snd (syncNoiseWordsFromSettings (H := exampleHost) 6 false noiseSynced))
     = writes noiseSynced.
Proof.
  apply (C7_sync_twice_no_writes exampleHost 5 6 true noiseWorld noiseSynced noiseSynced).
  - vm_compute. reflexivity.
  - reflexivity.
Defined.

(* ================================================================= *)
(** ** Trace toggling and the noise lock *)

(** C3.  Tracing a noise-locked entry through [handleToggleTraceWord]
    leaves it locked: the handler writes [isTraced], the score and
    [isKnown], and never [scoreLocked].  The entry ends up both locked and
    traced. *)
Theorem C3_toggle_trace_keeps_lock :
  forall (now : Z) (w : World) (id : string) (v : VocabEntity),
    id <> "" ->
    tbl_get vocabId id (vocabulary w) = Some v ->
    scoreLocked v = Some true ->
    isTraced v <> Some true ->
    exists r w' v',
      handleToggleTraceWord now {| tt_vocabId := Some id; tt_traced := true |} w
        = (Resolved r, w')
      /\ tbl_get vocabId id (vocabulary w') = Some v'
      /\ scoreLocked v' = Some true
      /\ isTraced v' = Some true
      /\ lockedAndTraced v' = true.
Proof.
  intros now w id v Hid Hget Hlock Hnot.
  unfold handleToggleTraceWord. simpl.
  assert (Hne : (id =? "")%string = false) by (apply String.eqb_neq; exact Hid).
  rewrite Hne. simpl.
  unfold bind at 1, reads at 1. rewrite Hget.
  assert (Hcmp : match isTraced v with
                 | Some b => Bool.eqb b true
                 | None => false
                 end = false).
  { destruct (isTraced v) as [[|]|]; try reflexivity. congruence. }
  rewrite Hcmp.
  unfold bind, reads, vocab_update, modify, ret. simpl.
  do 3 eexists. split; [reflexivity|]. simpl.
  rewrite tbl_get_update_same by apply applyChanges_vocabId.
  rewrite Hget. simpl. split; [reflexivity|].
  unfold lockedAndTraced. simpl. rewrite Hlock. repeat split; reflexivity.
Qed.

Lemma C3_toggle_trace_keeps_lock_witness :
  exists r w' v',
    handleToggleTraceWord 13 {| tt_vocabId := Some "v1"; tt_traced := true |}
      (worldOf [entry "v1" "the" 100 true true false true] [])
      = (Resolved r, w')
    /\ tbl_get vocabId "v1" (vocabulary w') = Some v'
    /\ scoreLocked v' = Some true
    /\ isTraced v' = Some true
    /\ lockedAndTraced v' = true.
Proof.
  apply (C3_toggle_trace_keeps_lock 13
           (worldOf [entry "v1" "the" 100 true true false true] [])
           "v1" (entry "v1" "the" 100 true true false true)).
  - discriminate.
  - reflexivity.
  - reflexivity.
  - discriminate.
Defined.

(** The session reaches a store in which the entry is locked, traced and
    scored 100.2 (one scan and ten known-ratings, doubled), with [isKnown]
    in line with the score. *)
Lemma session_before_resync :
  exists v,
    vocabulary sessionTraced = [v]
    /\ scoreLocked v = Some true /\ noiseManaged v = Some true
    /\ isTraced v = Some true
    /\ isKnown v = Some true
    /\ (exists s, familiarityScore v = Some s /\ s == 100.2)
    /\ knownConsistent v = true.
Proof.
  eexists. split; [vm_compute; reflexivity|].
  repeat split; try reflexivity.
  eexists. split; reflexivity.
Qed.

(** C2.  Reconciling after that leaves the entry with its score of 100.2
    and [isKnown = false]: the unlock branch keeps the stored score of a traced
    entry and clears [isKnown] without comparing the two. *)
Theorem C2_resync_breaks_known_flag :
  exists v,
    vocabulary sessionResynced = [v]
    /\ isKnown v = Some false
    /\ (exists s, familiarityScore v = Some s /\ s == 100.2)
    /\ reachesThreshold (nullish (familiarityScore v) 0) = true
    /\ knownConsistent v = false.
Proof.
  eexists. split; [vm_compute; reflexivity|].
  repeat split; try reflexivity.
  eexists. split; reflexivity.
Qed.

(* ================================================================= *)
(** ** Auto-trace replenishment *)

Section Updates.
Context {A : Type} (key : A -> string).

Lemma tbl_update_keys : forall k f t,
  (forall r, key (f r) = key r) ->
  map key (tbl_update key k f t) = map key t.
Proof.
  intros k f t Hf. unfold tbl_update. rewrite map_map.
  apply map_ext. intro r. destruct (key r =? k)%string; [apply Hf | reflexivity].
Qed.

Lemma tbl_update_absent : forall k f t,
  ~ In k (map key t) -> tbl_update key k f t = t.
Proof.
  intros k f t Hn. unfold tbl_update.
  induction t as [|r t IH]; simpl; [reflexivity|].
  destruct (key r =? k)%string eqn:Hk.
  - apply String.eqb_eq in Hk. exfalso. apply Hn. left. exact Hk.
  - f_equal. apply IH. intro Hin. apply Hn. right. exact Hin.
Qed.

(** With unique keys an update changes one row, so a count moves by at
    most one. *)
Lemma tbl_update_count : forall (P : A -> bool) k f t,
  NoDup (map key t) ->
  (List.length (filter P (tbl_update key k f t))
   <= S (List.length (filter P t)))%nat.
Proof.
  intros P k f t Hnd. induction t as [|r t IH]; simpl; [lia|].
  inversion Hnd as [|x xs Hnotin Hnd']; subst.
  destruct (key r =? k)%string eqn:Hk.
  - apply String.eqb_eq in Hk. subst k.
    change (map (fun r0 => if (key r0 =? key r)%string then f r0 else r0) t)
      with (tbl_update key (key r) f t).
    rewrite tbl_update_absent by exact Hnotin.
    destruct (P (f r)), (P r); simpl; lia.
  - change (map (fun r0 => if (key r0 =? k)%string then f r0 else r0) t)
      with (tbl_update key k f t).
    specialize (IH Hnd'). destruct (P r); simpl; lia.
Qed.
End Updates.

Lemma updatedEach_keys : forall c ids t,
  map vocabId (updatedEach c ids t) = map vocabId t.
Proof.
  intros c ids. unfold updatedEach.
  induction ids as [|id ids IH]; intro t; simpl; [reflexivity|].
  rewrite IH. apply tbl_update_keys. apply applyChanges_vocabId.
Qed.

Lemma updatedEach_count : forall (P : VocabEntity -> bool) c ids t,
  NoDup (map vocabId t) ->
  (List.length (filter P (updatedEach c ids t))
   <= List.length (filter P t) + List.length ids)%nat.
Proof.
  intros P c ids. unfold updatedEach.
  induction ids as [|id ids IH]; intros t Hnd; simpl; [lia|].
  specialize (IH (tbl_update vocabId id (applyChanges c) t)).
  assert (Hnd' : NoDup (map vocabId (tbl_update vocabId id (applyChanges c) t))).
  { rewrite tbl_update_keys by apply applyChanges_vocabId. exact Hnd. }
  specialize (IH Hnd').
  pose proof (tbl_update_count vocabId P id (applyChanges c) t Hnd). lia.
Qed.

(** A loop of [update] calls always resolves; it appends one log entry
    per call and changes only the vocabulary. *)
Lemma forEach_vocab_update : forall {X} (ident : X -> string) c (xs : list X) w,
  exists w',
    forEach xs (fun x => vocab_update (ident x) c) w = (Resolved tt, w')
    /\ vocabulary w' = updatedEach c (map ident xs) (vocabulary w)
    /\ writes w' = (writes w
                    ++ map (fun id => (T_vocabulary, W_update, id)) (map ident xs))%list.
Proof.
  intros X ident c xs. induction xs as [|x xs IH]; intro w; simpl.
  - exists w. split; [reflexivity|]. split; [reflexivity|].
    rewrite app_nil_r. reflexivity.
  - unfold bind at 1, vocab_update at 1, modify.
    destruct (IH (logWrite T_vocabulary W_update (ident x)
                    (with_vocabulary (tbl_update vocabId (ident x) (applyChanges c)) w)))
      as [w' [Hrun [Hv Hw]]].
    exists w'. split; [exact Hrun|]. split.
    + rewrite Hv. reflexivity.
    + rewrite Hw. simpl. rewrite <- app_assoc. reflexivity.
Qed.

Lemma slice0_length : forall {A} (n : Z) (l : list A),
  (0 <= n)%Z -> List.length (slice0 n l) = Nat.min (Z.to_nat n) (List.length l).
Proof.
  intros A n l Hn. unfold slice0.
  destruct (n <? 0)%Z eqn:Hneg; [apply Z.ltb_lt in Hneg; lia|].
  apply length_firstn.
Qed.

(** C8.  Replenishment always completes; it issues one [isTraced: true]
    update per selected candidate and nothing else, selects at most
    [poolSize - activeTracedCount] candidates and none when that difference
    is not positive; so a pool that is within [poolSize] before stays within
    [poolSize]. *)
Theorem C8_replenish_bounded :
  forall (H : Host) (now : Z) (wordbankSet : list string) (w : World) (poolSize : Z),
    NoDup (map vocabId (vocabulary w)) ->
    numberSetting "autoTracePoolSize" 30 w = Some poolSize ->
    let w' := snd (autoTraceReplenish now wordbankSet w) in
    let slots := (poolSize - Z.of_nat (activeTracedCount w))%Z in
    fst (autoTraceReplenish now wordbankSet w) = Resolved tt
    /\ (exists flipped : list string,
          vocabulary w' = updatedEach (traceOn now) flipped (vocabulary w)
          /\ writes w' = (writes w
                          ++ map (fun id => (T_vocabulary, W_update, id)) flipped)%list
          /\ (Z.of_nat (List.length flipped) <= Z.max 0 slots)%Z)
    /\ ((Z.of_nat (activeTracedCount w) <= poolSize)%Z ->
        (Z.of_nat (activeTracedCount w') <= poolSize)%Z).
Proof.
  intros H now wordbankSet w poolSize Hnd Hpool w' slots.
  assert (Hmain :
    exists wf (flipped : list string),
      autoTraceReplenish now wordbankSet w = (Resolved tt, wf)
      /\ vocabulary wf = updatedEach (traceOn now) flipped (vocabulary w)
      /\ writes wf = (writes w
                      ++ map (fun id => (T_vocabulary, W_update, id)) flipped)%list
      /\ (Z.of_nat (List.length flipped) <= Z.max 0 slots)%Z).
  { unfold autoTraceReplenish.
    unfold bind at 1, reads at 1. unfold bind at 1, reads at 1.
    unfold bind at 1, reads at 1. rewrite Hpool.
    destruct (match settingValue "autoTraceEnabled" w with
              | Some (SBool false) => false
              | _ => true
              end).
    - unfold bind at 1, reads at 1. fold slots.
      destruct (0 <? slots)%Z eqn:Hslots.
      + apply Z.ltb_lt in Hslots.
        unfold bind at 1, reads at 1.
        set (sel := autoTraceSelection now wordbankSet slots
                      (numberSetting "autoTraceMinEncounters" 3 w) w).
        destruct (forEach_vocab_update (fun sv : VocabEntity * Q => vocabId (fst sv))
                    (traceOn now) sel w) as [wf [Hrun [Hv Hw]]].
        exists wf, (map (fun sv : VocabEntity * Q => vocabId (fst sv)) sel).
        split; [exact Hrun|]. split; [exact Hv|]. split; [exact Hw|].
        rewrite length_map. unfold sel, autoTraceSelection.
        rewrite slice0_length by lia. lia.
      + exists w, []. simpl. rewrite app_nil_r.
        repeat split; try reflexivity. lia.
    - exists w, []. simpl. rewrite app_nil_r.
      repeat split; try reflexivity. lia. }
  destruct Hmain as [wf [flipped [Hrun [Hv [Hw Hlen]]]]].
  subst w'. rewrite Hrun. simpl.
  split; [reflexivity|]. split; [exists flipped; auto|].
  intro Hbefore. unfold activeTracedCount at 1. rewrite Hv.
  pose proof (updatedEach_count isActiveTraced (traceOn now) flipped (vocabulary w) Hnd)
    as Hcount.
  unfold activeTracedCount in *. lia.
Qed.

Lemma C8_replenish_bounded_witness :
  fst (autoTraceReplenish (H := exampleHost) 50 [] poolWorld) = Resolved tt
  /\ (exists flipped : list string,
        vocabulary (snd (autoTraceReplenish (H := exampleHost) 50 [] poolWorld))
          = updatedEach (traceOn 50) flipped (vocabulary poolWorld)
        /\ writes (snd (autoTraceReplenish (H := exampleHost) 50 [] poolWorld))
           = (writes poolWorld
              ++ map (fun id => (T_vocabulary, W_update, id)) flipped)%list
        /\ (Z.of_nat (List.length flipped)
            <= Z.max 0 (2 - Z.of_nat (activeTracedCount poolWorld)))%Z)
  /\ ((Z.of_nat (activeTracedCount poolWorld) <= 2)%Z ->
      (Z.of_nat (activeTracedCount
                   (snd (autoTraceReplenish (H := exampleHost) 50 [] poolWorld)))
       <= 2)%Z).
Proof.
  apply (C8_replenish_bounded exampleHost 50 [] poolWorld 2).
  - simpl. repeat (constructor; [simpl; intuition discriminate|]). constructor.
  - reflexivity.
Defined.

(* ================================================================= *)
(** ** Sorting and slicing *)


Section SortFacts.
Context {A : Type} (after : A -> A -> bool).

Lemma sort_insert_perm : forall x l, Permutation (sort_insert after x l) (x :: l).
Proof.
  intros x l. induction l as [|y l IH]; simpl; [reflexivity|].
  destruct (after x y); [|reflexivity].
  rewrite IH. apply perm_swap.
Qed.

Lemma stable_sort_perm : forall l, Permutation (stable_sort after l) l.
Proof.
  induction l as [|x l IH]; simpl; [reflexivity|].
  rewrite sort_insert_perm. constructor. exact IH.
Qed.

Lemma stable_sort_length : forall l, List.length (stable_sort after l) = List.length l.
Proof. intro l. apply Permutation_length. apply stable_sort_perm. Qed.
End SortFacts.

Lemma slice0_firstn : forall {A} (n : Z) (l : list A),
  (0 <= n)%Z -> slice0 n l = firstn (Z.to_nat n) l.
Proof.
  intros A n l Hn. unfold slice0.
  destruct (n <? 0)%Z eqn:Hneg; [apply Z.ltb_lt in Hneg; lia | reflexivity].
Qed.



(* ================================================================= *)
(** ** Card drawing *)

Section DrawFacts.
Context {H : Host}.

Lemma lcgKeys_fst : forall items state, map fst (lcgKeys state items) = items.
Proof.
  induction items as [|it items IH]; intro state; simpl; [reflexivity|].
  rewrite IH. reflexivity.
Qed.

Lemma randomKeys_fst : forall items i, map fst (randomKeys i items) = items.
Proof.
  induction items as [|it items IH]; intro i; simpl; [reflexivity|].
  rewrite IH. reflexivity.
Qed.

Lemma handleDrawCard_selected : forall now calls payload w,
  handleDrawCard now calls payload w = map (toCard w) (drawSelected now calls payload w).
Proof.
  intros now calls payload w. unfold handleDrawCard, drawSelected.
  assert (Hempty : forall n seed,
    pickTopN [] n = [] /\ weightedSampleWithoutReplacement [] n seed calls = []).
  { intros n seed. unfold pickTopN, weightedSampleWithoutReplacement, slice0.
    destruct seed; simpl; destruct (n <? 0)%Z; simpl;
      rewrite ?firstn_nil; split; reflexivity. }
  destruct (drawCandidates w) as [|c cs] eqn:Hc.
  - simpl. unfold drawEligible. rewrite Hc. simpl.
    destruct (Hempty (nullish (dc_count payload) 10%Z) (dc_seed payload)) as [-> ->].
    destruct (_ =? _)%string; reflexivity.
  - simpl List.length. cbn [Nat.eqb].
    destruct (drawEligible w (nullish (dc_excludeIds payload) [])) as [|e es] eqn:He.
    + simpl.
      destruct (Hempty (nullish (dc_count payload) 10%Z) (dc_seed payload)) as [-> ->].
      destruct (_ =? _)%string; reflexivity.
    + reflexivity.
Qed.

Lemma toCard_vocabId : forall w s, card_vocabId (toCard w s) = vocabId (sc_vocab s).
Proof. reflexivity. Qed.



End DrawFacts.




(* ---- a stable sort under a comparator that is a strict weak order ---- *)

Lemma StronglySorted_impl_In : forall {A} (P Q : A -> A -> Prop) (l : list A),
  (forall a b, In a l -> In b l -> P a b -> Q a b) ->
  StronglySorted P l -> StronglySorted Q l.
Proof.
  intros A P Q l Himp Hs. induction Hs as [|x l Hs IH Hall]; constructor.
  - apply IH. intros a b Ha Hb. apply Himp; right; assumption.
  - rewrite Forall_forall in *. intros z Hz.
    apply Himp; [left; reflexivity | right; exact Hz | apply Hall; exact Hz].
Qed.

(** Sorting a list that is in ascending id order with a comparator that
    orders its items consistently leaves no item after one that the
    comparator puts behind it, and keeps the items that the comparator does
    not separate in ascending id order. *)
Section ConsistentSort.
Context {A : Type} (after : A -> A -> bool) (ident : A -> string).

Let before (a b : A) : Prop :=
  after a b = false /\ (after b a = false -> str_lt (ident a) (ident b)).

Let consistent (l : list A) : Prop :=
  (forall a b, In a l -> In b l -> after a b = true -> after b a = false)
  /\ (forall a b c, In a l -> In b l -> In c l ->
        after a c = true -> after a b = true \/ after b c = true).

Lemma insert_consistent : forall x s,
  consistent (x :: s) ->
  StronglySorted before s ->
  Forall (fun z => str_lt (ident x) (ident z)) s ->
  StronglySorted before (sort_insert after x s).
Proof.
  intros x s Hcons Hs. revert Hcons.
  induction Hs as [|y s Hs IH Hall]; intros [Hasym Hneg] Hx; simpl.
  - repeat constructor.
  - inversion Hx as [|y' s' Hxy Hxs]; subst.
    rewrite Forall_forall in Hall.
    destruct (after x y) eqn:Haft.
    + constructor.
      * apply IH; [|exact Hxs]. split.
        -- intros a b Ha Hb. apply Hasym.
           ++ destruct Ha as [<-|Ha]; [left; reflexivity | right; right; exact Ha].
           ++ destruct Hb as [<-|Hb]; [left; reflexivity | right; right; exact Hb].
        -- intros a b c Ha Hb Hc. apply Hneg.
           ++ destruct Ha as [<-|Ha]; [left; reflexivity | right; right; exact Ha].
           ++ destruct Hb as [<-|Hb]; [left; reflexivity | right; right; exact Hb].
           ++ destruct Hc as [<-|Hc]; [left; reflexivity | right; right; exact Hc].
      * apply Forall_forall. intros z Hz.
        apply (Permutation_in _ (sort_insert_perm after x s)) in Hz.
        destruct Hz as [<- | Hz]; [|apply Hall; exact Hz].
        split.
        -- apply (Hasym x y); [left; reflexivity | right; left; reflexivity | exact Haft].
        -- intro Hxy'. congruence.
    + constructor; [constructor; [exact Hs | apply Forall_forall; exact Hall]|].
      apply Forall_forall. intros z Hz. split.
      * destruct Hz as [<- | Hz]; [exact Haft|].
        destruct (after x z) eqn:Hxz; [|reflexivity].
        destruct (Hneg x y z) as [Hc|Hc];
          [left; reflexivity | right; left; reflexivity | right; right; exact Hz
          | exact Hxz | congruence |].
        destruct (Hall z Hz) as [Hyz _]. congruence.
      * intros _. rewrite Forall_forall in Hx. apply Hx. exact Hz.
Qed.

Lemma sort_consistent : forall l,
  consistent l ->
  StronglySorted (fun a b => str_lt (ident a) (ident b)) l ->
  StronglySorted before (stable_sort after l).
Proof.
  intros l Hcons Hl. revert Hcons.
  induction Hl as [|x l Hl IH Hall]; intros [Hasym Hneg]; simpl; [constructor|].
  assert (Hmem : forall a, In a (x :: stable_sort after l) -> In a (x :: l)).
  { intros a [<-|Ha]; [left; reflexivity|]. right.
    apply (Permutation_in _ (stable_sort_perm after l)). exact Ha. }
  apply insert_consistent.
  - split.
    + intros a b Ha Hb. apply Hasym; apply Hmem; assumption.
    + intros a b c Ha Hb Hc. apply Hneg; apply Hmem; assumption.
  - apply IH. split.
    + intros a b Ha Hb. apply Hasym; right; assumption.
    + intros a b c Ha Hb Hc. apply Hneg; right; assumption.
  - apply Forall_forall. intros z Hz.
    apply (Permutation_in _ (stable_sort_perm after l)) in Hz.
    rewrite Forall_forall in Hall. apply Hall. exact Hz.
Qed.
End ConsistentSort.

Lemma prioritiesAreNumbersb_spec : forall items,
  prioritiesAreNumbersb items = true -> prioritiesAreNumbers items.
Proof.
  intros items Hb s Hs. unfold prioritiesAreNumbersb in Hb.
  rewrite forallb_forall in Hb. specialize (Hb s Hs).
  apply negb_true_iff in Hb. exact Hb.
Qed.

(** On priorities that are numbers the comparator of [pickTopN] is exact. *)
Lemma putAfter64_lt : forall a b,
  PrimFloat.is_nan (sc_priority64 a) = false ->
  PrimFloat.is_nan (sc_priority64 b) = false ->
  putAfter64 a b = (sc_priority64 a <? sc_priority64 b)%float.
Proof.
  intros a b Ha Hb. unfold putAfter64. apply sub_positive_iff_lt; assumption.
Qed.

Lemma handleDrawCard64_auto : forall sample now payload w,
  dc_mode payload = Some "auto" ->
  handleDrawCard64 sample now payload w
  = map (toCard64 w)
      (pickTopN64
         (map (scoreEligible64 now w)
            (drawEligible64 w (nullish (dc_excludeIds payload) [])))
         (nullish (dc_count payload) 10%Z)).
Proof.
  intros sample now payload w Hmode. unfold handleDrawCard64. rewrite Hmode.
  cbn [nullish]. rewrite String.eqb_refl.
  assert (Hempty : forall n, pickTopN64 [] n = []).
  { intro n. unfold pickTopN64, slice0. simpl.
    destruct (n <? 0)%Z; apply firstn_nil. }
  destruct (drawCandidates w) as [|c cs] eqn:Hc.
  - simpl. unfold drawEligible64. rewrite Hc. simpl. rewrite Hempty. reflexivity.
  - simpl List.length. cbn [Nat.eqb].
    destruct (drawEligible64 w (nullish (dc_excludeIds payload) [])) as [|e es] eqn:He.
    + simpl. rewrite Hempty. reflexivity.
    + reflexivity.
Qed.

(** C6 (as the code computes it).  In auto mode, for a non-negative count
    on a vocabulary table keyed by [vocabId], the cards are the first
    [count] entries of the eligible entries ranked by composite priority,
    highest first, entries that neither priority puts first in ascending id
    order.  The eligible entries are those that are not deleted, not
    score-locked, not known, not excluded and whose score, recomputed in
    binary64 from their encounters, is below 100.  The priority is
    [srsDue * 0.45 + difficulty * 0.25 + urgency * 0.20 + recency * 0.10]
    in binary64, with [srsDue] 0.5 without a review date, 0 when the date is
    not yet past and [min(1, daysOverdue / 7)] when it is, [difficulty]
    [1 - score / 100], [urgency] 1 for a traced entry and 0.3 otherwise, and
    [recency] [min(1, daysSinceLastSeen / 14)].  This is stated for draws in
    which no priority is [NaN]: the comparator [b.priority - a.priority] is
    then positive exactly when [a.priority < b.priority], whereas with a
    [NaN] among the priorities it is not a consistent comparator and the
    order that [Array.prototype.sort] produces is implementation-defined. *)
Theorem C6_auto_top_priority :
  forall (sample : list Scored64 -> Z -> option Z -> list Scored64)
         (now : Z) (payload : DrawCardPayload) (w : World),
    tbl_ok vocabId (vocabulary w) ->
    dc_mode payload = Some "auto" ->
    (0 <= nullish (dc_count payload) 10)%Z ->
    prioritiesAreNumbers
      (map (scoreEligible64 now w)
         (drawEligible64 w (nullish (dc_excludeIds payload) []))) ->
    let excludeIds := nullish (dc_excludeIds payload) [] in
    let eligible := drawEligible64 w excludeIds in
    let n := Z.to_nat (nullish (dc_count payload) 10%Z) in
    (exists ranked : list Scored64,
        Permutation ranked (map (scoreEligible64 now w) eligible)
        /\ StronglySorted rankedBefore64 ranked
        /\ handleDrawCard64 sample now payload w = map (toCard64 w) (firstn n ranked)
        /\ map card64_vocabId (handleDrawCard64 sample now payload w)
           = firstn n (map (fun s => vocabId (sc_vocab64 s)) ranked))
    /\ (forall a b,
          In a (map (scoreEligible64 now w) eligible) ->
          In b (map (scoreEligible64 now w) eligible) ->
          (0 <? sc_priority64 b - sc_priority64 a)%float
          = (sc_priority64 a <? sc_priority64 b)%float)
    /\ (forall v,
          In v eligible <->
          In v (vocabulary w)
          /\ truthyNum (deletedAt v) = false
          /\ truthy (scoreLocked v) = false
          /\ truthy (isKnown v) = false
          /\ ~ In (vocabId v) excludeIds
          /\ (realtimeScore64 w v <? 100)%float = true)
    /\ (forall v,
          realtimeScore64 w v
          = fold_left
              (fun sum e =>
                 mathMax0 (sum + points64 (enc_source e)
                                   (if truthy (isTraced v) then 2 else 1))%float)
              (encountersOf (vocabId v) (encounters w)) 0%float)
    /\ (forall v,
          sc_vocab64 (scoreEligible64 now w v) = v
          /\ sc_score64 (scoreEligible64 now w v) = realtimeScore64 w v
          /\ sc_priority64 (scoreEligible64 now w v)
             = (srsDueOf64 now v * 0.45
                + (1 - realtimeScore64 w v / 100) * 0.25
                + (if truthy (isTraced v) then 1 else 0.3) * 0.20
                + recencyOf64 now v * 0.10)%float)
    /\ (forall v, nextReviewDate v = None \/ nextReviewDate v = Some 0%Z ->
                  srsDueOf64 now v = 0.5%float)
    /\ (forall v d, nextReviewDate v = Some d -> (d < 0)%Z \/ (0 < d /\ now <= d)%Z ->
                    srsDueOf64 now v = 0%float)
    /\ (forall v d, nextReviewDate v = Some d -> (0 < d)%Z -> (d < now)%Z ->
                    srsDueOf64 now v
                    = mathMin1 ((numberOfZ now - numberOfZ d) / 604800000)%float)
    /\ (forall v,
          recencyOf64 now v
          = mathMin1 ((numberOfZ now
                       - numberOfZ (nullish (lastSeenAt v) (nullish (createdAt v) now)))
                      / 86400000 / 14)%float)
    /\ (forall x, mathMin1 x = if PrimFloat.is_nan x then PrimFloat.nan
                               else if (x <? 1)%float then x else 1%float).
Proof.
  intros sample now payload w Hok Hmode Hn Hnum excludeIds eligible n.
  assert (Hexact : forall a b,
            In a (map (scoreEligible64 now w) eligible) ->
            In b (map (scoreEligible64 now w) eligible) ->
            PrimFloat.is_nan (sc_priority64 a) = false
            /\ putAfter64 a b = (sc_priority64 a <? sc_priority64 b)%float).
  { intros a b Ha Hb. split; [apply Hnum; exact Ha|].
    apply putAfter64_lt; apply Hnum; assumption. }
  assert (Hsel : handleDrawCard64 sample now payload w
                 = map (toCard64 w)
                     (firstn n
                        (array_sort64
                           (fun a b => (sc_priority64 b - sc_priority64 a)%float)
                           (map (scoreEligible64 now w) eligible)))).
  { rewrite (handleDrawCard64_auto sample now payload w Hmode).
    unfold pickTopN64. rewrite slice0_firstn by exact Hn. reflexivity. }
  split.
  { exists (array_sort64 (fun a b => (sc_priority64 b - sc_priority64 a)%float)
              (map (scoreEligible64 now w) eligible)).
    split; [unfold array_sort64; apply stable_sort_perm|].
    split; [|split; [exact Hsel|]].
    - unfold array_sort64.
      fold putAfter64.
      change (fun x y : Scored64 => (0 <? sc_priority64 y - sc_priority64 x)%float)
        with putAfter64.
      set (scored := map (scoreEligible64 now w) eligible) in *.
      apply (StronglySorted_impl_In
               (fun a b => putAfter64 a b = false
                           /\ (putAfter64 b a = false ->
                               str_lt (vocabId (sc_vocab64 a)) (vocabId (sc_vocab64 b))))).
      + intros a b Ha Hb [Hab Hba].
        apply (Permutation_in _ (stable_sort_perm putAfter64 scored)) in Ha, Hb.
        destruct (Hexact a b Ha Hb) as [_ Eab].
        destruct (Hexact b a Hb Ha) as [_ Eba].
        unfold rankedBefore64. rewrite <- Eab, <- Eba. split; assumption.
      + apply (sort_consistent putAfter64 (fun s => vocabId (sc_vocab64 s))).
        * split.
          -- intros a b Ha Hb Hab.
             destruct (Hexact a b Ha Hb) as [_ Eab].
             destruct (Hexact b a Hb Ha) as [_ Eba].
             rewrite Eab in Hab. rewrite Eba. apply ltb_asym. exact Hab.
          -- intros a b c Ha Hb Hc Hac.
             destruct (Hexact a c Ha Hc) as [_ Eac].
             destruct (Hexact a b Ha Hb) as [_ Eab].
             destruct (Hexact b c Hb Hc) as [Hnan Ebc].
             rewrite Eac in Hac. rewrite Eab, Ebc.
             apply ltb_negtrans; assumption.
        * assert (Hs : tbl_ok vocabId eligible).
          { unfold eligible, drawEligible64, drawCandidates.
            apply tbl_ok_filter. apply tbl_ok_filter. exact Hok. }
          unfold scored. unfold tbl_ok in Hs. clear Hexact Hnum Hsel scored.
          induction Hs as [|x l Hs IH Hall]; simpl; constructor.
          -- exact IH.
          -- rewrite Forall_forall in *. intros s Hin. apply in_map_iff in Hin.
             destruct Hin as [v [<- Hv]]. simpl. apply Hall. exact Hv.
    - rewrite Hsel, map_map. rewrite firstn_map. reflexivity. }
  split.
  { intros a b Ha Hb. exact (proj2 (Hexact a b Ha Hb)). }
  split.
  { intro v. unfold eligible, drawEligible64, drawCandidates.
    rewrite !filter_In, !andb_true_iff, !negb_true_iff.
    split.
    - intros [[Hin [[Hd Hl] Hk]] [Hx Hs]].
      repeat split; try assumption.
      intro Hex. assert (Ht : existsb (String.eqb (vocabId v)) excludeIds = true).
      { apply existsb_exists. exists (vocabId v). split; [exact Hex|].
        apply String.eqb_refl. }
      congruence.
    - intros [Hin [Hd [Hl [Hk [Hx Hs]]]]].
      repeat split; try assumption.
      destruct (existsb (String.eqb (vocabId v)) excludeIds) eqn:Hex; [|reflexivity].
      exfalso. apply Hx. apply existsb_exists in Hex.
      destruct Hex as [x [Hin' Heq]]. apply String.eqb_eq in Heq. subst x. exact Hin'. }
  split.
  { intro v. unfold realtimeScore64, calculateWeightedScore64, sourcesOf.
    change (traceMultiplier64 (isTraced v))
      with (if truthy (isTraced v) then 2%float else 1%float).
    generalize 0%float.
    induction (encountersOf (vocabId v) (encounters w)) as [|e es IH]; intro acc; simpl.
    - reflexivity.
    - apply IH. }
  split; [intro v; repeat split; reflexivity|].
  split.
  { intros v [Hnone|Hzero]; unfold srsDueOf64; [rewrite Hnone | rewrite Hzero];
      reflexivity. }
  split.
  { intros v d Hd Hcase. unfold srsDueOf64. rewrite Hd. cbn [nullish].
    assert (Hz : (d =? 0)%Z = false) by (apply Z.eqb_neq; lia).
    assert (Hg : ((0 <? d)%Z && (d <? now)%Z) = false).
    { destruct Hcase as [Hneg|[Hpos Hdue]].
      - assert (Hp : (0 <? d)%Z = false) by (apply Z.ltb_ge; lia).
        rewrite Hp. reflexivity.
      - assert (Hlt : (d <? now)%Z = false) by (apply Z.ltb_ge; lia).
        rewrite Hlt. apply andb_false_r. }
    rewrite Hg, Hz. reflexivity. }
  split.
  { intros v d Hd Hpos Hover. unfold srsDueOf64. rewrite Hd. cbn [nullish].
    assert (Hp : (0 <? d)%Z = true) by (apply Z.ltb_lt; lia).
    assert (Hlt : (d <? now)%Z = true) by (apply Z.ltb_lt; lia).
    rewrite Hp, Hlt. reflexivity. }
  split; [intro v; reflexivity|].
  intro x. reflexivity.
Qed.

(** The draw of three cards from [seenWorld], ten days after time 0. *)
Lemma C6_auto_top_priority_witness :
  exists ranked : list Scored64,
    Permutation ranked
      (map (scoreEligible64 864000000 seenWorld) (drawEligible64 seenWorld []))
    /\ StronglySorted rankedBefore64 ranked
    /\ handleDrawCard64 noSample 864000000 (autoPayload 3) seenWorld
       = map (toCard64 seenWorld) (firstn (Z.to_nat 3) ranked)
    /\ map card64_vocabId (handleDrawCard64 noSample 864000000 (autoPayload 3) seenWorld)
       = firstn (Z.to_nat 3) (map (fun s => vocabId (sc_vocab64 s)) ranked).
Proof.
  apply (C6_auto_top_priority noSample 864000000 (autoPayload 3) seenWorld).
  - unfold tbl_ok. simpl.
    repeat (constructor; [|repeat (constructor; [reflexivity|]); constructor]).
    constructor.
  - reflexivity.
  - simpl. lia.
  - apply prioritiesAreNumbersb_spec. vm_compute. reflexivity.
Defined.

(** In that draw the overdue word comes first, the traced word second, and
    of the two words left, which have the same priority, the one with the
    smaller id. *)
Example auto_draw_order :
  map card64_vocabId (handleDrawCard64 noSample 864000000 (autoPayload 3) seenWorld)
  = ["v2"; "v3"; "v1"]
  /\ map (fun s => vocabId (sc_vocab64 s))
       (pickTopN64
          (map (scoreEligible64 864000000 seenWorld) (drawEligible64 seenWorld [])) 4)
     = ["v2"; "v3"; "v1"; "v4"].
Proof. split; vm_compute; reflexivity. Qed.

(** Rounding decides between priorities that exact arithmetic makes equal:
    in [tieWorld] both priorities are 107/200, the binary64 sums differ in
    the last place, and the word with the larger id is drawn first. *)
Example auto_draw_rounded_tie :
  map (fun v => Qeq_bool (priorityOf 2000000000 (realtimeScore tieWorld v) v) (107 # 200))
      (vocabulary tieWorld)
  = [true; true]
  /\ map (fun s => sc_priority64 s)
       (map (scoreEligible64 2000000000 tieWorld) (drawEligible64 tieWorld []))
     = [0.53499999999999992; 0.53500000000000003]%float
  /\ map card64_vocabId
       (handleDrawCard64 noSample 2000000000 (autoPayload 2) tieWorld)
     = ["v2"; "v1"]
  /\ map card64_priority
       (handleDrawCard64 noSample 2000000000 (autoPayload 2) tieWorld)
     = [0.54; 0.53]%float.
Proof. repeat split; vm_compute; reflexivity. Qed.

(** C6, with the eligible set as the specification words it, fails: the
    word of [autoTracedWorld] is not deleted, not score-locked and not
    known, so it is the eligible entry of highest priority, but its score
    recomputed at draw time is 100 and the draw of one card in auto mode
    returns nothing. *)
Lemma C6_top_flag_eligible_not_drawn :
  map vocabId (flagEligible autoTracedWorld []) = ["v1"]
  /\ map (realtimeScore64 autoTracedWorld) (flagEligible autoTracedWorld [])
     = [100%float]
  /\ drawEligible64 autoTracedWorld [] = []
  /\ handleDrawCard64 noSample 20 (autoPayload 1) autoTracedWorld = [].
Proof. repeat split; vm_compute; reflexivity. Qed.

(* ================================================================= *)
(** ** The page scan: aggregation and promotion *)

Lemma str_lt_trans : forall a b c, str_lt a b -> str_lt b c -> str_lt a c.
Proof.
  unfold str_lt. intros a b c Hab Hbc.
  apply String_as_OT.cmp_lt. apply String_as_OT.cmp_lt in Hab, Hbc.
  exact (String_as_OT.lt_trans _ _ _ Hab Hbc).
Qed.

Lemma str_gt_lt : forall a b, String.compare a b = Gt -> str_lt b a.
Proof.
  intros a b Hc. unfold str_lt. rewrite String.compare_antisym, Hc. reflexivity.
Qed.

Section SortedTables.
Context {A : Type} (key : A -> string).

Lemma tbl_put_In : forall r t x,
  In x (tbl_put key r t) -> x = r \/ In x t.
Proof.
  intros r t x. induction t as [|r' t IH]; simpl.
  - intros [<-|[]]. left. reflexivity.
  - destruct (String.compare (key r) (key r')); simpl.
    + intros [<-|Hin]; [left; reflexivity | right; right; exact Hin].
    + intros [<-|Hin]; [left; reflexivity | right; exact Hin].
    + intros [<-|Hin]; [right; left; reflexivity|].
      destruct (IH Hin) as [->|Hin']; [left; reflexivity | right; right; exact Hin'].
Qed.

Lemma tbl_put_ok : forall r t, tbl_ok key t -> tbl_ok key (tbl_put key r t).
Proof.
  intros r t Hok. induction Hok as [|r' t Hok IH Hall]; simpl.
  - repeat constructor.
  - destruct (String.compare (key r) (key r')) eqn:Hc.
    + apply String.compare_eq_iff in Hc. constructor; [exact Hok|].
      rewrite Hc. exact Hall.
    + constructor; [constructor; assumption|].
      constructor; [exact Hc|].
      rewrite Forall_forall in *. intros x Hx.
      exact (str_lt_trans _ _ _ Hc (Hall x Hx)).
    + constructor; [exact IH|].
      rewrite Forall_forall in *. intros x Hx.
      apply tbl_put_In in Hx. destruct Hx as [->|Hx].
      * apply str_gt_lt. exact Hc.
      * apply Hall. exact Hx.
Qed.

Lemma tbl_update_ok : forall k f t,
  (forall r, key (f r) = key r) -> tbl_ok key t -> tbl_ok key (tbl_update key k f t).
Proof.
  intros k f t Hf Hok. unfold tbl_update.
  induction Hok as [|r t Hok IH Hall]; simpl; constructor.
  - exact IH.
  - rewrite Forall_forall in *. intros x Hx. apply in_map_iff in Hx.
    destruct Hx as [y [<- Hy]].
    assert (Hk : forall z, key (if (key z =? k)%string then f z else z) = key z).
    { intro z. destruct (key z =? k)%string; [apply Hf | reflexivity]. }
    rewrite !Hk. apply Hall. exact Hy.
Qed.
End SortedTables.

(* ---- JS Map facts ---- *)
Section MapFacts.
Context {V : Type}.

Lemma record_get_map_set : forall k k' (v : V) m,
  record_get k (map_set k' v m) = if (k =? k')%string then Some v else record_get k m.
Proof.
  intros k k' v m. induction m as [|[k0 v0] m IH]; simpl.
  - reflexivity.
  - destruct (k' =? k0)%string eqn:Hk0; simpl.
    + apply String.eqb_eq in Hk0. subst k0.
      destruct (k =? k')%string; reflexivity.
    + destruct (k =? k0)%string eqn:Hk.
      * apply String.eqb_eq in Hk. subst k0.
        rewrite String.eqb_sym in Hk0. rewrite Hk0. reflexivity.
      * exact IH.
Qed.

Lemma map_set_keys_In : forall k (v : V) m x,
  In x (map fst (map_set k v m)) <-> x = k \/ In x (map fst m).
Proof.
  intros k v m x. induction m as [|[k0 v0] m IH]; simpl.
  - split; [intros [<-|[]]; left; reflexivity | intros [->|[]]; left; reflexivity].
  - destruct (k =? k0)%string eqn:Hk; simpl.
    + apply String.eqb_eq in Hk. subst k0. intuition congruence.
    + rewrite IH. intuition congruence.
Qed.

Lemma map_set_NoDup : forall k (v : V) m,
  NoDup (map fst m) -> NoDup (map fst (map_set k v m)).
Proof.
  intros k v m. induction m as [|[k0 v0] m IH]; simpl; intro Hnd.
  - repeat constructor. intros [].
  - inversion Hnd as [|x xs Hnotin Hnd']; subst.
    destruct (k =? k0)%string eqn:Hk; simpl.
    + apply String.eqb_eq in Hk. subst k0. constructor; assumption.
    + constructor; [|apply IH; exact Hnd'].
      rewrite map_set_keys_In. intros [->|Hin]; [|contradiction].
      rewrite String.eqb_refl in Hk. discriminate.
Qed.




Lemma In_record_get : forall k (v : V) m,
  NoDup (map fst m) -> In (k, v) m -> record_get k m = Some v.
Proof.
  intros k v m. induction m as [|[k0 v0] m IH]; simpl; intros Hnd Hin; [contradiction|].
  inversion Hnd as [|x xs Hnotin Hnd']; subst.
  destruct Hin as [Heq|Hin].
  - inversion Heq; subst. rewrite String.eqb_refl. reflexivity.
  - destruct (k =? k0)%string eqn:Hk.
    + apply String.eqb_eq in Hk. subst k0. exfalso. apply Hnotin.
      apply in_map_iff. exists (k, v). split; [reflexivity | exact Hin].
    + apply IH; assumption.
Qed.

Lemma map_has_In : forall k (m : list (string * V)),
  map_has k m = true <-> In k (map fst m).
Proof.
  intros k m. unfold map_has. induction m as [|[k0 v0] m IH]; simpl.
  - split; [discriminate | intros []].
  - destruct (k =? k0)%string eqn:Hk.
    + apply String.eqb_eq in Hk. subst k0. split; [left; reflexivity | reflexivity].
    + rewrite IH. split; [right; assumption|].
      intros [Heq|Hin]; [|exact Hin]. subst k0.
      rewrite String.eqb_refl in Hk. discriminate.
Qed.




End MapFacts.

Section MapFacts2.
Context {V : Type}.








End MapFacts2.


Lemma NoDup_app_single : forall {A} (l : list A) (x : A),
  NoDup l -> ~ In x l -> NoDup (l ++ [x]).
Proof.
  intros A l x Hnd Hx. induction l as [|y l IH]; simpl.
  - repeat constructor. intros [].
  - inversion Hnd as [|z zs Hnotin Hnd']; subst. constructor.
    + intro Hin. apply in_app_or in Hin. destruct Hin as [Hin|[<-|[]]].
      * exact (Hnotin Hin).
      * apply Hx. left. reflexivity.
    + apply IH; [exact Hnd'|]. intro Hin. apply Hx. right. exact Hin.
Qed.

Section Aggregate.
Context {H : Host}.


End Aggregate.

Section SortedTables2.
Context {A : Type} (key : A -> string).

Lemma tbl_put_fresh_perm : forall r t,
  (forall x, In x t -> key x <> key r) -> Permutation (tbl_put key r t) (r :: t).
Proof.
  intros r t. induction t as [|r' t IH]; simpl; intro Hfresh; [reflexivity|].
  destruct (String.compare (key r) (key r')) eqn:Hc.
  - apply String.compare_eq_iff in Hc. exfalso.
    apply (Hfresh r'); [left; reflexivity | symmetry; exact Hc].
  - reflexivity.
  - rewrite IH by (intros x Hx; apply Hfresh; right; exact Hx).
    apply perm_swap.
Qed.

Lemma tbl_ok_same_key : forall t x y,
  tbl_ok key t -> In x t -> In y t -> key x = key y -> x = y.
Proof.
  intros t x y Hok. induction Hok as [|r t Hok IH Hall]; simpl; [tauto|].
  rewrite Forall_forall in Hall.
  intros [<-|Hx] [<-|Hy] Hk.
  - reflexivity.
  - exfalso. specialize (Hall y Hy). rewrite Hk in Hall. exact (str_lt_irrefl _ Hall).
  - exfalso. specialize (Hall x Hx). rewrite Hk in Hall. exact (str_lt_irrefl _ Hall).
  - apply IH; assumption.
Qed.


(** Replacing a row by one that agrees with it under [g] leaves the
    [g]-column as it was. *)
Lemma tbl_put_replace_column : forall {B} (g : A -> B) r r0 t,
  tbl_ok key t -> In r0 t -> key r0 = key r -> g r0 = g r ->
  map g (tbl_put key r t) = map g t.
Proof.
  intros B g r r0 t Hok. induction Hok as [|r' t Hok IH Hall]; simpl; [tauto|].
  rewrite Forall_forall in Hall. intros Hin Hk Hg.
  destruct (String.compare (key r) (key r')) eqn:Hc; simpl.
  - apply String.compare_eq_iff in Hc.
    assert (r0 = r').
    { destruct Hin as [->|Hin]; [reflexivity|]. exfalso.
      specialize (Hall r0 Hin). rewrite Hk, Hc in Hall. exact (str_lt_irrefl _ Hall). }
    subst r'. rewrite Hg. reflexivity.
  - exfalso. destruct Hin as [->|Hin].
    + rewrite Hk in Hc. unfold str_lt in *. rewrite compare_refl in Hc. discriminate.
    + pose proof (str_lt_trans _ _ _ Hc (Hall r0 Hin)) as Hlt.
      rewrite Hk in Hlt. exact (str_lt_irrefl _ Hlt).
  - f_equal. apply IH; [|exact Hk | exact Hg].
    destruct Hin as [->|Hin]; [|exact Hin]. exfalso.
    rewrite Hk, compare_refl in Hc. discriminate.
Qed.
End SortedTables2.



Lemma statOf_Some : forall n t s, statOf n t = Some s -> In s t /\ ls_normalizedLemma s = n.
Proof.
  intros n t s Hs. unfold statOf in Hs. apply find_some in Hs.
  destruct Hs as [Hin Hk]. apply String.eqb_eq in Hk. tauto.
Qed.




Section AggregateSpec.
Context {H : Host}.


End AggregateSpec.

(* ---- marks on the lemmaStats table ---- *)







Lemma markRows_app : forall now ms1 ms2 t,
  markRows now (ms1 ++ ms2) t = markRows now ms2 (markRows now ms1 t).
Proof. intros. unfold markRows. apply fold_left_app. Qed.

Lemma rowAfter_app : forall now ms1 ms2 r,
  rowAfter now (ms1 ++ ms2) r = rowAfter now ms2 (rowAfter now ms1 r).
Proof. intros. unfold rowAfter. apply fold_left_app. Qed.


Section Promote.
Context {H : Host}.



End Promote.

(* ---- what leaves the lemmaStats table alone ---- *)












Section ScanFrames.
Context {H : Host}.










End ScanFrames.





(* ---- the entry behind a promoted stat ---- *)



Section Keeps.
Variable J : list VocabEntity -> Prop.









End Keeps.

(* ---- what leaves the vocabulary table alone ---- *)







(* ---- what keeps an entry of the vocabulary table ---- *)







Section ScanKeeps.
Context {H : Host}.
Variables vid l lang : string.








End ScanKeeps.




(** In that run the stat of "dog" reaches six sightings on three pages and
    is promoted by threshold. *)
Example page_scan_promotes_dog :
  exists st,
    statOf "dog" (lemmaStats (snd pageScanned)) = Some st
    /\ ls_totalCount st = 6%Z /\ ls_pageCount st = 3%Z
    /\ ls_promotedVocabId st = Some "uuid-x"
    /\ ls_promotionReason st = Some "threshold"
    /\ exists v, tbl_get vocabId "uuid-x" (vocabulary (snd pageScanned)) = Some v
                 /\ lemma v = "dog" /\ sourceType v = Some "ai"
                 /\ scoreLocked v = Some false /\ isKnown v = Some false.
Proof.
  vm_compute. eexists. repeat split. eexists. repeat split.
Qed.



(* ================================================================= *)
(** * Further properties of the handlers *)

(** ** Scoring: tracing *)

Section ScoreSums.
Context {E : Type} `{HasSource E}.
Variable multiplier : Q.


End ScoreSums.







(* ================================================================= *)
(** ** Recomputing, rating, unlocking and tracing (vocab.ts) *)

Lemma tbl_get_None_fresh : forall {A} (key : A -> string) k t,
  tbl_get key k t = None -> forall x, In x t -> key x <> k.
Proof.
  intros A key k t Hnone x Hx Hk. unfold tbl_get in Hnone.
  apply (find_none _ _ Hnone) in Hx. rewrite Hk, String.eqb_refl in Hx. discriminate.
Qed.







(** X5.  Unlocking a score-locked word resets it to score 0, not known, not
    locked and not noise-managed, and leaves its trace flag, the other
    entries and the encounters alone; a word that is not locked is refused
    with a validation error and nothing is written. *)
Theorem X5_unlock_resets_word :
  forall (H : Host) (now : Z) (id : string) (w : World) (v : VocabEntity),
    id <> "" ->
    tbl_get vocabId id (vocabulary w) = Some v ->
    if truthy (scoreLocked v)
    then
      exists w' v',
        handleUnlockNoiseWord now (Some id) w = (Resolved id, w')
        /\ tbl_get vocabId id (vocabulary w') = Some v'
        /\ scoreLocked v' = Some false
        /\ familiarityScore v' = Some 0
        /\ isKnown v' = Some false
        /\ noiseManaged v' = Some false
        /\ isTraced v' = isTraced v
        /\ knownConsistent v' = true
        /\ encounters w' = encounters w
        /\ (forall k, k <> id ->
              tbl_get vocabId k (vocabulary w') = tbl_get vocabId k (vocabulary w))
    else
      handleUnlockNoiseWord now (Some id) w
      = (Rejected (VALIDATION_ERROR "word is not locked"), w).
Proof.
  intros H now id w v Hne Hget.
  assert (Hid' : (id =? "")%string = false) by (apply String.eqb_neq; exact Hne).
  unfold handleUnlockNoiseWord, bind, reads, throw, ret, resetNoiseWordFields,
    vocab_update, modify.
  simpl. rewrite Hid'. simpl. rewrite Hget.
  destruct (truthy (scoreLocked v)) eqn:Hlock; simpl; [|reflexivity].
  do 2 eexists. split; [reflexivity|]. simpl. split.
  { rewrite tbl_get_update_same by apply applyChanges_vocabId.
    rewrite Hget. reflexivity. }
  simpl. repeat split; try reflexivity.
  intros k Hk. apply tbl_get_update_other; [apply applyChanges_vocabId | exact Hk].
Qed.

Lemma X5_unlock_resets_word_witness :
  let H := exampleHost in
  exists w' v',
    handleUnlockNoiseWord 30 (Some "v1") lookupWorld = (Resolved "v1", w')
    /\ tbl_get vocabId "v1" (vocabulary w') = Some v'
    /\ scoreLocked v' = Some false
    /\ familiarityScore v' = Some 0
    /\ isKnown v' = Some false
    /\ noiseManaged v' = Some false
    /\ isTraced v' = Some false
    /\ knownConsistent v' = true
    /\ encounters w' = encounters lookupWorld
    /\ (forall k, k <> "v1" ->
          tbl_get vocabId k (vocabulary w') = tbl_get vocabId k (vocabulary lookupWorld)).
Proof.
  apply (X5_unlock_resets_word exampleHost 30 "v1" lookupWorld
           (entry "v1" "the" 100 true true false true)).
  - discriminate.
  - reflexivity.
Defined.

Section ToggleFacts.
Context {H : Host}.


End ToggleFacts.






(* ================================================================= *)
(** ** Missing and unknown ids *)

(** X8.  An id that names no entry is a hard [NOT_FOUND] error for rating,
    unlocking, trace toggling, deleting or mastering an entry and for
    recording an encounter by id (a soft-deleted entry counts as missing
    there); deleting an encounter that does not exist succeeds instead.  In
    every case the store is left exactly as it was. *)
Theorem X8_unknown_id :
  forall (H : Host) (now : Z) (id : string) (w : World),
    id <> "" ->
    (tbl_get vocabId id (vocabulary w) = None ->
       (forall rating,
          handleRateWord now {| rw_vocabId := Some id; rw_rating := rating |} w
          = (Rejected (NOT_FOUND "vocabulary not found"), w))
       /\ handleUnlockNoiseWord now (Some id) w
          = (Rejected (NOT_FOUND "vocabulary not found"), w)
       /\ (forall traced,
             handleToggleTraceWord now {| tt_vocabId := Some id; tt_traced := traced |} w
             = (Rejected (NOT_FOUND "vocabulary not found"), w))
       /\ (forall hard,
             handleDeleteVocab now {| dv_vocabId := Some id; dv_hardDelete := hard |} w
             = (Rejected (NOT_FOUND "vocabulary not found"), w))
       /\ handleMarkMastered now (Some id) w
          = (Rejected (NOT_FOUND "vocabulary not found"), w))
    /\ (forall data,
          re_vocabId data = Some id ->
          trim (re_pageUrl data) <> "" ->
          match tbl_get vocabId id (vocabulary w) with
          | None => True
          | Some v => truthyNum (deletedAt v) = true
          end ->
          handleRecordEncounter now data w
          = (Rejected (NOT_FOUND "vocabulary not found"), w))
    /\ (tbl_get enc_encounterId id (encounters w) = None ->
        handleDeleteEncounter now (Some id) w
        = (Resolved {| de_success := true; de_vocabDeleted := None |}, w)).
Proof.
  intros H now id w Hne.
  assert (Hid' : (id =? "")%string = false) by (apply String.eqb_neq; exact Hne).
  split; [|split].
  - intro Hnone. repeat split; intros;
      unfold handleRateWord, handleUnlockNoiseWord, handleToggleTraceWord,
        handleDeleteVocab, handleMarkMastered, bind, reads, throw;
      simpl; rewrite Hid'; simpl; rewrite Hnone; reflexivity.
  - intros data Hid Hurl Hgone.
    unfold handleRecordEncounter.
    assert (Hu : (trim (re_pageUrl data) =? "")%string = false)
      by (apply String.eqb_neq; exact Hurl).
    rewrite Hu. unfold bind at 1. unfold resolveEncounterVocab.
    rewrite Hid. simpl. rewrite Hid'. simpl. unfold bind, reads, throw.
    destruct (tbl_get vocabId id (vocabulary w)) as [v|]; [|reflexivity].
    rewrite Hgone. reflexivity.
  - intro Hnone. unfold handleDeleteEncounter, bind, reads, ret. simpl.
    rewrite Hid'. simpl. rewrite Hnone. reflexivity.
Qed.

Lemma X8_unknown_id_witness :
  let H := exampleHost in
  let w := ratedWorld in
  (tbl_get vocabId "v9" (vocabulary w) = None ->
     (forall rating,
        handleRateWord 20 {| rw_vocabId := Some "v9"; rw_rating := rating |} w
        = (Rejected (NOT_FOUND "vocabulary not found"), w))
     /\ handleUnlockNoiseWord 20 (Some "v9") w
        = (Rejected (NOT_FOUND "vocabulary not found"), w)
     /\ (forall traced,
           handleToggleTraceWord 20 {| tt_vocabId := Some "v9"; tt_traced := traced |} w
           = (Rejected (NOT_FOUND "vocabulary not found"), w))
     /\ (forall hard,
           handleDeleteVocab 20 {| dv_vocabId := Some "v9"; dv_hardDelete := hard |} w
           = (Rejected (NOT_FOUND "vocabulary not found"), w))
     /\ handleMarkMastered 20 (Some "v9") w
        = (Rejected (NOT_FOUND "vocabulary not found"), w))
  /\ (forall data,
        re_vocabId data = Some "v9" ->
        trim (re_pageUrl data) <> "" ->
        match tbl_get vocabId "v9" (vocabulary w) with
        | None => True
        | Some v => truthyNum (deletedAt v) = true
        end ->
        handleRecordEncounter 20 data w
        = (Rejected (NOT_FOUND "vocabulary not found"), w))
  /\ (tbl_get enc_encounterId "v9" (encounters w) = None ->
      handleDeleteEncounter 20 (Some "v9") w
      = (Resolved {| de_success := true; de_vocabDeleted := None |}, w)).
Proof.
  apply (X8_unknown_id exampleHost 20 "v9" ratedWorld).
  discriminate.
Defined.

(** X9.  A call that lacks its required field is refused with a validation
    error before anything is read or written: no id for rating, unlocking,
    toggling, deleting or mastering; no encounter id; a blank page URL, or
    neither id nor word, for an encounter; a blank lemma for an upsert; no
    page URL for a scan. *)
Theorem X9_missing_field :
  forall (H : Host) (now : Z) (w : World) (none : option string),
    truthyStr none = false ->
    (forall rating,
       handleRateWord now {| rw_vocabId := none; rw_rating := rating |} w
       = (Rejected (VALIDATION_ERROR "vocabId is required"), w))
    /\ handleUnlockNoiseWord now none w
       = (Rejected (VALIDATION_ERROR "vocabId is required"), w)
    /\ (forall traced,
          handleToggleTraceWord now {| tt_vocabId := none; tt_traced := traced |} w
          = (Rejected (VALIDATION_ERROR "vocabId is required"), w))
    /\ (forall hard,
          handleDeleteVocab now {| dv_vocabId := none; dv_hardDelete := hard |} w
          = (Rejected (VALIDATION_ERROR "vocabId is required"), w))
    /\ handleMarkMastered now none w
       = (Rejected (VALIDATION_ERROR "vocabId is required"), w)
    /\ handleDeleteEncounter now none w
       = (Rejected (VALIDATION_ERROR "encounterId is required"), w)
    /\ (forall data, trim (re_pageUrl data) = "" ->
          handleRecordEncounter now data w
          = (Rejected (VALIDATION_ERROR "pageUrl is required"), w))
    /\ (forall data, trim (re_pageUrl data) <> "" ->
          re_vocabId data = none ->
          match re_word data with
          | None => True
          | Some word => trim word = ""
          end ->
          handleRecordEncounter now data w
          = (Rejected (VALIDATION_ERROR "word or vocabId is required"), w))
    /\ (forall data, trim (up_lemma data) = "" ->
          handleUpsertVocab now data w
          = (Rejected (VALIDATION_ERROR "lemma is required"), w))
    /\ (forall data, sp_pageUrl data = "" ->
          handleScanPageWords now data w
          = (Rejected (VALIDATION_ERROR "pageUrl is required"), w)).
Proof.
  intros H now w none Hnone.
  repeat split; intros;
    unfold handleRateWord, handleUnlockNoiseWord, handleToggleTraceWord,
      handleDeleteVocab, handleMarkMastered, handleDeleteEncounter, throw;
    simpl; try (rewrite Hnone; reflexivity).
  - unfold handleRecordEncounter.
    match goal with Hb : trim _ = "" |- _ => rewrite Hb end. reflexivity.
  - unfold handleRecordEncounter.
    match goal with Hb : trim _ <> "" |- _ =>
      apply String.eqb_neq in Hb; rewrite Hb end.
    unfold bind, resolveEncounterVocab.
    match goal with Hv : re_vocabId _ = none |- _ => rewrite Hv end.
    rewrite Hnone. simpl.
    destruct (re_word data) as [word|]; [|reflexivity].
    match goal with Hw : trim word = "" |- _ => rewrite Hw end. reflexivity.
  - unfold handleUpsertVocab.
    match goal with Hb : trim _ = "" |- _ => rewrite Hb end. reflexivity.
  - unfold handleScanPageWords.
    match goal with Hb : sp_pageUrl _ = "" |- _ => rewrite Hb end. reflexivity.
Qed.

Lemma X9_missing_field_witness :
  let H := exampleHost in
  let w := ratedWorld in
  (forall rating,
     handleRateWord 20 {| rw_vocabId := None; rw_rating := rating |} w
     = (Rejected (VALIDATION_ERROR "vocabId is required"), w))
  /\ handleUnlockNoiseWord 20 None w
     = (Rejected (VALIDATION_ERROR "vocabId is required"), w)
  /\ (forall traced,
        handleToggleTraceWord 20 {| tt_vocabId := None; tt_traced := traced |} w
        = (Rejected (VALIDATION_ERROR "vocabId is required"), w))
  /\ (forall hard,
        handleDeleteVocab 20 {| dv_vocabId := None; dv_hardDelete := hard |} w
        = (Rejected (VALIDATION_ERROR "vocabId is required"), w))
  /\ handleMarkMastered 20 None w
     = (Rejected (VALIDATION_ERROR "vocabId is required"), w)
  /\ handleDeleteEncounter 20 None w
     = (Rejected (VALIDATION_ERROR "encounterId is required"), w)
  /\ (forall data, trim (re_pageUrl data) = "" ->
        handleRecordEncounter 20 data w
        = (Rejected (VALIDATION_ERROR "pageUrl is required"), w))
  /\ (forall data, trim (re_pageUrl data) <> "" ->
        re_vocabId data = None ->
        match re_word data with
        | None => True
        | Some word => trim word = ""
        end ->
        handleRecordEncounter 20 data w
        = (Rejected (VALIDATION_ERROR "word or vocabId is required"), w))
  /\ (forall data, trim (up_lemma data) = "" ->
        handleUpsertVocab 20 data w
        = (Rejected (VALIDATION_ERROR "lemma is required"), w))
  /\ (forall data, sp_pageUrl data = "" ->
        handleScanPageWords 20 data w
        = (Rejected (VALIDATION_ERROR "pageUrl is required"), w)).
Proof.
  apply (X9_missing_field exampleHost 20 ratedWorld None).
  reflexivity.
Defined.


(* ================================================================= *)
(** ** Recording and deleting encounters (encounters.ts) *)

Section EncounterFacts.
Context {H : Host}.

(** With the entry given by id, nothing is written while the entry and the
    surface are looked up. *)
Lemma resolve_by_id : forall now data w id v,
  re_vocabId data = Some id -> id <> "" ->
  tbl_get vocabId id (vocabulary w) = Some v ->
  truthyNum (deletedAt v) = false ->
  exists surf, resolveEncounterVocab now data w = (Resolved (id, surf), w).
Proof.
  intros now data w id v Hid Hne Hget Hlive.
  assert (Hid' : (id =? "")%string = false) by (apply String.eqb_neq; exact Hne).
  unfold resolveEncounterVocab, bind, reads, ret. rewrite Hid. simpl.
  rewrite Hid'. simpl. rewrite Hget, Hlive. eexists. reflexivity.
Qed.

Lemma recentEncounter_found : forall now data id w e src,
  In e (encounters w) ->
  enc_vocabId e = id ->
  enc_pageUrl e = re_pageUrl data ->
  re_source data = Some src ->
  src = "scan" \/ src = "lookup" \/ src = "wordbank" ->
  enc_source e = src ->
  (now - DAY_MS < enc_createdAt e)%Z ->
  exists recent,
    recentEncounter now data id w = Some recent
    /\ In recent (encounters w)
    /\ enc_vocabId recent = id
    /\ enc_pageUrl recent = re_pageUrl data
    /\ enc_source recent = src.
Proof.
  intros now data id w e src Hin Hvid Hurl Hsrc Hkind Hes Hage.
  unfold recentEncounter. rewrite Hsrc.
  assert (Hk : optStrEqb (Some src) "scan" || optStrEqb (Some src) "lookup"
               || optStrEqb (Some src) "wordbank" = true).
  { simpl. destruct Hkind as [ -> | [ -> | -> ] ]; reflexivity. }
  rewrite Hk.
  match goal with |- exists r, find ?p ?l = Some r /\ _ =>
    destruct (find p l) as [recent|] eqn:Hfind
  end.
  - exists recent. split; [reflexivity|].
    apply find_some in Hfind. destruct Hfind as [Hrin Hp].
    unfold encountersOf in Hrin. apply filter_In in Hrin. destruct Hrin as [Hrin Hrv].
    apply andb_true_iff in Hp. destruct Hp as [Hp _].
    apply andb_true_iff in Hp. destruct Hp as [Hp1 Hp2].
    apply String.eqb_eq in Hrv, Hp1. simpl in Hp2. apply String.eqb_eq in Hp2.
    repeat split; congruence.
  - exfalso.
    assert (Hine : In e (encountersOf id (encounters w))).
    { unfold encountersOf. apply filter_In. split; [exact Hin|].
      rewrite Hvid. apply String.eqb_refl. }
    apply (find_none _ _ Hfind) in Hine. simpl in Hine.
    rewrite Hurl, String.eqb_refl, Hes, String.eqb_refl in Hine. simpl in Hine.
    apply Z.ltb_ge in Hine. lia.
Qed.

End EncounterFacts.

(** X10.  A repeat sighting: when the entry already has a scan, lookup or
    wordbank encounter from the same page and source that is less than 24
    hours old, recording another one adds no encounter and changes no
    entry; the only write touches [updatedAt] of an encounter of that page
    and source, and that encounter is the result. *)
Theorem X10_record_dedup :
  forall (H : Host) (now : Z) (data : RecordEncounterPayload) (w : World)
         (id host src : string) (v : VocabEntity) (e : EncounterEntity),
    re_vocabId data = Some id -> id <> "" ->
    trim (re_pageUrl data) <> "" ->
    urlHost (re_pageUrl data) = Some host ->
    tbl_get vocabId id (vocabulary w) = Some v ->
    truthyNum (deletedAt v) = false ->
    re_source data = Some src ->
    src = "scan" \/ src = "lookup" \/ src = "wordbank" ->
    In e (encounters w) ->
    enc_vocabId e = id ->
    enc_pageUrl e = re_pageUrl data ->
    enc_source e = src ->
    (now - DAY_MS < enc_createdAt e)%Z ->
    exists recent w',
      handleRecordEncounter now data w = (Resolved recent, w')
      /\ In recent (encounters w)
      /\ enc_vocabId recent = id
      /\ enc_pageUrl recent = re_pageUrl data
      /\ enc_source recent = src
      /\ vocabulary w' = vocabulary w
      /\ encounters w'
         = tbl_update enc_encounterId (enc_encounterId recent) (touchEncounter now)
             (encounters w)
      /\ map enc_encounterId (encounters w') = map enc_encounterId (encounters w)
      /\ map enc_source (encounters w') = map enc_source (encounters w)
      /\ writes w'
         = (writes w ++ [(T_encounters, W_update, enc_encounterId recent)])%list.
Proof.
  intros H now data w id host src v e Hid Hne Hurl Hhost Hget Hlive Hsrc Hkind
    Hin Hvid Hpage Hes Hage.
  destruct (resolve_by_id now data w id v Hid Hne Hget Hlive) as [surf Hres].
  destruct (recentEncounter_found now data id w e src Hin Hvid Hpage Hsrc Hkind Hes Hage)
    as (recent & Hrec & Hrin & Hrv & Hrp & Hrs).
  unfold handleRecordEncounter.
  apply String.eqb_neq in Hurl. rewrite Hurl.
  unfold bind at 1. rewrite Hres. simpl. rewrite Hhost.
  unfold bind at 1, reads at 1. rewrite Hrec.
  unfold bind, enc_update, modify, ret. simpl.
  do 2 eexists. split; [reflexivity|]. simpl.
  repeat split; try assumption.
  - unfold tbl_update. rewrite map_map. apply map_ext.
    intro x. destruct (enc_encounterId x =? enc_encounterId recent)%string; reflexivity.
  - unfold tbl_update. rewrite map_map. apply map_ext.
    intro x. destruct (enc_encounterId x =? enc_encounterId recent)%string; reflexivity.
Qed.

Lemma X10_record_dedup_witness :
  let H := exampleHost in
  exists recent w',
    handleRecordEncounter 1000 repeatPayload lookupWorld = (Resolved recent, w')
    /\ In recent (encounters lookupWorld)
    /\ enc_vocabId recent = "v1"
    /\ enc_pageUrl recent = re_pageUrl repeatPayload
    /\ enc_source recent = "lookup"
    /\ vocabulary w' = vocabulary lookupWorld
    /\ encounters w'
       = tbl_update enc_encounterId (enc_encounterId recent) (touchEncounter 1000)
           (encounters lookupWorld)
    /\ map enc_encounterId (encounters w') = map enc_encounterId (encounters lookupWorld)
    /\ map enc_source (encounters w') = map enc_source (encounters lookupWorld)
    /\ writes w'
       = (writes lookupWorld ++ [(T_encounters, W_update, enc_encounterId recent)])%list.
Proof.
  apply (X10_record_dedup exampleHost 1000 repeatPayload lookupWorld
           "v1" "https://a.example/" "lookup"
           (entry "v1" "the" 100 true true false true)
           (sighting "e1" "v1" "lookup" 0)).
  - reflexivity.
  - discriminate.
  - discriminate.
  - reflexivity.
  - reflexivity.
  - reflexivity.
  - reflexivity.
  - right. left. reflexivity.
  - left. reflexivity.
  - reflexivity.
  - reflexivity.
  - reflexivity.
  - vm_compute. reflexivity.
Defined.




(** X12.  Recording by word with a page URL that does not parse is refused
    as [invalid pageUrl] only after the word has been upserted: for a word
    that had no entry, the rejected call leaves a new vocabulary entry
    behind, with no encounter. *)
Theorem X12_record_invalid_url_keeps_entry :
  forall (H : Host) (now : Z) (data : RecordEncounterPayload) (w : World)
         (word : string),
    truthyStr (re_vocabId data) = false ->
    re_word data = Some word ->
    trim word <> "" ->
    trim (normalizeLemma word) <> "" ->
    trim (re_pageUrl data) <> "" ->
    urlHost (re_pageUrl data) = None ->
    findByLemma (normalizeLemma (normalizeLemma word)) (orStr (re_language data) "en")
      (vocabulary w) = None ->
    tbl_get vocabId (randomUUID (uuidCount w)) (vocabulary w) = None ->
    exists w' v,
      handleRecordEncounter now data w
      = (Rejected (VALIDATION_ERROR "invalid pageUrl"), w')
      /\ tbl_get vocabId (randomUUID (uuidCount w)) (vocabulary w') = Some v
      /\ lemma v = normalizeLemma (normalizeLemma word)
      /\ language v = orStr (re_language data) "en"
      /\ encounters w' = encounters w
      /\ writes w'
         = (writes w ++ [(T_vocabulary, W_add, randomUUID (uuidCount w))])%list.
Proof.
  intros H now data w word Hnoid Hword Hw Hnw Hurl Hhost Hnew Hfresh.
  assert (Hlang : orStr (Some (orStr (re_language data) "en")) "en"
                  = orStr (re_language data) "en").
  { unfold orStr at 1. simpl.
    destruct (orStr (re_language data) "en" =? "")%string eqn:He; [|reflexivity].
    exfalso. apply String.eqb_eq in He. unfold orStr in He.
    destruct (re_language data) as [l|]; simpl in He; [|discriminate].
    destruct (l =? "")%string eqn:Hl; simpl in He; [discriminate|].
    apply String.eqb_neq in Hl. contradiction. }
  unfold handleRecordEncounter.
  apply String.eqb_neq in Hurl, Hw, Hnw. rewrite Hurl.
  unfold bind at 1. unfold resolveEncounterVocab. rewrite Hnoid, Hword. simpl.
  rewrite Hw. unfold bind at 1. unfold handleUpsertVocab. simpl. rewrite Hnw.
  unfold bind at 1, reads at 1. simpl.
  unfold bind at 1, reads at 1. simpl. rewrite Hlang, Hnew.
  unfold bind at 1, freshUUID at 1.
  unfold bind at 1, vocab_add at 1. simpl. rewrite Hfresh.
  unfold ret. simpl. rewrite Hhost. unfold throw.
  do 2 eexists. split; [reflexivity|]. simpl. split.
  { match goal with |- tbl_get _ _ (tbl_put _ ?u _) = _ =>
      exact (tbl_get_put_same vocabId u (vocabulary w)) end. }
  repeat split; reflexivity.
Qed.

Lemma X12_record_invalid_url_keeps_entry_witness :
  let H := strictHost in
  exists w' v,
    handleRecordEncounter 1000 badUrlPayload emptyWorld
    = (Rejected (VALIDATION_ERROR "invalid pageUrl"), w')
    /\ tbl_get vocabId (randomUUID (uuidCount emptyWorld)) (vocabulary w') = Some v
    /\ lemma v = normalizeLemma (normalizeLemma "cat")
    /\ language v = orStr (re_language badUrlPayload) "en"
    /\ encounters w' = encounters emptyWorld
    /\ writes w'
       = (writes emptyWorld
            ++ [(T_vocabulary, W_add, randomUUID (uuidCount emptyWorld))])%list.
Proof.
  apply (X12_record_invalid_url_keeps_entry strictHost 1000 badUrlPayload emptyWorld
           "cat").
  - reflexivity.
  - reflexivity.
  - discriminate.
  - discriminate.
  - discriminate.
  - reflexivity.
  - reflexivity.
  - reflexivity.
Defined.

(* ----------------------------------------------------------------- *)
(** *** Deleting encounters *)

Lemma tbl_get_delete_same : forall {A} (key : A -> string) k t,
  tbl_get key k (tbl_delete key k t) = None.
Proof.
  intros A key k t. unfold tbl_get, tbl_delete.
  induction t as [|r t IH]; simpl; [reflexivity|].
  destruct (key r =? k)%string eqn:Hk; simpl; [exact IH|].
  rewrite Hk. exact IH.
Qed.

Lemma tbl_get_delete_other : forall {A} (key : A -> string) k k' t,
  k' <> k -> tbl_get key k' (tbl_delete key k t) = tbl_get key k' t.
Proof.
  intros A key k k' t Hne. unfold tbl_get, tbl_delete.
  induction t as [|r t IH]; simpl; [reflexivity|].
  destruct (key r =? k)%string eqn:Hk; simpl.
  - apply String.eqb_eq in Hk.
    assert (Hk' : (key r =? k')%string = false) by (apply String.eqb_neq; congruence).
    rewrite Hk'. exact IH.
  - destruct (key r =? k')%string; [reflexivity | exact IH].
Qed.

Section DeleteEncounterFacts.
Context {H : Host}.

(** The handler always settles successfully, and the encounters it leaves
    are the old ones without the one named. *)
Lemma deleteEncounter_runs : forall now eid w,
  eid <> "" ->
  exists r w',
    handleDeleteEncounter now (Some eid) w = (Resolved r, w')
    /\ de_success r = true
    /\ encounters w' = tbl_delete enc_encounterId eid (encounters w).
Proof.
  intros now eid w Hne.
  assert (Hid' : (eid =? "")%string = false) by (apply String.eqb_neq; exact Hne).
  unfold handleDeleteEncounter. simpl. rewrite Hid'. simpl.
  unfold bind at 1, reads at 1.
  destruct (tbl_get enc_encounterId eid (encounters w)) as [e|] eqn:Hget.
  - unfold bind at 1, enc_delete at 1, modify at 1.
    unfold bind at 1. unfold cleanupOrphanedVocab. unfold bind at 1, reads at 1.
    simpl.
    destruct (Nat.eqb _ 0).
    + unfold bind, vocab_delete, modify, ret. simpl.
      do 2 eexists. repeat split; reflexivity.
    + unfold ret at 1. simpl.
      unfold bind at 1. unfold bind at 1.
      destruct (enc_source e =? "trace")%string.
      * unfold bind at 1, reads at 1.
        destruct (find _ _).
        { unfold ret at 1. unfold recalcVocabScore, bind, reads. simpl.
          destruct (tbl_get vocabId (enc_vocabId e) (vocabulary w)) as [v|].
          - destruct (truthyNum (deletedAt v) || truthy (scoreLocked v));
              unfold vocab_update, modify, ret; simpl;
              do 2 eexists; repeat split; reflexivity.
          - unfold ret. simpl. do 2 eexists. repeat split; reflexivity. }
        { unfold vocab_update at 1, modify at 1.
          unfold recalcVocabScore, bind, reads. simpl.
          destruct (tbl_get vocabId (enc_vocabId e) _) as [v|].
          - destruct (truthyNum (deletedAt v) || truthy (scoreLocked v));
              unfold vocab_update, modify, ret; simpl;
              do 2 eexists; repeat split; reflexivity.
          - unfold ret. simpl. do 2 eexists. repeat split; reflexivity. }
      * unfold ret at 1. unfold recalcVocabScore, bind, reads. simpl.
        destruct (tbl_get vocabId (enc_vocabId e) (vocabulary w)) as [v|].
        { destruct (truthyNum (deletedAt v) || truthy (scoreLocked v));
            unfold vocab_update, modify, ret; simpl;
            do 2 eexists; repeat split; reflexivity. }
        { unfold ret. simpl. do 2 eexists. repeat split; reflexivity. }
  - unfold ret. do 2 eexists. split; [reflexivity|]. split; [reflexivity|].
    unfold tbl_delete. symmetry. apply forallb_filter_id.
    apply forallb_forall. intros x Hx.
    apply negb_true_iff. apply String.eqb_neq.
    apply (tbl_get_None_fresh _ _ _ Hget x Hx).
Qed.

End DeleteEncounterFacts.

(** X13.  Deleting an encounter always succeeds, and it is idempotent: once
    it has run, the encounter is gone, and deleting it again reports success
    and leaves the store exactly as it is. *)
Theorem X13_delete_encounter_idempotent :
  forall (H : Host) (now now' : Z) (eid : string) (w : World),
    eid <> "" ->
    exists r w',
      handleDeleteEncounter now (Some eid) w = (Resolved r, w')
      /\ de_success r = true
      /\ tbl_get enc_encounterId eid (encounters w') = None
      /\ (forall k, k <> eid ->
            tbl_get enc_encounterId k (encounters w')
            = tbl_get enc_encounterId k (encounters w))
      /\ handleDeleteEncounter now' (Some eid) w'
         = (Resolved {| de_success := true; de_vocabDeleted := None |}, w').
Proof.
  intros H now now' eid w Hne.
  destruct (deleteEncounter_runs now eid w Hne) as (r & w' & Hrun & Hok & Henc).
  exists r, w'. split; [exact Hrun|]. split; [exact Hok|].
  assert (Hgone : tbl_get enc_encounterId eid (encounters w') = None)
    by (rewrite Henc; apply tbl_get_delete_same).
  split; [exact Hgone|]. split.
  - intros k Hk. rewrite Henc. apply tbl_get_delete_other. exact Hk.
  - assert (Hid' : (eid =? "")%string = false) by (apply String.eqb_neq; exact Hne).
    unfold handleDeleteEncounter, bind, reads, ret. simpl.
    rewrite Hid'. simpl. rewrite Hgone. reflexivity.
Qed.

Lemma X13_delete_encounter_idempotent_witness :
  let H := exampleHost in
  exists r w',
    handleDeleteEncounter 30 (Some "e3") ratedWorld = (Resolved r, w')
    /\ de_success r = true
    /\ tbl_get enc_encounterId "e3" (encounters w') = None
    /\ (forall k, k <> "e3" ->
          tbl_get enc_encounterId k (encounters w')
          = tbl_get enc_encounterId k (encounters ratedWorld))
    /\ handleDeleteEncounter 31 (Some "e3") w'
       = (Resolved {| de_success := true; de_vocabDeleted := None |}, w').
Proof.
  apply (X13_delete_encounter_idempotent exampleHost 30 31 "e3" ratedWorld).
  discriminate.
Defined.


Lemma encountersOf_delete_only : forall vid eid t,
  (forall x, In x t -> enc_vocabId x = vid -> enc_encounterId x = eid) ->
  encountersOf vid (tbl_delete enc_encounterId eid t) = [].
Proof.
  intros vid eid t. unfold encountersOf, tbl_delete.
  induction t as [|x t IH]; simpl; intro Honly; [reflexivity|].
  destruct (enc_encounterId x =? eid)%string eqn:Hx; simpl.
  - apply IH. intros y Hy. apply Honly. right. exact Hy.
  - destruct (enc_vocabId x =? vid)%string eqn:Hv.
    + apply String.eqb_eq in Hv. apply String.eqb_neq in Hx.
      exfalso. apply Hx. apply Honly; [left; reflexivity | exact Hv].
    + apply IH. intros y Hy. apply Honly. right. exact Hy.
Qed.

(** X14.  Deleting the last encounter of an entry removes the entry itself
    from the vocabulary, whatever its flags: the orphan cleanup looks at the
    encounter count only. *)
Theorem X14_delete_last_encounter :
  forall (H : Host) (now : Z) (eid : string) (w : World) (e : EncounterEntity),
    eid <> "" ->
    tbl_get enc_encounterId eid (encounters w) = Some e ->
    (forall x, In x (encounters w) -> enc_vocabId x = enc_vocabId e ->
               enc_encounterId x = eid) ->
    exists w',
      handleDeleteEncounter now (Some eid) w
      = (Resolved {| de_success := true; de_vocabDeleted := Some true |}, w')
      /\ vocabulary w' = tbl_delete vocabId (enc_vocabId e) (vocabulary w)
      /\ tbl_get vocabId (enc_vocabId e) (vocabulary w') = None
      /\ encounters w' = tbl_delete enc_encounterId eid (encounters w)
      /\ writes w'
         = (writes w ++ [(T_encounters, W_delete, eid);
                         (T_vocabulary, W_delete, enc_vocabId e)])%list.
Proof.
  intros H now eid w e Hne Hget Honly.
  assert (Hid' : (eid =? "")%string = false) by (apply String.eqb_neq; exact Hne).
  assert (Hnone : encountersOf (enc_vocabId e)
                    (tbl_delete enc_encounterId eid (encounters w)) = []).
  { apply encountersOf_delete_only. exact Honly. }
  unfold handleDeleteEncounter. simpl. rewrite Hid'. simpl.
  unfold bind at 1, reads at 1. rewrite Hget.
  unfold bind at 1, enc_delete at 1, modify at 1.
  unfold bind at 1. unfold cleanupOrphanedVocab. unfold bind at 1, reads at 1.
  simpl. rewrite Hnone. simpl.
  unfold bind, vocab_delete, modify, ret. simpl.
  eexists. split; [reflexivity|]. simpl.
  split; [reflexivity|]. split; [apply tbl_get_delete_same|].
  split; [reflexivity|].
  rewrite <- app_assoc. reflexivity.
Qed.

Lemma X14_delete_last_encounter_witness :
  let H := exampleHost in
  exists w',
    handleDeleteEncounter 30 (Some "e1") lookupWorld
    = (Resolved {| de_success := true; de_vocabDeleted := Some true |}, w')
    /\ vocabulary w' = tbl_delete vocabId "v1" (vocabulary lookupWorld)
    /\ tbl_get vocabId "v1" (vocabulary w') = None
    /\ encounters w' = tbl_delete enc_encounterId "e1" (encounters lookupWorld)
    /\ writes w'
       = (writes lookupWorld ++ [(T_encounters, W_delete, "e1");
                                 (T_vocabulary, W_delete, "v1")])%list.
Proof.
  apply (X14_delete_last_encounter exampleHost 30 "e1" lookupWorld
           (sighting "e1" "v1" "lookup" 0)).
  - discriminate.
  - reflexivity.
  - intros x [<-|[]] _. reflexivity.
Defined.




(* ================================================================= *)
(** ** Upserting and deleting entries (vocab.ts) *)

Section PutFacts.
Context {A : Type} (key : A -> string).

Lemma str_lt_Gt : forall a b, str_lt a b -> String.compare b a = Gt.
Proof.
  intros a b Hlt. unfold str_lt in Hlt.
  rewrite String.compare_antisym, Hlt. reflexivity.
Qed.

(** Putting a row that no other row resembles makes it the one found. *)
Lemma find_put_new : forall (p : A -> bool) r t,
  (forall x, In x t -> p x = false) -> p r = true ->
  find p (tbl_put key r t) = Some r.
Proof.
  intros p r t. induction t as [|x t IH]; simpl; intros Hnone Hr.
  - rewrite Hr. reflexivity.
  - destruct (String.compare (key r) (key x)); simpl.
    + rewrite Hr. reflexivity.
    + rewrite Hr. reflexivity.
    + rewrite (Hnone x (or_introl eq_refl)).
      apply IH; [|exact Hr]. intros y Hy. apply Hnone. right. exact Hy.
Qed.

(** Replacing the first row found, under its own key, keeps it first. *)
Lemma find_put_replace : forall (p : A -> bool) r r0 t,
  tbl_ok key t -> find p t = Some r0 -> key r = key r0 -> p r = true ->
  find p (tbl_put key r t) = Some r.
Proof.
  intros p r r0 t Hok. induction Hok as [|x t Hok IH Hall]; simpl;
    intros Hfind Hkey Hr; [discriminate|].
  rewrite Forall_forall in Hall.
  destruct (p x) eqn:Hpx.
  - inversion Hfind; subst x. rewrite Hkey, compare_refl. simpl. rewrite Hr. reflexivity.
  - assert (Hin : In r0 t) by (apply find_some in Hfind; tauto).
    rewrite Hkey, (str_lt_Gt _ _ (Hall r0 Hin)). simpl. rewrite Hpx.
    apply IH; assumption.
Qed.
End PutFacts.

(** X16.  An upsert by lemma makes the [lemma+language] index answer with
    the entry it returns.  When the index already had an entry, that entry
    is updated in place: no row is added, and its id, score, flags and
    [deletedAt] are kept, so a soft-deleted word stays deleted.  Otherwise
    one fresh row is added, with no score and no flags. *)
Theorem X16_upsert_by_lemma :
  forall (H : Host) (now : Z) (data : UpsertVocabPayload) (w w' : World)
         (v : VocabEntity),
    tbl_ok vocabId (vocabulary w) ->
    truthyStr (up_vocabId data) = false ->
    handleUpsertVocab now data w = (Resolved v, w') ->
    let l := normalizeLemma (up_lemma data) in
    let lang := orStr (up_language data) "en" in
    findByLemma l lang (vocabulary w') = Some v
    /\ tbl_ok vocabId (vocabulary w')
    /\ encounters w' = encounters w
    /\ match findByLemma l lang (vocabulary w) with
       | Some old =>
           vocabId v = vocabId old
           /\ map vocabId (vocabulary w') = map vocabId (vocabulary w)
           /\ familiarityScore v = familiarityScore old
           /\ isKnown v = isKnown old
           /\ scoreLocked v = scoreLocked old
           /\ isTraced v = isTraced old
           /\ deletedAt v = deletedAt old
       | None =>
           tbl_get vocabId (vocabId v) (vocabulary w) = None
           /\ Permutation (vocabulary w') (v :: vocabulary w)
           /\ lemma v = l /\ language v = lang
           /\ familiarityScore v = None
           /\ scoreLocked v = None
           /\ isTraced v = None
           /\ deletedAt v = None
       end.
Proof.
  intros H now data w w' v Hok Hnoid Hrun l lang.
  unfold handleUpsertVocab in Hrun.
  destruct (trim (up_lemma data) =? "")%string; [discriminate|].
  unfold bind at 1, reads at 1 in Hrun. rewrite Hnoid in Hrun.
  unfold bind at 1, reads at 1 in Hrun. fold l lang in Hrun.
  destruct (findByLemma l lang (vocabulary w)) as [old|] eqn:Hfound.
  - unfold bind, vocab_put, modify, ret in Hrun. simpl in Hrun.
    inversion Hrun; subst v w'; clear Hrun. simpl.
    pose proof Hfound as Hold. unfold findByLemma in Hold.
    apply find_some in Hold. destruct Hold as [Hin Hmatch].
    split.
    { unfold findByLemma. eapply find_put_replace;
        [exact Hok | exact Hfound | reflexivity | exact Hmatch]. }
    split; [apply tbl_put_ok; exact Hok|]. split; [reflexivity|].
    split; [reflexivity|]. split.
    { eapply (tbl_put_replace_column vocabId vocabId); [exact Hok | exact Hin | | ];
        reflexivity. }
    repeat split; reflexivity.
  - unfold bind at 1, freshUUID at 1 in Hrun.
    unfold bind, vocab_add in Hrun. simpl in Hrun.
    destruct (tbl_get vocabId (randomUUID (uuidCount w)) (vocabulary w)) eqn:Hfresh;
      [discriminate|].
    unfold ret in Hrun. inversion Hrun; subst v w'; clear Hrun. simpl.
    split.
    { unfold findByLemma. apply find_put_new.
      - intros x Hx. unfold findByLemma in Hfound. apply (find_none _ _ Hfound x Hx).
      - simpl. rewrite !String.eqb_refl. reflexivity. }
    split; [apply tbl_put_ok; exact Hok|]. split; [reflexivity|].
    split; [exact Hfresh|]. split.
    { apply tbl_put_fresh_perm. intros x Hx. simpl.
      apply (tbl_get_None_fresh _ _ _ Hfresh x Hx). }
    repeat split; reflexivity.
Qed.

Lemma X16_upsert_by_lemma_witness :
  let H := exampleHost in
  let run := handleUpsertVocab 7 dogPayload noiseWorld in
  exists v,
    fst run = Resolved v
    /\ findByLemma (normalizeLemma "dog") "en" (vocabulary (snd run)) = Some v
    /\ tbl_ok vocabId (vocabulary (snd run))
    /\ encounters (snd run) = encounters noiseWorld
    /\ tbl_get vocabId (vocabId v) (vocabulary noiseWorld) = None
    /\ Permutation (vocabulary (snd run)) (v :: vocabulary noiseWorld)
    /\ lemma v = normalizeLemma "dog" /\ language v = "en"
    /\ familiarityScore v = None
    /\ scoreLocked v = None
    /\ isTraced v = None
    /\ deletedAt v = None.
Proof.
  eexists. split; [reflexivity|].
  apply (X16_upsert_by_lemma exampleHost 7 dogPayload noiseWorld).
  - repeat constructor.
  - reflexivity.
  - reflexivity.
Defined.


Lemma forEach_enc_delete : forall (l : list EncounterEntity) w,
  exists w',
    forEach l (fun e => enc_delete (enc_encounterId e)) w = (Resolved tt, w')
    /\ vocabulary w' = vocabulary w
    /\ (forall x, In x (encounters w') <->
                  In x (encounters w)
                  /\ ~ In (enc_encounterId x) (map enc_encounterId l))
    /\ writes w'
       = (writes w ++ map (fun e => (T_encounters, W_delete, enc_encounterId e)) l)%list.
Proof.
  induction l as [|e l IH]; intro w; simpl.
  - exists w. unfold ret. split; [reflexivity|]. split; [reflexivity|]. split.
    + intro x. tauto.
    + rewrite app_nil_r. reflexivity.
  - unfold bind, enc_delete at 1, modify.
    set (w1 := logWrite T_encounters W_delete (enc_encounterId e)
                 (with_encounters (tbl_delete enc_encounterId (enc_encounterId e)) w)).
    destruct (IH w1) as (w' & Hrun & Hv & Hx & Hw).
    exists w'. unfold bind in Hrun. rewrite Hrun.
    split; [reflexivity|]. split; [rewrite Hv; reflexivity|]. split.
    + intro x. rewrite Hx. unfold w1. simpl. unfold tbl_delete.
      rewrite filter_In, negb_true_iff, String.eqb_neq. intuition congruence.
    + rewrite Hw. unfold w1. simpl. rewrite <- app_assoc. reflexivity.
Qed.

(** X17.  A hard delete removes the entry and every encounter that belongs
    to it, and no other encounter: nothing is left pointing at the deleted
    id. *)
Theorem X17_hard_delete_leaves_no_orphans :
  forall (H : Host) (now : Z) (id : string) (w : World) (v : VocabEntity),
    id <> "" ->
    tbl_ok enc_encounterId (encounters w) ->
    tbl_get vocabId id (vocabulary w) = Some v ->
    exists w',
      handleDeleteVocab now {| dv_vocabId := Some id; dv_hardDelete := Some true |} w
      = (Resolved id, w')
      /\ tbl_get vocabId id (vocabulary w') = None
      /\ (forall k, k <> id ->
            tbl_get vocabId k (vocabulary w') = tbl_get vocabId k (vocabulary w))
      /\ encountersOf id (encounters w') = []
      /\ (forall x, In x (encounters w') <->
                    In x (encounters w) /\ enc_vocabId x <> id).
Proof.
  intros H now id w v Hne Hok Hget.
  assert (Hid' : (id =? "")%string = false) by (apply String.eqb_neq; exact Hne).
  unfold handleDeleteVocab. simpl. rewrite Hid'. simpl.
  unfold bind at 1, reads at 1. rewrite Hget.
  unfold bind at 1. unfold bind at 1, vocab_delete at 1, modify at 1.
  unfold bind at 1, reads at 1. simpl.
  set (w1 := logWrite T_vocabulary W_delete id
               (with_vocabulary (tbl_delete vocabId id) w)).
  destruct (forEach_enc_delete (encountersOf id (encounters w)) w1)
    as (w' & Hrun & Hv & Hx & _).
  fold w1. rewrite Hrun. unfold ret. exists w'. split; [reflexivity|].
  assert (Hmem : forall x, In x (encounters w') <->
                           In x (encounters w) /\ enc_vocabId x <> id).
  { intro x. rewrite Hx. unfold w1. simpl. split.
    - intros [Hin Hnot]. split; [exact Hin|]. intro Hvid. apply Hnot.
      apply in_map. unfold encountersOf. apply filter_In. split; [exact Hin|].
      rewrite Hvid. apply String.eqb_refl.
    - intros [Hin Hvid]. split; [exact Hin|]. intro Hmine.
      apply in_map_iff in Hmine. destruct Hmine as [y [Hy Hyin]].
      unfold encountersOf in Hyin. apply filter_In in Hyin.
      destruct Hyin as [Hyin Hyv]. apply String.eqb_eq in Hyv.
      assert (y = x).
      { apply (tbl_ok_same_key enc_encounterId (encounters w)); assumption. }
      subst y. contradiction. }
  rewrite Hv. unfold w1. simpl.
  split; [apply tbl_get_delete_same|]. split.
  { intros k Hk. apply tbl_get_delete_other. exact Hk. }
  split; [|exact Hmem].
  destruct (encountersOf id (encounters w')) as [|x xs] eqn:Hnil; [reflexivity|].
  exfalso.
  assert (Hin : In x (encountersOf id (encounters w'))) by (rewrite Hnil; left; reflexivity).
  unfold encountersOf in Hin. apply filter_In in Hin. destruct Hin as [Hin Hxv].
  apply String.eqb_eq in Hxv. apply Hmem in Hin. tauto.
Qed.

Lemma X17_hard_delete_leaves_no_orphans_witness :
  let H := exampleHost in
  exists w',
    handleDeleteVocab 30 {| dv_vocabId := Some "v1"; dv_hardDelete := Some true |}
      ratedWorld
    = (Resolved "v1", w')
    /\ tbl_get vocabId "v1" (vocabulary w') = None
    /\ (forall k, k <> "v1" ->
          tbl_get vocabId k (vocabulary w') = tbl_get vocabId k (vocabulary ratedWorld))
    /\ encountersOf "v1" (encounters w') = []
    /\ (forall x, In x (encounters w') <->
                  In x (encounters ratedWorld) /\ enc_vocabId x <> "v1").
Proof.
  apply (X17_hard_delete_leaves_no_orphans exampleHost 30 "v1" ratedWorld
           (entry "v1" "alpha" 50 false false false false)).
  - discriminate.
  - repeat constructor.
  - reflexivity.
Defined.

Section DrawnCards.
Context {H : Host}.

Lemma slice0_incl : forall {A} (n : Z) (l : list A) x, In x (slice0 n l) -> In x l.
Proof.
  intros A n l x. unfold slice0.
  destruct (n <? 0)%Z; intro Hin;
    match type of Hin with In _ (firstn ?k _) =>
      rewrite <- (firstn_skipn k l); apply in_or_app; left; exact Hin
    end.
Qed.

(** Every card comes from an eligible entry. *)
Lemma drawn_card_eligible : forall now calls payload w card,
  In card (handleDrawCard now calls payload w) ->
  exists v,
    In v (drawEligible w (nullish (dc_excludeIds payload) []))
    /\ card_vocabId card = vocabId v.
Proof.
  intros now calls payload w card Hin.
  rewrite handleDrawCard_selected in Hin. apply in_map_iff in Hin.
  destruct Hin as [s [Hcard Hs]]. subst card.
  assert (Hscored : In s (map (scoreEligible now w)
                            (drawEligible w (nullish (dc_excludeIds payload) [])))).
  { unfold drawSelected in Hs.
    destruct (_ =? _)%string.
    - unfold pickTopN in Hs. apply slice0_incl in Hs.
      unfold array_sort in Hs.
      apply (Permutation_in _ (stable_sort_perm _ _)) in Hs. exact Hs.
    - unfold weightedSampleWithoutReplacement in Hs.
      apply in_map_iff in Hs. destruct Hs as [ks [Hks Hin]]. subst s.
      apply slice0_incl in Hin. unfold array_sort in Hin.
      apply (Permutation_in _ (stable_sort_perm _ _)) in Hin.
      apply (in_map fst) in Hin.
      destruct (dc_seed payload);
        [rewrite lcgKeys_fst in Hin | rewrite randomKeys_fst in Hin]; exact Hin. }
  apply in_map_iff in Hscored. destruct Hscored as [v [Hv Hvin]].
  exists v. split; [exact Hvin|]. subst s. reflexivity.
Qed.
End DrawnCards.

(** X18.  A soft delete stamps [deletedAt] on the entry and keeps its
    encounters.  From then on the entry is never drawn as a review card, and
    recording an encounter for its id is refused as not found. *)
Theorem X18_soft_delete_hides_entry :
  forall (H : Host) (now : Z) (id : string) (w : World) (v : VocabEntity),
    id <> "" -> now <> 0%Z ->
    tbl_ok vocabId (vocabulary w) ->
    tbl_get vocabId id (vocabulary w) = Some v ->
    exists w',
      handleDeleteVocab now {| dv_vocabId := Some id; dv_hardDelete := None |} w
      = (Resolved id, w')
      /\ tbl_get vocabId id (vocabulary w') = Some (markDeleted now v)
      /\ encounters w' = encounters w
      /\ (forall now' calls payload,
            ~ In id (map card_vocabId (handleDrawCard now' calls payload w')))
      /\ (forall now' data,
            re_vocabId data = Some id -> trim (re_pageUrl data) <> "" ->
            handleRecordEncounter now' data w'
            = (Rejected (NOT_FOUND "vocabulary not found"), w')).
Proof.
  intros H now id w v Hne Hnow Hok Hget.
  assert (Hid' : (id =? "")%string = false) by (apply String.eqb_neq; exact Hne).
  assert (Hkey : forall r, vocabId (markDeleted now r) = vocabId r) by reflexivity.
  assert (Hdel : truthyNum (deletedAt (markDeleted now v)) = true).
  { simpl. apply negb_true_iff. apply Z.eqb_neq. exact Hnow. }
  unfold handleDeleteVocab. simpl. rewrite Hid'. simpl.
  unfold bind, reads, vocab_modify, modify, ret. rewrite Hget. simpl.
  eexists. split; [reflexivity|]. simpl.
  assert (Hget' : tbl_get vocabId id
                    (tbl_update vocabId id (markDeleted now) (vocabulary w))
                  = Some (markDeleted now v)).
  { rewrite tbl_get_update_same by exact Hkey. rewrite Hget. reflexivity. }
  split; [exact Hget'|]. split; [reflexivity|]. split.
  - intros now' calls payload Hin. apply in_map_iff in Hin.
    destruct Hin as [card [Hcid Hcard]].
    apply drawn_card_eligible in Hcard. destruct Hcard as [x [Hx Hxid]].
    unfold drawEligible, drawCandidates in Hx.
    apply filter_In in Hx. destruct Hx as [Hx _].
    apply filter_In in Hx. destruct Hx as [Hx Hflags]. simpl in Hx.
    assert (Hxk : vocabId x = id) by congruence.
    assert (Hrow : tbl_get vocabId (vocabId x)
                     (tbl_update vocabId id (markDeleted now) (vocabulary w)) = Some x).
    { apply tbl_ok_get_In; [|exact Hx]. apply tbl_update_ok; [exact Hkey | exact Hok]. }
    rewrite Hxk, Hget' in Hrow. inversion Hrow; subst x.
    rewrite Hdel in Hflags. discriminate.
  - intros now' data Hid Hurl.
    unfold handleRecordEncounter.
    apply String.eqb_neq in Hurl. rewrite Hurl.
    unfold bind at 1. unfold resolveEncounterVocab.
    rewrite Hid. simpl. rewrite Hid'. simpl. unfold bind, reads, throw. simpl.
    rewrite Hget'. rewrite Hdel. reflexivity.
Qed.

Lemma X18_soft_delete_hides_entry_witness :
  let H := exampleHost in
  let v := entry "v1" "alpha" 50 false false false false in
  exists w',
    handleDeleteVocab 30 {| dv_vocabId := Some "v1"; dv_hardDelete := None |} ratedWorld
    = (Resolved "v1", w')
    /\ tbl_get vocabId "v1" (vocabulary w') = Some (markDeleted 30 v)
    /\ encounters w' = encounters ratedWorld
    /\ (forall now' calls payload,
          ~ In "v1" (map card_vocabId (handleDrawCard now' calls payload w')))
    /\ (forall now' data,
          re_vocabId data = Some "v1" -> trim (re_pageUrl data) <> "" ->
          handleRecordEncounter now' data w'
          = (Rejected (NOT_FOUND "vocabulary not found"), w')).
Proof.
  apply (X18_soft_delete_hides_entry exampleHost 30 "v1" ratedWorld
           (entry "v1" "alpha" 50 false false false false)).
  - discriminate.
  - discriminate.
  - repeat constructor.
  - reflexivity.
Defined.


(* ================================================================= *)
(** ** Noise-word reconciliation (wordbank-loader.ts) *)

Section SetFacts.

Lemma set_has_In : forall x s, set_has x s = true <-> In x s.
Proof.
  intros x s. unfold set_has. rewrite existsb_exists. split.
  - intros [y [Hy Heq]]. apply String.eqb_eq in Heq. subst y. exact Hy.
  - intro Hin. exists x. split; [exact Hin | apply String.eqb_refl].
Qed.

Lemma set_has_false : forall x s, set_has x s = false <-> ~ In x s.
Proof.
  intros x s. rewrite <- set_has_In. destruct (set_has x s); split; intro Hx;
    congruence || (exfalso; apply Hx; reflexivity) || discriminate.
Qed.

Lemma set_add_In : forall x y s, In x (set_add y s) <-> x = y \/ In x s.
Proof.
  intros x y s. unfold set_add. destruct (set_has y s) eqn:Hy.
  - apply set_has_In in Hy. split; [tauto|]. intros [->|Hin]; assumption.
  - rewrite in_app_iff. simpl. intuition congruence.
Qed.

Lemma set_add_NoDup : forall y s, NoDup s -> NoDup (set_add y s).
Proof.
  intros y s Hnd. unfold set_add. destruct (set_has y s) eqn:Hy; [exact Hnd|].
  apply NoDup_app_single; [exact Hnd|]. apply set_has_false. exact Hy.
Qed.

Lemma set_delete_In : forall x y s, In x (set_delete y s) <-> In x s /\ x <> y.
Proof.
  intros x y s. unfold set_delete. rewrite filter_In, negb_true_iff, String.eqb_neq.
  tauto.
Qed.

Lemma fold_set_add_In : forall (l s : list string) x,
  In x (fold_left (fun t y => set_add y t) l s) <-> In x l \/ In x s.
Proof.
  induction l as [|y l IH]; intros s x; simpl.
  - tauto.
  - rewrite IH, set_add_In. intuition congruence.
Qed.

Lemma fold_set_add_NoDup : forall (l s : list string),
  NoDup s -> NoDup (fold_left (fun t y => set_add y t) l s).
Proof.
  induction l as [|y l IH]; intros s Hnd; simpl; [exact Hnd|].
  apply IH. apply set_add_NoDup. exact Hnd.
Qed.

Lemma fold_set_delete_In : forall (l s : list string) x,
  In x (fold_left (fun t y => set_delete y t) l s) <-> In x s /\ ~ In x l.
Proof.
  induction l as [|y l IH]; intros s x; simpl.
  - tauto.
  - rewrite IH, set_delete_In. intuition congruence.
Qed.

Lemma fold_set_delete_NoDup : forall (l s : list string),
  NoDup s -> NoDup (fold_left (fun t y => set_delete y t) l s).
Proof.
  induction l as [|y l IH]; intros s Hnd; simpl; [exact Hnd|].
  apply IH. unfold set_delete. apply NoDup_filter. exact Hnd.
Qed.

Lemma set_of_list_In : forall l x, In x (set_of_list l) <-> In x l.
Proof.
  intros l x. unfold set_of_list. rewrite fold_set_add_In. simpl. tauto.
Qed.

Lemma set_of_list_NoDup : forall l, NoDup (set_of_list l).
Proof. intro l. unfold set_of_list. apply fold_set_add_NoDup. constructor. Qed.

End SetFacts.

Section TargetFacts.
Context {H : Host}.

Lemma toLemmaSet_In : forall xs l,
  In l (toLemmaSet (Some (SArr xs)))
  <-> l <> "" /\ exists s, In s xs /\ normalizeLemma s = l.
Proof.
  intros xs l. unfold toLemmaSet. rewrite set_of_list_In, filter_In, in_map_iff.
  rewrite negb_true_iff, String.eqb_neq. split.
  - intros [[s [Hs Hin]] Hne]. split; [exact Hne|]. exists s. tauto.
  - intros [Hne [s [Hin Hs]]]. split; [|exact Hne]. exists s. tauto.
Qed.

Lemma toLemmaSet_NoDup : forall value, NoDup (toLemmaSet value).
Proof.
  intro value. unfold toLemmaSet.
  destruct value as [[| | | |xs]|]; try constructor. apply set_of_list_NoDup.
Qed.

Lemma fold_bank_In : forall (rows : list WordbankWordEntity) (s : list string) x,
  In x (fold_left (fun t wd => set_add (normalizeLemma (ww_lemma wd)) t) rows s)
  <-> (exists wd, In wd rows /\ normalizeLemma (ww_lemma wd) = x) \/ In x s.
Proof.
  induction rows as [|wd rows IH]; intros s x; simpl.
  - split; [tauto|]. intros [[wd [[] _]]|Hin]. exact Hin.
  - rewrite IH, set_add_In. split.
    + intros [[wd' [Hin Heq]]|[Heq|Hin]].
      * left. exists wd'. tauto.
      * left. exists wd. split; [left; reflexivity | congruence].
      * right. exact Hin.
    + intros [[wd' [[Heq|Hin] Hl]]|Hin].
      * subst wd'. right. left. congruence.
      * left. exists wd'. tauto.
      * right. right. exact Hin.
Qed.

Lemma fold_bank_NoDup : forall (rows : list WordbankWordEntity) (s : list string),
  NoDup s ->
  NoDup (fold_left (fun t wd => set_add (normalizeLemma (ww_lemma wd)) t) rows s).
Proof.
  induction rows as [|wd rows IH]; intros s Hnd; simpl; [exact Hnd|].
  apply IH. apply set_add_NoDup. exact Hnd.
Qed.

Lemma noiseTarget_In : forall w l,
  In l (noiseTarget w)
  <-> ((noiseSourceOf w <> ""
        /\ exists wd, In wd (wordbankWords w)
                      /\ ww_wordbankId wd = noiseSourceOf w
                      /\ normalizeLemma (ww_lemma wd) = l)
       \/ In l (toLemmaSet (settingValue "noiseManualAdd" w)))
      /\ ~ In l (toLemmaSet (settingValue "noiseManualRemove" w)).
Proof.
  intros w l. unfold noiseTarget.
  rewrite fold_set_delete_In, fold_set_add_In.
  assert (Hbank :
    In l (if (noiseSourceOf w =? "")%string then []
          else fold_left (fun t wd => set_add (normalizeLemma (ww_lemma wd)) t)
                 (filter (fun wd => (ww_wordbankId wd =? noiseSourceOf w)%string)
                         (wordbankWords w)) [])
    <-> noiseSourceOf w <> ""
        /\ exists wd, In wd (wordbankWords w)
                      /\ ww_wordbankId wd = noiseSourceOf w
                      /\ normalizeLemma (ww_lemma wd) = l).
  { destruct (noiseSourceOf w =? "")%string eqn:Hs.
    - apply String.eqb_eq in Hs. simpl. split; [tauto|]. intros [Hne _]. congruence.
    - apply String.eqb_neq in Hs. rewrite fold_bank_In. simpl. split.
      + intros [[wd [Hin Hl]]|[]]. split; [exact Hs|].
        apply filter_In in Hin. destruct Hin as [Hin Hid].
        apply String.eqb_eq in Hid. exists wd. tauto.
      + intros [_ [wd [Hin [Hid Hl]]]]. left. exists wd. split; [|exact Hl].
        apply filter_In. split; [exact Hin|]. rewrite Hid. apply String.eqb_refl. }
  rewrite Hbank. tauto.
Qed.

Lemma noiseTarget_NoDup : forall w, NoDup (noiseTarget w).
Proof.
  intro w. unfold noiseTarget.
  apply fold_set_delete_NoDup, fold_set_add_NoDup.
  destruct (noiseSourceOf w =? "")%string; [constructor|].
  apply fold_bank_NoDup. constructor.
Qed.

End TargetFacts.

(** X19.  The noise target set of the reconciliation holds exactly the
    normalized lemmas of the words of the designated noise wordbank (none
    when no wordbank is designated) and the non-empty normalized entries of
    the manual add-list, except those on the manual remove-list: a removal
    wins over both sources.  No lemma occurs in it twice. *)
Theorem X19_noise_target :
  forall (H : Host) (w : World) (l : string),
    (In l (noiseTarget w)
     <-> ((noiseSourceOf w <> ""
           /\ exists wd, In wd (wordbankWords w)
                         /\ ww_wordbankId wd = noiseSourceOf w
                         /\ normalizeLemma (ww_lemma wd) = l)
          \/ In l (toLemmaSet (settingValue "noiseManualAdd" w)))
         /\ ~ In l (toLemmaSet (settingValue "noiseManualRemove" w)))
    /\ NoDup (noiseTarget w)
    /\ (forall xs, In l (toLemmaSet (Some (SArr xs)))
                   <-> l <> "" /\ exists s, In s xs /\ normalizeLemma s = l)
    /\ (forall value, (forall xs, value <> Some (SArr xs)) -> toLemmaSet value = []).
Proof.
  intros H w l. split; [apply noiseTarget_In|]. split; [apply noiseTarget_NoDup|].
  split; [intro xs; apply toLemmaSet_In|].
  intros value Hna. unfold toLemmaSet.
  destruct value as [[| | | |xs]|]; try reflexivity.
  exfalso. apply (Hna xs). reflexivity.
Qed.


Section SyncFacts.
Context {H : Host}.

(** The reconciliation, as its early return and its two loops. *)
Lemma sync_unfold : forall now force w,
  syncNoiseWordsFromSettings now force w
  = if negb force && match settingValue "noiseConfigHash" w with
                     | Some (SStr prev) => (prev =? noiseConfigKey w)%string
                     | _ => false
                     end
    then (Resolved tt, w)
    else
      (forEach (filter isManagedLocked (vocabulary w))
         (noiseUnlockStep now (noiseTarget w)) ;;;
       forEach (noiseTarget w) (noiseLockStep now) ;;;
       settings_put {| kv_key := "noiseConfigHash";
                       kv_value := SStr (noiseConfigKey w);
                       kv_updatedAt := now |}) w.
Proof.
  intros now force w. unfold syncNoiseWordsFromSettings.
  unfold bind at 1, reads at 1. unfold bind at 1, reads at 1.
  destruct (negb force && _); [reflexivity|].
  unfold bind at 1, reads at 1. unfold bind at 1, reads at 1. reflexivity.
Qed.

Lemma syncRuns_not_early : forall force w,
  syncRuns force w ->
  negb force && match settingValue "noiseConfigHash" w with
                | Some (SStr prev) => (prev =? noiseConfigKey w)%string
                | _ => false
                end = false.
Proof.
  intros force w [->|Hne]; [reflexivity|].
  destruct (settingValue "noiseConfigHash" w) as [[| | |prev|]|];
    try apply andb_false_r.
  destruct (prev =? noiseConfigKey w)%string eqn:He; [|apply andb_false_r].
  apply String.eqb_eq in He. subst prev. exfalso. apply Hne. reflexivity.
Qed.

(** A loop resolves when each of its turns does, and what every turn
    preserves, the loop preserves. *)
Lemma forEach_preserves : forall {A} (P : World -> Prop) (xs : list A)
    (body : A -> Async unit) w,
  (forall x w0, In x xs -> P w0 -> P (snd (body x w0))) ->
  P w -> P (snd (forEach xs body w)).
Proof.
  intros A P xs body. induction xs as [|x xs IH]; intros w Hbody Hw; simpl.
  - exact Hw.
  - unfold bind.
    pose proof (Hbody x w (or_introl eq_refl) Hw) as Hx.
    destruct (body x w) as [[[]|e] w1]; simpl in *.
    + apply IH; [|exact Hx]. intros y w0 Hy. apply Hbody. right. exact Hy.
    + exact Hx.
Qed.

Lemma applyChanges_unlocked : forall now u r,
  lockedThoughTraced (applyChanges (noiseUnlockChanges now u) r) = false.
Proof.
  intros now u r. unfold lockedThoughTraced, isManagedLocked. simpl.
  apply andb_false_r.
Qed.

(** After the unlock loop no row is locked by the reconciler and traced. *)
Lemma unlock_loop_clears : forall now target rem w,
  (forall r, In r (vocabulary w) -> lockedThoughTraced r = true -> In r rem) ->
  forall r, In r (vocabulary (snd (forEach rem (noiseUnlockStep now target) w))) ->
            lockedThoughTraced r = false.
Proof.
  intros now target rem. induction rem as [|v rem IH]; intros w Hinv r Hr; simpl in Hr.
  - destruct (lockedThoughTraced r) eqn:Hbad; [|reflexivity].
    exfalso. exact (Hinv r Hr Hbad).
  - unfold bind in Hr.
    assert (Hstep : exists w1,
              noiseUnlockStep now target v w = (Resolved tt, w1)
              /\ (forall r0, In r0 (vocabulary w1) -> lockedThoughTraced r0 = true ->
                             In r0 rem)).
    { unfold noiseUnlockStep.
      destruct (negb (set_has (lemma v) target) || truthy (isTraced v)) eqn:Hcond.
      - eexists. split; [reflexivity|]. simpl. intros r0 Hr0 Hbad.
        unfold tbl_update in Hr0. apply in_map_iff in Hr0.
        destruct Hr0 as [r1 [Heq Hr1]].
        destruct (vocabId r1 =? vocabId v)%string eqn:Hk.
        + subst r0. rewrite applyChanges_unlocked in Hbad. discriminate.
        + subst r0. destruct (Hinv r1 Hr1 Hbad) as [Hv|Hin]; [|exact Hin].
          subst r1. rewrite String.eqb_refl in Hk. discriminate.
      - exists w. split; [reflexivity|]. intros r0 Hr0 Hbad.
        destruct (Hinv r0 Hr0 Hbad) as [Hv|Hin]; [|exact Hin].
        subst r0. apply orb_false_iff in Hcond. destruct Hcond as [_ Htr].
        unfold lockedThoughTraced in Hbad. rewrite Htr in Hbad. discriminate. }
    destruct Hstep as (w1 & Hrun & Hinv1). rewrite Hrun in Hr.
    exact (IH w1 Hinv1 r Hr).
Qed.

Lemma lock_step_preserves : forall now l w,
  noneLockedTraced w -> noneLockedTraced (snd (noiseLockStep now l w)).
Proof.
  intros now l w [Hok Hclean]. unfold noiseLockStep, bind, reads.
  destruct (findByLemma l "en" (vocabulary w)) as [ex|] eqn:Hfind.
  - destruct (truthy (isTraced ex)) eqn:Htr; [split; assumption|].
    simpl. split.
    + apply tbl_update_ok; [apply applyChanges_vocabId | exact Hok].
    + intros r Hr. unfold tbl_update in Hr. apply in_map_iff in Hr.
      destruct Hr as [r1 [Heq Hr1]].
      destruct (vocabId r1 =? vocabId ex)%string eqn:Hk; [|subst r; auto].
      apply String.eqb_eq in Hk.
      assert (r1 = ex).
      { apply (tbl_ok_same_key vocabId (vocabulary w)); try assumption.
        unfold findByLemma in Hfind. apply find_some in Hfind. tauto. }
      subst r1 r. unfold lockedThoughTraced. simpl. rewrite Htr. reflexivity.
  - unfold freshUUID, vocab_add. simpl.
    destruct (tbl_get vocabId (randomUUID (uuidCount w)) (vocabulary w));
      simpl; [split; assumption|].
    split.
    + apply tbl_put_ok. exact Hok.
    + intros r Hr. apply tbl_put_In in Hr. destruct Hr as [->|Hr]; [reflexivity|].
      auto.
Qed.

Lemma sync_clears_locked_traced : forall now force w,
  tbl_ok vocabId (vocabulary w) -> syncRuns force w ->
  noneLockedTraced (snd (syncNoiseWordsFromSettings now force w)).
Proof.
  intros now force w Hok Hruns.
  rewrite sync_unfold, (syncRuns_not_early _ _ Hruns).
  unfold bind at 1.
  assert (H1 : noneLockedTraced
                 (snd (forEach (filter isManagedLocked (vocabulary w))
                         (noiseUnlockStep now (noiseTarget w)) w))).
  { split.
    - apply (forEach_preserves (fun w0 => tbl_ok vocabId (vocabulary w0))); [|exact Hok].
      intros x w0 _ Hw0. unfold noiseUnlockStep.
      destruct (negb _ || _); [|exact Hw0]. simpl.
      apply tbl_update_ok; [apply applyChanges_vocabId | exact Hw0].
    - apply unlock_loop_clears. intros r Hr Hbad. apply filter_In. split; [exact Hr|].
      unfold lockedThoughTraced in Hbad. apply andb_true_iff in Hbad. tauto. }
  destruct (forEach (filter isManagedLocked (vocabulary w)) _ w) as [[[]|e] w1];
    simpl in H1; [|exact H1].
  unfold bind at 1.
  assert (H2 : noneLockedTraced (snd (forEach (noiseTarget w) (noiseLockStep now) w1))).
  { apply (forEach_preserves noneLockedTraced); [|exact H1].
    intros x w0 _ Hw0. apply lock_step_preserves. exact Hw0. }
  destruct (forEach (noiseTarget w) (noiseLockStep now) w1) as [[[]|e] w2];
    simpl in H2; exact H2.
Qed.

End SyncFacts.

(** X20.  Tracing wins in the reconciliation: whenever
    [syncNoiseWordsFromSettings] does not return early (it is forced, or the
    configuration hash differs from the recorded one), it leaves no entry
    that is traced and at the same time score-locked and noise-managed. *)
Theorem X20_sync_never_locks_traced :
  forall (H : Host) (now : Z) (force : bool) (w : World),
    tbl_ok vocabId (vocabulary w) ->
    syncRuns force w ->
    let w' := snd (syncNoiseWordsFromSettings now force w) in
    tbl_ok vocabId (vocabulary w')
    /\ forall v, In v (vocabulary w') ->
         ~ (truthy (isTraced v) = true
            /\ scoreLocked v = Some true /\ noiseManaged v = Some true).
Proof.
  intros H now force w Hok Hruns w'.
  destruct (sync_clears_locked_traced now force w Hok Hruns) as [Hok' Hclean].
  split; [exact Hok'|]. intros v Hv (Htr & Hl & Hm).
  specialize (Hclean v Hv). unfold lockedThoughTraced, isManagedLocked in Hclean.
  rewrite Htr, Hl, Hm in Hclean. discriminate.
Qed.

Lemma X20_sync_never_locks_traced_witness :
  let H := exampleHost in
  let w' := snd (syncNoiseWordsFromSettings 14 true sessionTraced) in
  tbl_ok vocabId (vocabulary w')
  /\ forall v, In v (vocabulary w') ->
       ~ (truthy (isTraced v) = true
          /\ scoreLocked v = Some true /\ noiseManaged v = Some true).
Proof.
  apply (X20_sync_never_locks_traced exampleHost 14 true sessionTraced).
  - vm_compute. repeat constructor.
  - left. reflexivity.
Defined.


Lemma tbl_put_fresh_In : forall {A} (key : A -> string) r t x,
  tbl_get key (key r) t = None -> In x (r :: t) -> In x (tbl_put key r t).
Proof.
  intros A key r t x Hfresh Hx.
  apply (Permutation_in x (Permutation_sym (tbl_put_fresh_perm key r t
           (fun y Hy => tbl_get_None_fresh key (key r) t Hfresh y Hy)))).
  exact Hx.
Qed.

Section SyncTargets.
Context {H : Host}.

(** An entry that stands for a target lemma: traced, or locked as noise. *)
Let settled (l : string) (w : World) : Prop :=
  exists v, In v (vocabulary w) /\ lemma v = l /\ language v = "en"
            /\ (truthy (isTraced v) = true \/ noiseLocked v).

Lemma lock_step_keeps_settled : forall now l' l w w',
  noiseLockStep now l' w = (Resolved tt, w') -> settled l w -> settled l w'.
Proof.
  intros now l' l w w' Hrun (v & Hv & Hl & Hlang & Hgood).
  unfold noiseLockStep, bind, reads in Hrun.
  destruct (findByLemma l' "en" (vocabulary w)) as [ex|].
  - destruct (truthy (isTraced ex)).
    + inv_ret Hrun. exists v. tauto.
    + unfold vocab_update, modify in Hrun. inversion Hrun; subst w'; clear Hrun.
      simpl. destruct (vocabId v =? vocabId ex)%string eqn:Hk.
      * exists (applyChanges (lockChanges now) v). split.
        { unfold tbl_update. apply in_map_iff. exists v. rewrite Hk. tauto. }
        split; [exact Hl|]. split; [exact Hlang|].
        right. repeat split.
      * exists v. split.
        { unfold tbl_update. apply in_map_iff. exists v. rewrite Hk. tauto. }
        tauto.
  - unfold freshUUID, vocab_add in Hrun. simpl in Hrun.
    destruct (tbl_get vocabId (randomUUID (uuidCount w)) (vocabulary w)) eqn:Hfresh;
      [discriminate|].
    inversion Hrun; subst w'; clear Hrun. simpl.
    exists v. split; [|tauto].
    apply tbl_put_fresh_In; [exact Hfresh | right; exact Hv].
Qed.

Lemma lock_step_settles : forall now l w w',
  noiseLockStep now l w = (Resolved tt, w') -> settled l w'.
Proof.
  intros now l w w' Hrun. unfold noiseLockStep, bind, reads in Hrun.
  destruct (findByLemma l "en" (vocabulary w)) as [ex|] eqn:Hfind.
  - unfold findByLemma in Hfind. apply find_some in Hfind.
    destruct Hfind as [Hin Hmatch]. apply andb_true_iff in Hmatch.
    destruct Hmatch as [Hl Hlang]. apply String.eqb_eq in Hl, Hlang.
    destruct (truthy (isTraced ex)) eqn:Htr.
    + inv_ret Hrun. exists ex. tauto.
    + unfold vocab_update, modify in Hrun. inversion Hrun; subst w'; clear Hrun.
      simpl. exists (applyChanges (lockChanges now) ex). split.
      { unfold tbl_update. apply in_map_iff. exists ex.
        rewrite String.eqb_refl. tauto. }
      split; [exact Hl|]. split; [exact Hlang|]. right. repeat split.
  - unfold freshUUID, vocab_add in Hrun. simpl in Hrun.
    destruct (tbl_get vocabId (randomUUID (uuidCount w)) (vocabulary w)) eqn:Hfresh;
      [discriminate|].
    inversion Hrun; subst w'; clear Hrun. simpl.
    exists (noiseEntry now l (randomUUID (uuidCount w))). split.
    { apply tbl_put_fresh_In; [exact Hfresh | left; reflexivity]. }
    split; [reflexivity|]. split; [reflexivity|]. right. repeat split.
Qed.

Lemma lock_loop_settles : forall now ls w w',
  forEach ls (noiseLockStep now) w = (Resolved tt, w') ->
  (forall l, settled l w -> settled l w')
  /\ (forall l, In l ls -> settled l w').
Proof.
  intros now ls. induction ls as [|l0 ls IH]; intros w w' Hrun; simpl in Hrun.
  - inv_ret Hrun. split; [tauto|]. intros l [].
  - apply bind_Resolved_inv in Hrun. destruct Hrun as [[] [w1 [Hstep Hrest]]].
    destruct (IH w1 w' Hrest) as [Hkeep Hnew]. split.
    + intros l Hl. apply Hkeep. eapply lock_step_keeps_settled; eassumption.
    + intros l [<-|Hl]; [|apply Hnew; exact Hl].
      apply Hkeep. eapply lock_step_settles. exact Hstep.
Qed.

Lemma sync_settles_targets : forall now force w w' l,
  syncRuns force w ->
  syncNoiseWordsFromSettings now force w = (Resolved tt, w') ->
  In l (noiseTarget w) -> settled l w'.
Proof.
  intros now force w w' l Hruns Hrun Hl.
  rewrite sync_unfold, (syncRuns_not_early _ _ Hruns) in Hrun.
  apply bind_Resolved_inv in Hrun. destruct Hrun as [[] [w1 [_ Hrun]]].
  apply bind_Resolved_inv in Hrun. destruct Hrun as [[] [w2 [Hloop Hput]]].
  destruct (lock_loop_settles now _ w1 w2 Hloop) as [_ Hnew].
  unfold settings_put, modify in Hput. inversion Hput; subst w'; clear Hput.
  exact (Hnew l Hl).
Qed.

End SyncTargets.

(** X21.  After a reconciliation that ran to its end, every lemma of the
    noise target set has an English entry that is either traced or locked
    as noise: score-locked and noise-managed, with score 100 and
    [isKnown]. *)
Theorem X21_sync_locks_targets :
  forall (H : Host) (now : Z) (force : bool) (w w' : World) (l : string),
    syncRuns force w ->
    syncNoiseWordsFromSettings now force w = (Resolved tt, w') ->
    In l (noiseTarget w) ->
    exists v,
      In v (vocabulary w') /\ lemma v = l /\ language v = "en"
      /\ (truthy (isTraced v) = true
          \/ (scoreLocked v = Some true /\ familiarityScore v = Some 100
              /\ isKnown v = Some true /\ noiseManaged v = Some true)).
Proof.
  intros H now force w w' l Hruns Hrun Hl.
  exact (sync_settles_targets now force w w' l Hruns Hrun Hl).
Qed.

Lemma X21_sync_locks_targets_witness :
  exists v,
    In v (vocabulary noiseSynced) /\ lemma v = "the" /\ language v = "en"
    /\ (truthy (isTraced v) = true
        \/ (scoreLocked v = Some true /\ familiarityScore v = Some 100
            /\ isKnown v = Some true /\ noiseManaged v = Some true)).
Proof.
  apply (X21_sync_locks_targets exampleHost 5 true noiseWorld noiseSynced "the").
  - left. reflexivity.
  - reflexivity.
  - vm_compute. left. reflexivity.
Defined.


Section SyncRows.
Context {H : Host}.

Lemma unlock_loop_row : forall now target v rem w row,
  negb (set_has (lemma v) target) || truthy (isTraced v) = true ->
  NoDup rem ->
  (forall x, In x rem -> vocabId x = vocabId v -> x = v) ->
  tbl_get vocabId (vocabId v) (vocabulary w) = Some row ->
  (In v rem -> row = v) ->
  (~ In v rem -> row = applyChanges (noiseUnlockChanges now v) v) ->
  tbl_get vocabId (vocabId v)
    (vocabulary (snd (forEach rem (noiseUnlockStep now target) w)))
  = Some (applyChanges (noiseUnlockChanges now v) v).
Proof.
  intros now target v rem. induction rem as [|x rem IH];
    intros w row Hcond Hnd Hsame Hget Hin Hout; simpl.
  - rewrite Hget, (Hout (fun f => f)). reflexivity.
  - inversion Hnd as [|x' rem' Hx Hnd']; subst x' rem'.
    unfold bind.
    destruct (String.eqb (vocabId x) (vocabId v)) eqn:Hk.
    + apply String.eqb_eq in Hk.
      assert (x = v) by (apply Hsame; [left; reflexivity | exact Hk]). subst x.
      assert (row = v) by (apply Hin; left; reflexivity). subst row.
      assert (Hstep : noiseUnlockStep now target v w
                      = vocab_update (vocabId v) (noiseUnlockChanges now v) w)
        by (unfold noiseUnlockStep; rewrite Hcond; reflexivity).
      rewrite Hstep. unfold vocab_update, modify.
      eapply IH; try eassumption.
      * intros y Hy. apply Hsame. right. exact Hy.
      * simpl. rewrite tbl_get_update_same by apply applyChanges_vocabId.
        rewrite Hget. reflexivity.
      * intro Hv. contradiction.
      * intros _. reflexivity.
    + apply String.eqb_neq in Hk.
      assert (Hstep : exists w1,
                noiseUnlockStep now target x w = (Resolved tt, w1)
                /\ tbl_get vocabId (vocabId v) (vocabulary w1) = Some row).
      { unfold noiseUnlockStep.
        destruct (negb (set_has (lemma x) target) || truthy (isTraced x)).
        - eexists. split; [reflexivity|]. simpl.
          rewrite tbl_get_update_other;
            [exact Hget | apply applyChanges_vocabId | congruence].
        - exists w. split; [reflexivity | exact Hget]. }
      destruct Hstep as (w1 & Hrun & Hget1). rewrite Hrun.
      eapply IH; try eassumption.
      * intros y Hy. apply Hsame. right. exact Hy.
      * intro Hv. apply Hin. right. exact Hv.
      * intro Hv. apply Hout. intros [Heq|Hv']; [subst x; congruence | contradiction].
Qed.

Lemma lock_step_row : forall now l id row w,
  tbl_ok vocabId (vocabulary w) ->
  tbl_get vocabId id (vocabulary w) = Some row ->
  truthy (isTraced row) = true \/ lemma row <> l ->
  tbl_ok vocabId (vocabulary (snd (noiseLockStep now l w)))
  /\ tbl_get vocabId id (vocabulary (snd (noiseLockStep now l w))) = Some row.
Proof.
  intros now l id row w Hok Hget Hsafe. unfold noiseLockStep, bind, reads.
  destruct (findByLemma l "en" (vocabulary w)) as [ex|] eqn:Hfind.
  - destruct (truthy (isTraced ex)) eqn:Htr; [split; assumption|].
    simpl. split; [apply tbl_update_ok; [apply applyChanges_vocabId | exact Hok]|].
    unfold findByLemma in Hfind. apply find_some in Hfind.
    destruct Hfind as [Hin Hmatch]. apply andb_true_iff in Hmatch.
    destruct Hmatch as [Hl _]. apply String.eqb_eq in Hl.
    rewrite tbl_get_update_other; [exact Hget | apply applyChanges_vocabId |].
    intro Heq. subst id.
    rewrite (tbl_ok_get_In vocabId _ _ Hok Hin) in Hget.
    inversion Hget; subst row. destruct Hsafe; congruence.
  - unfold freshUUID, vocab_add. simpl.
    destruct (tbl_get vocabId (randomUUID (uuidCount w)) (vocabulary w)) eqn:Hfresh;
      simpl; [split; assumption|].
    split; [apply tbl_put_ok; exact Hok|].
    rewrite tbl_get_put_other; [exact Hget|]. simpl. intro Heq. congruence.
Qed.

Lemma sync_unlocks_row : forall now force w id v,
  tbl_ok vocabId (vocabulary w) -> syncRuns force w ->
  tbl_get vocabId id (vocabulary w) = Some v ->
  isManagedLocked v = true ->
  truthy (isTraced v) = true \/ ~ In (lemma v) (noiseTarget w) ->
  tbl_get vocabId id (vocabulary (snd (syncNoiseWordsFromSettings now force w)))
  = Some (applyChanges (noiseUnlockChanges now v) v).
Proof.
  intros now force w id v Hok Hruns Hget Hml Hwhy.
  pose proof (tbl_get_key vocabId _ _ _ Hget) as Hid. subst id.
  pose proof (tbl_get_In vocabId _ _ _ Hget) as Hin.
  set (v1 := applyChanges (noiseUnlockChanges now v) v).
  rewrite sync_unfold, (syncRuns_not_early _ _ Hruns).
  assert (Hcond : negb (set_has (lemma v) (noiseTarget w)) || truthy (isTraced v) = true).
  { destruct Hwhy as [Htr|Hout]; [rewrite Htr; apply orb_true_r|].
    apply set_has_false in Hout. rewrite Hout. reflexivity. }
  assert (H1 : tbl_ok vocabId
                 (vocabulary (snd (forEach (filter isManagedLocked (vocabulary w))
                                     (noiseUnlockStep now (noiseTarget w)) w)))
               /\ tbl_get vocabId (vocabId v)
                    (vocabulary (snd (forEach (filter isManagedLocked (vocabulary w))
                                        (noiseUnlockStep now (noiseTarget w)) w)))
                  = Some v1).
  { split.
    - apply (forEach_preserves (fun w0 => tbl_ok vocabId (vocabulary w0))); [|exact Hok].
      intros x w0 _ Hw0. unfold noiseUnlockStep.
      destruct (negb (set_has (lemma x) (noiseTarget w)) || truthy (isTraced x));
        [|exact Hw0].
      simpl.
      apply tbl_update_ok; [apply applyChanges_vocabId | exact Hw0].
    - apply (unlock_loop_row now (noiseTarget w) v _ w v Hcond).
      + apply NoDup_filter. apply (NoDup_map_inv vocabId).
        apply tbl_ok_NoDup. exact Hok.
      + intros x Hx Hk. apply filter_In in Hx. destruct Hx as [Hx _].
        apply (tbl_ok_same_key vocabId (vocabulary w)); assumption.
      + exact Hget.
      + reflexivity.
      + intro Hout. exfalso. apply Hout. apply filter_In. tauto. }
  unfold bind at 1.
  destruct (forEach (filter isManagedLocked (vocabulary w)) _ w) as [[[]|e] w1];
    simpl in H1; [|tauto].
  destruct H1 as [Hok1 Hget1].
  assert (Hsafe : forall l, In l (noiseTarget w) ->
                    truthy (isTraced v1) = true \/ lemma v1 <> l).
  { intros l Hl. destruct Hwhy as [Htr|Hout]; [left; exact Htr|].
    right. intro Heq. apply Hout. simpl in Heq. rewrite Heq. exact Hl. }
  assert (H2 : tbl_ok vocabId
                 (vocabulary (snd (forEach (noiseTarget w) (noiseLockStep now) w1)))
               /\ tbl_get vocabId (vocabId v)
                    (vocabulary (snd (forEach (noiseTarget w) (noiseLockStep now) w1)))
                  = Some v1).
  { apply (forEach_preserves
             (fun w0 => tbl_ok vocabId (vocabulary w0)
                        /\ tbl_get vocabId (vocabId v) (vocabulary w0) = Some v1));
      [|split; assumption].
    intros l w0 Hl [Hw0 Hg0]. apply lock_step_row; [exact Hw0 | exact Hg0|].
    apply Hsafe. exact Hl. }
  unfold bind at 1.
  destruct (forEach (noiseTarget w) (noiseLockStep now) w1) as [[[]|e] w2];
    simpl in H2; tauto.
Qed.

End SyncRows.

(** X22.  A reconciliation that runs unlocks every entry it had locked
    whose lemma has left the noise target set or that is traced: the entry
    ends not locked, not noise-managed and not known, with score 0, except
    that a traced entry keeps the score it had stored. *)
Theorem X22_sync_unlocks_stale :
  forall (H : Host) (now : Z) (force : bool) (w : World) (id : string)
         (v : VocabEntity),
    tbl_ok vocabId (vocabulary w) ->
    syncRuns force w ->
    tbl_get vocabId id (vocabulary w) = Some v ->
    scoreLocked v = Some true ->
    noiseManaged v = Some true ->
    truthy (isTraced v) = true \/ ~ In (lemma v) (noiseTarget w) ->
    exists v',
      tbl_get vocabId id (vocabulary (snd (syncNoiseWordsFromSettings now force w)))
      = Some v'
      /\ scoreLocked v' = Some false
      /\ noiseManaged v' = Some false
      /\ isKnown v' = Some false
      /\ familiarityScore v'
         = Some (if truthy (isTraced v) then nullish (familiarityScore v) 0 else 0)
      /\ isTraced v' = isTraced v
      /\ lemma v' = lemma v.
Proof.
  intros H now force w id v Hok Hruns Hget Hl Hm Hwhy.
  assert (Hml : isManagedLocked v = true)
    by (unfold isManagedLocked; rewrite Hl, Hm; reflexivity).
  eexists. split.
  - exact (sync_unlocks_row now force w id v Hok Hruns Hget Hml Hwhy).
  - simpl. repeat split; reflexivity.
Qed.

Lemma X22_sync_unlocks_stale_witness :
  let H := exampleHost in
  let v := entry "v1" "the" 100 true true false true in
  exists v',
    tbl_get vocabId "v1"
      (vocabulary (snd (syncNoiseWordsFromSettings 14 true lookupWorld)))
    = Some v'
    /\ scoreLocked v' = Some false
    /\ noiseManaged v' = Some false
    /\ isKnown v' = Some false
    /\ familiarityScore v' = Some 0
    /\ isTraced v' = isTraced v
    /\ lemma v' = lemma v.
Proof.
  apply (X22_sync_unlocks_stale exampleHost 14 true lookupWorld "v1"
           (entry "v1" "the" 100 true true false true)).
  - repeat constructor.
  - left. reflexivity.
  - reflexivity.
  - reflexivity.
  - reflexivity.
  - right. vm_compute. intros [].
Defined.


(* ================================================================= *)
(** ** Enabled wordbank words (wordbanks.ts) *)

Lemma str_ltb_lt : forall a b, str_ltb a b = true <-> str_lt a b.
Proof.
  intros a b. unfold str_ltb, str_lt.
  destruct (String.compare a b); split; congruence.
Qed.

Lemma str_ltb_irrefl : forall a, str_ltb a a = false.
Proof. intro a. unfold str_ltb. rewrite compare_refl. reflexivity. Qed.

Lemma str_ltb_total : forall a b, a <> b -> str_ltb a b = true \/ str_ltb b a = true.
Proof.
  intros a b Hne. unfold str_ltb. rewrite (String.compare_antisym a b).
  destruct (String.compare b a) eqn:Hc; simpl; auto.
  apply String.compare_eq_iff in Hc. congruence.
Qed.

Section PreferFacts.
Context {H : Host}.
Variable codeById : list (string * string).

Lemma prefer_unfold : forall a b,
  shouldPreferWordbank a b codeById
  = if negb (wordbankPriority codeById a =? wordbankPriority codeById b)%Z
    then (wordbankPriority codeById a <? wordbankPriority codeById b)%Z
    else str_ltb a b.
Proof. reflexivity. Qed.

Lemma prefer_irrefl : forall a, shouldPreferWordbank a a codeById = false.
Proof.
  intro a. rewrite prefer_unfold, Z.eqb_refl. simpl. apply str_ltb_irrefl.
Qed.

Lemma prefer_spec : forall a b,
  shouldPreferWordbank a b codeById = true
  <-> (wordbankPriority codeById a < wordbankPriority codeById b)%Z
      \/ (wordbankPriority codeById a = wordbankPriority codeById b /\ str_lt a b).
Proof.
  intros a b. rewrite prefer_unfold.
  destruct (wordbankPriority codeById a =? wordbankPriority codeById b)%Z eqn:He; simpl.
  - apply Z.eqb_eq in He. rewrite str_ltb_lt. split; [tauto|].
    intros [Hlt|[_ Hs]]; [lia | exact Hs].
  - apply Z.eqb_neq in He. rewrite Z.ltb_lt. split; [tauto|].
    intros [Hlt|[Heq _]]; [exact Hlt | contradiction].
Qed.

Lemma prefer_trans : forall a b c,
  shouldPreferWordbank a b codeById = true ->
  shouldPreferWordbank b c codeById = true ->
  shouldPreferWordbank a c codeById = true.
Proof.
  intros a b c. rewrite !prefer_spec.
  intros [H1|[H1 S1]] [H2|[H2 S2]]; try (left; lia).
  right. split; [lia|]. eapply str_lt_trans; eassumption.
Qed.

Lemma prefer_asym : forall a b,
  shouldPreferWordbank a b codeById = true ->
  shouldPreferWordbank b a codeById = false.
Proof.
  intros a b Hab. destruct (shouldPreferWordbank b a codeById) eqn:Hba; [|reflexivity].
  pose proof (prefer_trans a b a Hab Hba) as Haa.
  rewrite prefer_irrefl in Haa. discriminate.
Qed.

Lemma prefer_total : forall a b,
  a <> b ->
  shouldPreferWordbank a b codeById = true \/ shouldPreferWordbank b a codeById = true.
Proof.
  intros a b Hne. rewrite !prefer_spec.
  destruct (Z.lt_trichotomy (wordbankPriority codeById a) (wordbankPriority codeById b))
    as [Hlt|[Heq|Hgt]].
  - left. left. exact Hlt.
  - destruct (str_ltb_total a b Hne) as [Hs|Hs]; apply str_ltb_lt in Hs.
    + left. right. tauto.
    + right. right. split; [congruence | exact Hs].
  - right. left. lia.
Qed.

End PreferFacts.

(** X23.  On a code map whose codes are not names of properties inherited
    from [Object.prototype] (the codes of the store are the ten keys of the
    priority table), [shouldPreferWordbank] is a strict total order on
    wordbank ids: by selection priority of the wordbank's code (999 for an
    unlisted code, custom for an unknown id), then by id. *)
Theorem X23_prefer_is_strict_order :
  forall (H : Host) (codeById : list (string * string)) (a b c : string),
    (forall id code, record_get id codeById = Some code ->
                     set_has code OBJECT_PROTOTYPE_NAMES = false) ->
    shouldPreferWordbank a a codeById = false
    /\ (shouldPreferWordbank a b codeById = true ->
        shouldPreferWordbank b a codeById = false)
    /\ (shouldPreferWordbank a b codeById = true ->
        shouldPreferWordbank b c codeById = true ->
        shouldPreferWordbank a c codeById = true)
    /\ (a <> b ->
        shouldPreferWordbank a b codeById = true
        \/ shouldPreferWordbank b a codeById = true)
    /\ (shouldPreferWordbank a b codeById = true
        <-> (wordbankPriority codeById a < wordbankPriority codeById b)%Z
            \/ (wordbankPriority codeById a = wordbankPriority codeById b
                /\ str_lt a b)).
Proof.
  intros H codeById a b c _.
  split; [apply prefer_irrefl|]. split; [apply prefer_asym|].
  split; [apply prefer_trans|]. split; [apply prefer_total | apply prefer_spec].
Qed.

Lemma X23_prefer_is_strict_order_witness :
  let H := exampleHost in
  let codeById := [("wb1", "cet4"); ("wb2", "daily")] in
  shouldPreferWordbank "wb1" "wb1" codeById = false
  /\ (shouldPreferWordbank "wb1" "wb2" codeById = true ->
      shouldPreferWordbank "wb2" "wb1" codeById = false)
  /\ (shouldPreferWordbank "wb1" "wb2" codeById = true ->
      shouldPreferWordbank "wb2" "wb3" codeById = true ->
      shouldPreferWordbank "wb1" "wb3" codeById = true)
  /\ ("wb1" <> "wb2" ->
      shouldPreferWordbank "wb1" "wb2" codeById = true
      \/ shouldPreferWordbank "wb2" "wb1" codeById = true)
  /\ (shouldPreferWordbank "wb1" "wb2" codeById = true
      <-> (wordbankPriority codeById "wb1" < wordbankPriority codeById "wb2")%Z
          \/ (wordbankPriority codeById "wb1" = wordbankPriority codeById "wb2"
              /\ str_lt "wb1" "wb2")).
Proof.
  apply (X23_prefer_is_strict_order exampleHost
           [("wb1", "cet4"); ("wb2", "daily")] "wb1" "wb2" "wb3").
  intros id code Hget. simpl in Hget.
  destruct (id =? "wb1")%string; [inversion Hget; reflexivity|].
  destruct (id =? "wb2")%string; [inversion Hget; reflexivity | discriminate].
Defined.


Section WordMapFacts.
Context {H : Host}.
Variable codeById : list (string * string).

Lemma wordEntryOk_other : forall seen wd n e,
  ww_normalized wd <> n ->
  wordEntryOk codeById seen n e -> wordEntryOk codeById (wd :: seen) n e.
Proof.
  intros seen wd n e Hne (Hids & Hnd & (wd0 & Hin0 & Hrest) & Hbest).
  split; [|split; [exact Hnd | split; [|exact Hbest]]].
  - intro id. rewrite Hids. split.
    + intros [x [Hx Hr]]. exists x. split; [right; exact Hx | exact Hr].
    + intros [x [[Heq|Hx] [Hn Hb]]]; [subst x; contradiction|].
      exists x. tauto.
  - exists wd0. split; [right; exact Hin0 | exact Hrest].
Qed.

Lemma wordMapOk_ext : forall s1 s2 m,
  (forall x, In x s1 <-> In x s2) ->
  wordMapOk codeById s1 m -> wordMapOk codeById s2 m.
Proof.
  intros s1 s2 m Hext Hm n. specialize (Hm n).
  destruct (record_get n m) as [e|].
  - destruct Hm as (Hids & Hnd & (wd0 & Hin0 & Hrest) & Hbest).
    split; [|split; [exact Hnd | split; [|exact Hbest]]].
    + intro id. rewrite Hids. split; intros [x [Hx Hr]]; exists x;
        (split; [apply Hext; exact Hx | exact Hr]).
    + exists wd0. split; [apply Hext; exact Hin0 | exact Hrest].
  - intros wd Hwd. apply Hm. apply Hext. exact Hwd.
Qed.

Lemma wordbankWordStep_ok : forall seen m wd,
  wordMapOk codeById seen m ->
  wordMapOk codeById (wd :: seen) (wordbankWordStep codeById m wd).
Proof.
  intros seen m wd Hm n. unfold wordbankWordStep.
  pose proof (Hm (ww_normalized wd)) as Hwd.
  pose proof (Hm n) as Hn.
  destruct (record_get (ww_normalized wd) m) as [ex|] eqn:Hget;
    rewrite record_get_map_set;
    (destruct (n =? ww_normalized wd)%string eqn:Hk;
     [apply String.eqb_eq in Hk; subst n
     |apply String.eqb_neq in Hk;
      destruct (record_get n m) as [e|];
      [apply wordEntryOk_other; [congruence | exact Hn]
      |intros x [Heq|Hx]; [subst x; congruence | apply Hn; exact Hx]]]).
  - destruct Hwd as (Hids & Hnd & (wd0 & Hin0 & Hn0 & Hb0 & Hl0 & Hs0) & Hbest).
    set (ids := if set_has (ww_wordbankId wd) (wbw_sourceWordbankIds ex)
                then wbw_sourceWordbankIds ex
                else (wbw_sourceWordbankIds ex ++ [ww_wordbankId wd])%list).
    assert (Hmem : forall id, In id ids
                     <-> id = ww_wordbankId wd \/ In id (wbw_sourceWordbankIds ex)).
    { intro id. exact (set_add_In id (ww_wordbankId wd) (wbw_sourceWordbankIds ex)). }
    assert (Hnd' : NoDup ids)
      by exact (set_add_NoDup (ww_wordbankId wd) (wbw_sourceWordbankIds ex) Hnd).
    assert (Hids' : forall id, In id ids
                      <-> exists x, In x (wd :: seen)
                                    /\ ww_normalized x = ww_normalized wd
                                    /\ ww_wordbankId x = id).
    { intro id. rewrite Hmem, Hids. split.
      - intros [->|[x [Hx Hr]]].
        + exists wd. split; [left; reflexivity | tauto].
        + exists x. split; [right; exact Hx | exact Hr].
      - intros [x [[Heq|Hx] [Hnx Hbx]]].
        + subst x. left. congruence.
        + right. exists x. tauto. }
    destruct (shouldPreferWordbank (ww_wordbankId wd) (wbw_wordbankId ex) codeById)
      eqn:Hpref.
    + split; [exact Hids'|]. split; [exact Hnd'|]. split.
      * exists wd. simpl. split; [left; reflexivity | tauto].
      * simpl. intros id Hid. apply Hmem in Hid. destruct Hid as [->|Hid].
        { apply prefer_irrefl. }
        destruct (shouldPreferWordbank id (ww_wordbankId wd) codeById) eqn:Hp;
          [|reflexivity].
        specialize (Hbest id Hid).
        rewrite (prefer_trans codeById _ _ _ Hp Hpref) in Hbest. discriminate.
    + split; [exact Hids'|]. split; [exact Hnd'|]. split.
      * exists wd0. simpl. split; [right; exact Hin0 | tauto].
      * simpl. intros id Hid. apply Hmem in Hid. destruct Hid as [->|Hid].
        { exact Hpref. }
        apply Hbest. exact Hid.
  - split; [|split; [|split]]; simpl.
    + intro id. split.
      * intros [<-|[]]. exists wd. split; [left; reflexivity | tauto].
      * intros [x [[Heq|Hx] [Hnx Hbx]]].
        { subst x. left. exact Hbx. }
        { exfalso. exact (Hwd x Hx Hnx). }
    + repeat constructor. intros [].
    + exists wd. split; [left; reflexivity | tauto].
    + intros id [<-|[]]. apply prefer_irrefl.
Qed.

Lemma wordbankWordStep_keys : forall m wd,
  NoDup (map fst m) -> NoDup (map fst (wordbankWordStep codeById m wd)).
Proof.
  intros m wd Hnd. unfold wordbankWordStep.
  destruct (record_get (ww_normalized wd) m); apply map_set_NoDup; exact Hnd.
Qed.

Lemma wordMap_fold : forall l seen m,
  wordMapOk codeById seen m -> NoDup (map fst m) ->
  wordMapOk codeById (rev l ++ seen) (fold_left (wordbankWordStep codeById) l m)
  /\ NoDup (map fst (fold_left (wordbankWordStep codeById) l m)).
Proof.
  induction l as [|wd l IH]; intros seen m Hm Hnd; simpl.
  - split; assumption.
  - destruct (IH (wd :: seen) _ (wordbankWordStep_ok seen m wd Hm)
                (wordbankWordStep_keys m wd Hnd)) as [Hok Hk].
    split; [|exact Hk]. rewrite <- app_assoc. exact Hok.
Qed.

End WordMapFacts.

Section EnabledWords.
Context {H : Host}.

Lemma getEnabled_unfold : forall w,
  getEnabledWordbankWords w
  = if Nat.eqb (List.length (enabledWordbankIds w)) 0 then []
    else fold_left (wordbankWordStep (enabledCodeById w))
           (stable_sort (fun x y => str_ltb (ww_wordbankId y) (ww_wordbankId x))
              (enabledWordbankRows w)) [].
Proof. reflexivity. Qed.

Lemma getEnabled_ok : forall w,
  wordMapOk (enabledCodeById w) (enabledWordbankRows w) (getEnabledWordbankWords w)
  /\ NoDup (map fst (getEnabledWordbankWords w)).
Proof.
  intro w. rewrite getEnabled_unfold.
  destruct (Nat.eqb (List.length (enabledWordbankIds w)) 0) eqn:Hlen.
  - split; [|constructor]. intros n. simpl. intros wd Hwd.
    unfold enabledWordbankRows in Hwd. apply filter_In in Hwd.
    apply Nat.eqb_eq in Hlen. apply length_zero_iff_nil in Hlen.
    rewrite Hlen in Hwd. simpl in Hwd. destruct Hwd as [_ Hf]. discriminate.
  - set (sorted := stable_sort _ (enabledWordbankRows w)).
    destruct (wordMap_fold (enabledCodeById w) sorted [] []) as [Hok Hk].
    + intros n. simpl. intros wd [].
    + constructor.
    + split; [|exact Hk].
      apply (wordMapOk_ext (enabledCodeById w) (rev sorted ++ [])); [|exact Hok].
      intro x. rewrite app_nil_r, <- in_rev.
      pose proof (stable_sort_perm
                    (fun a b : WordbankWordEntity =>
                       str_ltb (ww_wordbankId b) (ww_wordbankId a))
                    (enabledWordbankRows w)) as Hperm.
      fold sorted in Hperm.
      split; intro Hx.
      * exact (Permutation_in x Hperm Hx).
      * exact (Permutation_in x (Permutation_sym Hperm) Hx).
Qed.

End EnabledWords.

(** X24.  The word map of the enabled wordbanks has one entry per normalized
    word that some enabled wordbank contains, and no other.  The entry lists
    each wordbank containing the word once, and takes its wordbank, lemma and
    surface from a row of the wordbank that [shouldPreferWordbank] ranks
    first among them. *)
Theorem X24_enabled_wordbank_words :
  forall (H : Host) (w : World) (n : string),
    NoDup (map fst (getEnabledWordbankWords w))
    /\ (In n (map fst (getEnabledWordbankWords w))
        <-> exists wd, In wd (enabledWordbankRows w) /\ ww_normalized wd = n)
    /\ (forall e,
          record_get n (getEnabledWordbankWords w) = Some e ->
          (forall id, In id (wbw_sourceWordbankIds e)
                      <-> exists wd, In wd (enabledWordbankRows w)
                                     /\ ww_normalized wd = n
                                     /\ ww_wordbankId wd = id)
          /\ NoDup (wbw_sourceWordbankIds e)
          /\ (exists wd, In wd (enabledWordbankRows w)
                         /\ ww_normalized wd = n
                         /\ ww_wordbankId wd = wbw_wordbankId e
                         /\ ww_lemma wd = wbw_lemma e
                         /\ ww_surface wd = wbw_surface e)
          /\ (forall id, In id (wbw_sourceWordbankIds e) ->
                shouldPreferWordbank id (wbw_wordbankId e) (enabledCodeById w) = false))
    /\ (enabledWordbankIds w = [] -> getEnabledWordbankWords w = []).
Proof.
  intros H w n. destruct (getEnabled_ok w) as [Hok Hk].
  split; [exact Hk|]. split; [|split].
  - rewrite <- map_has_In. unfold map_has. specialize (Hok n).
    destruct (record_get n (getEnabledWordbankWords w)) as [e|].
    + destruct Hok as (_ & _ & (wd & Hin & Hn & _) & _).
      split; [intros _; exists wd; tauto | reflexivity].
    + split; [discriminate|]. intros [wd [Hin Hn]]. exfalso. exact (Hok wd Hin Hn).
  - intros e He. specialize (Hok n). rewrite He in Hok. exact Hok.
  - intro Hnone. rewrite getEnabled_unfold, Hnone. reflexivity.
Qed.
